(** * Mink: the inline Markdown fidelity engine

    A shallow embedding of the renderer's inline-reveal state machine
    ([findActiveMarkRange], [expandInlineReveal], [collapseInlineReveal],
    [reconcileActiveBoldRevealMarks], [syncInlineReveal],
    [handleInlineRevealKeyDown]), of the caret mapping performed by
    [toggleSourceMode], and of the search and replace functions
    ([findAllMatches], [doSearch], [doReplaceAll]).  Around the engine it
    also covers the input rules that reveal while typing, the navigation
    between search results, the replacement of one match, the highlight
    plugin, the paragraph bounds of the source view, the streaming client of
    the AI service, and the endpoint and recent lists of the main process.

    Conventions.
    - A JavaScript string is a [list ascii]; lengths and offsets are [Z], as
      the source computes with (possibly negative) numbers.
    - The ProseMirror document is restricted to one textblock (a paragraph)
      holding text only.  Position [1] is the start of the paragraph, the
      character with 0-based offset [i] sits between positions [i+1] and
      [i+2], and [doc.content.size] is the number of characters plus 2.
    - Only the two marks the engine works with, bold and italic, are kept on
      each character.  Both are declared with [inclusive: false] in the
      source ([TyporaBold], [TyporaItalic]).
    - The editor state holds no stored marks, and the clock ([Date.now()])
      is an argument of the functions that read it.
    - The numbers of the caret estimate are IEEE 754 binary64 values, with
      the operations of [SpecFloat]. *)

From Stdlib Require Import ZArith Bool Ascii String List Sorted Permutation Lia.
From Stdlib Require Import SpecFloat.
Import ListNotations.
Open Scope Z_scope.

(* ================================================================== *)
(** ** JavaScript strings *)

Module JS.

Definition jsstring := list ascii.

Definition str (s : string) : jsstring := list_ascii_of_string s.
Arguments str _%_string.

(** [s.length] *)
Definition len (s : jsstring) : Z := Z.of_nat (length s).

Fixpoint eqb (a b : jsstring) : bool :=
  match a, b with
  | [], [] => true
  | x :: a', y :: b' => Ascii.eqb x y && eqb a' b'
  | _, _ => false
  end.

(** [s.slice(a, b)]: negative indices count from the end, both are clamped. *)
Definition sliceIndex (s : jsstring) (i : Z) : Z :=
  if i <? 0 then Z.max (len s + i) 0 else Z.min i (len s).

Definition slice (s : jsstring) (a b : Z) : jsstring :=
  let from := sliceIndex s a in
  let to := sliceIndex s b in
  firstn (Z.to_nat (to - from)) (skipn (Z.to_nat from) s).

(** [s.slice(a)] *)
Definition sliceFrom (s : jsstring) (a : Z) : jsstring := slice s a (len s).

(** [s.substring(a, b)]: indices clamped to [0, length], swapped if needed. *)
Definition substring (s : jsstring) (a b : Z) : jsstring :=
  let a' := Z.max 0 (Z.min a (len s)) in
  let b' := Z.max 0 (Z.min b (len s)) in
  let lo := Z.min a' b' in
  let hi := Z.max a' b' in
  firstn (Z.to_nat (hi - lo)) (skipn (Z.to_nat lo) s).

(** [s.startsWith(p)] *)
Fixpoint startsWith (s p : jsstring) : bool :=
  match p, s with
  | [], _ => true
  | x :: p', y :: s' => Ascii.eqb x y && startsWith s' p'
  | _ :: _, [] => false
  end.

(** [s.endsWith(p)] *)
Definition endsWith (s p : jsstring) : bool :=
  (length p <=? length s)%nat &&
  eqb (skipn (length s - length p) s) p.

(** Search of [q] in the suffix [t] of the subject that starts at index [i]:
    the least index at or after [i] where [q] occurs, [-1] when there is
    none. *)
Fixpoint indexOfAux (q t : jsstring) (i : Z) : Z :=
  if startsWith t q then i
  else match t with
       | [] => -1
       | _ :: t' => indexOfAux q t' (i + 1)
       end.

(** [s.indexOf(q, from)] *)
Definition indexOf (s q : jsstring) (from : Z) : Z :=
  let k := Z.max 0 (Z.min from (len s)) in
  indexOfAux q (skipn (Z.to_nat k) s) k.

(** [q] occurs in [s] at index [i]. *)
Definition occursAt (s q : jsstring) (i : Z) : bool :=
  (0 <=? i) && (i <=? len s) && startsWith (skipn (Z.to_nat i) s) q.

(** The indices at which [q] occurs in [t], in increasing order, [t] being
    the suffix of the subject that starts at index [i]. *)
Fixpoint occurrences (q t : jsstring) (i : Z) : list Z :=
  let rest := match t with
              | [] => []
              | _ :: t' => occurrences q t' (i + 1)
              end in
  if startsWith t q then i :: rest else rest.

(** The anchored patterns of the source, [/^L([\s\S]+)R$/] for literal
    delimiters [L] and [R].  The class [[\s\S]] accepts every character and
    [$] (no [m] flag) only matches at the end of the input, so the pattern
    matches exactly the strings [L ++ inner ++ R] with [inner] non-empty,
    and capture group 1 is [inner]. *)
Definition matchWrapped (l r s : jsstring) : option jsstring :=
  if startsWith s l && endsWith s r && (len l + len r + 1 <=? len s)
  then Some (slice s (len l) (len s - len r))
  else None.

(** [a || b] on match results *)
Definition orElse {A} (a b : option A) : option A :=
  match a with Some _ => a | None => b end.

End JS.

Import JS.

(* ================================================================== *)
(** ** The document model consumed from ProseMirror *)

Module PM.

Inductive MarkName := bold | italic.

Definition MarkName_eqb (a b : MarkName) : bool :=
  match a, b with
  | bold, bold | italic, italic => true
  | _, _ => false
  end.

Definition other (k : MarkName) : MarkName :=
  match k with bold => italic | italic => bold end.

(** The marks of one character. *)
Record Marks := mkMarks { mBold : bool; mItalic : bool }.

Definition noMarks : Marks := mkMarks false false.

Definition only (k : MarkName) : Marks :=
  match k with bold => mkMarks true false | italic => mkMarks false true end.

Definition hasMark (k : MarkName) (m : Marks) : bool :=
  match k with bold => mBold m | italic => mItalic m end.

Definition setMark (k : MarkName) (b : bool) (m : Marks) : Marks :=
  match k with
  | bold => mkMarks b (mItalic m)
  | italic => mkMarks (mBold m) b
  end.

Definition interMarks (a b : Marks) : Marks :=
  mkMarks (mBold a && mBold b) (mItalic a && mItalic b).

Definition PChar : Type := ascii * Marks.

(** The inline content of the paragraph. *)
Definition Doc := list PChar.

Definition plain (s : jsstring) : Doc := map (fun c => (c, noMarks)) s.
Definition styled (m : Marks) (s : jsstring) : Doc := map (fun c => (c, m)) s.

Definition text (d : Doc) : jsstring := map fst d.

(** [doc.content.size] *)
Definition contentSize (d : Doc) : Z := Z.of_nat (length d) + 2.

(** 0-based character offset of a position (positions before the
    paragraph start address offset 0). *)
Definition off (p : Z) : nat := Z.to_nat (p - 1).

(** The position that follows the characters of [pre] when the paragraph
    starts with them. *)
Definition posAfter (pre : Doc) : Z := 1 + Z.of_nat (length pre).

(** [doc.textBetween(from, to, '\n', '\n')] for a range that ends within
    the content: one textblock, so no separator is emitted, and the text
    node is sliced with clamping.  The end of the range is not clamped by
    ProseMirror: see [readThrows]. *)
Definition textBetween (d : Doc) (from to : Z) : jsstring :=
  text (firstn (off to - off from) (skipn (off from) d)).

(** Whether [doc.textBetween(from, to, ...)] throws: [Fragment.nodesBetween]
    visits the children while [pos < to], and once [to] lies past
    [doc.content.size] it reads the size of a child that is not there. *)
Definition readThrows (d : Doc) (to : Z) : bool := contentSize d <? to.

(** [$pos.nodeBefore] and [$pos.nodeAfter], per character. *)
Definition nodeBefore (d : Doc) (p : Z) : option PChar :=
  if p <=? 1 then None else nth_error d (Z.to_nat (p - 2)).

Definition nodeAfter (d : Doc) (p : Z) : option PChar :=
  if p <? 1 then None else nth_error d (Z.to_nat (p - 1)).

(** [$pos.marks()].  Inside a text node these are the node's marks; at a
    node boundary a mark with [inclusive: false] is kept only when the
    node on the other side carries it too, and none is kept at either end
    of the paragraph.  Both cases are the intersection of the neighbours. *)
Definition marksAt (d : Doc) (p : Z) : Marks :=
  match nodeBefore d p, nodeAfter d p with
  | Some a, Some b => interMarks (snd a) (snd b)
  | _, _ => noMarks
  end.

(** Apply [f] to the characters at offsets [a <= i < b]. *)
Definition mapRange (f : PChar -> PChar) (a b : nat) (d : Doc) : Doc :=
  firstn a d ++ map f (firstn (b - a) (skipn a d)) ++ skipn (a + (b - a)) d.

(** [tr.removeMark(from, to, type)] *)
Definition removeMark (d : Doc) (from to : Z) (k : MarkName) : Doc :=
  mapRange (fun c => (fst c, setMark k false (snd c))) (off from) (off to) d.

(** [tr.addMark(from, to, type.create())] *)
Definition addMark (d : Doc) (from to : Z) (k : MarkName) : Doc :=
  mapRange (fun c => (fst c, setMark k true (snd c))) (off from) (off to) d.

(** [tr.delete(from, to)] *)
Definition delete (d : Doc) (from to : Z) : Doc :=
  if to <=? from then d else firstn (off from) d ++ skipn (off to) d.

(** [tr.insertText(text, pos)] with no stored marks: the new characters
    take [$pos.marks()]; an empty text inserts nothing. *)
Definition insertText (d : Doc) (s : jsstring) (p : Z) : Doc :=
  firstn (off p) d ++ styled (marksAt d p) s ++ skipn (off p) d.

(** One step map range [(start, oldSize, newSize)] and [StepMap.map]. *)
Definition StepMap : Type := Z * Z * Z.

Definition mapStep (m : StepMap) (pos assoc : Z) : Z :=
  let '(start, oldSize, newSize) := m in
  if pos <? start then pos
  else
    let end_ := start + oldSize in
    if pos <=? end_ then
      let side :=
        if oldSize =? 0 then assoc
        else if pos =? start then -1
        else if pos =? end_ then 1
        else assoc in
      start + (if side <? 0 then 0 else newSize)
    else pos + (newSize - oldSize).

(** [tr.mapping.map(pos, assoc)] *)
Definition mapPos (ms : list StepMap) (pos assoc : Z) : Z :=
  fold_left (fun p m => mapStep m p assoc) ms pos.

End PM.

Import PM.

(* ================================================================== *)
(** ** The reveal state machine *)

Module Reveal.

(** A mark range [{ from, to }]. *)
Record Range := mkRange { r_from : Z; r_to : Z }.

(** [ed.state]: the document and the selection ([selection.from],
    [selection.to]); the selection is empty when both ends coincide. *)
Record EditorState := mkEditor { doc : Doc; selFrom : Z; selTo : Z }.

Definition selEmpty (e : EditorState) : bool := selFrom e =? selTo e.

(** The object held by [_activeInlineReveal].  The three last fields are
    absent ([undefined]) when the reveal is adopted over delimiters that are
    already in the text. *)
Record RevealState := mkReveal {
  markName : MarkName;
  syntax : jsstring;
  start : Z;
  end_ : Z;
  semantic : option MarkName;
  leftLen : option Z;
  rightLen : option Z
}.

(** [{ key, at }] recorded by the keydown listener. *)
Record KeyEvent := mkKey { key : jsstring; at_ : Z }.

(** The module-level variables of the renderer. *)
Record Globals := mkGlobals {
  _activeInlineReveal : option RevealState;
  _syncingInlineReveal : bool;
  _inlineRevealJustExpanded : bool;
  _inlineRevealLastKeyEvent : option KeyEvent;
  _inlineRevealSuppressNextSelectionExpand : bool;
  isSourceMode : bool;
  _wysiwygComposing : bool
}.

Definition setActive (r : option RevealState) (g : Globals) : Globals :=
  mkGlobals r (_syncingInlineReveal g) (_inlineRevealJustExpanded g)
    (_inlineRevealLastKeyEvent g) (_inlineRevealSuppressNextSelectionExpand g)
    (isSourceMode g) (_wysiwygComposing g).

Definition setSyncing (b : bool) (g : Globals) : Globals :=
  mkGlobals (_activeInlineReveal g) b (_inlineRevealJustExpanded g)
    (_inlineRevealLastKeyEvent g) (_inlineRevealSuppressNextSelectionExpand g)
    (isSourceMode g) (_wysiwygComposing g).

Definition setJustExpanded (b : bool) (g : Globals) : Globals :=
  mkGlobals (_activeInlineReveal g) (_syncingInlineReveal g) b
    (_inlineRevealLastKeyEvent g) (_inlineRevealSuppressNextSelectionExpand g)
    (isSourceMode g) (_wysiwygComposing g).

Definition setLastKey (k : option KeyEvent) (g : Globals) : Globals :=
  mkGlobals (_activeInlineReveal g) (_syncingInlineReveal g)
    (_inlineRevealJustExpanded g) k (_inlineRevealSuppressNextSelectionExpand g)
    (isSourceMode g) (_wysiwygComposing g).

Definition setSuppress (b : bool) (g : Globals) : Globals :=
  mkGlobals (_activeInlineReveal g) (_syncingInlineReveal g)
    (_inlineRevealJustExpanded g) (_inlineRevealLastKeyEvent g) b
    (isSourceMode g) (_wysiwygComposing g).

Definition setComposing (b : bool) (g : Globals) : Globals :=
  mkGlobals (_activeInlineReveal g) (_syncingInlineReveal g)
    (_inlineRevealJustExpanded g) (_inlineRevealLastKeyEvent g)
    (_inlineRevealSuppressNextSelectionExpand g) (isSourceMode g) b.

(** The candidate object [{ markName, range, markType, syntax }]; the mark
    type is determined by the mark name. *)
Record Candidate := mkCandidate {
  c_markName : MarkName;
  c_range : Range;
  c_syntax : jsstring
}.

(** A transaction as [syncInlineReveal] inspects it: the
    [inlineRevealSync] meta flag, [docChanged] and the position mapping. *)
Record Transaction := mkTr {
  t_syncMeta : bool;
  t_docChanged : bool;
  t_mapping : list StepMap
}.

Definition getRevealSyntax (m : MarkName) : jsstring :=
  match m with bold => str "**" | italic => str "*" end.

Definition hasMarkOpt (k : MarkName) (c : option PChar) : bool :=
  match c with Some c => hasMark k (snd c) | None => false end.

(** ** tiptap's [getMarkRange] on the one-paragraph document

    The helper picks the text node after the position, or the one before
    it when that one does not carry the mark, and extends over the adjacent
    nodes carrying the mark. *)

Fixpoint takeWhileLen {A} (f : A -> bool) (l : list A) : nat :=
  match l with
  | [] => 0
  | x :: l' => if f x then S (takeWhileLen f l') else 0
  end.

Definition runAround (d : Doc) (k : MarkName) (i : nat) : Range :=
  let has := fun c : PChar => hasMark k (snd c) in
  let l := takeWhileLen has (rev (firstn i d)) in
  let r := takeWhileLen has (skipn (S i) d) in
  mkRange (1 + Z.of_nat i - Z.of_nat l) (1 + Z.of_nat i + 1 + Z.of_nat r).

Definition getMarkRangePM (d : Doc) (p : Z) (k : MarkName) : option Range :=
  if hasMarkOpt k (nodeAfter d p) then Some (runAround d k (off p))
  else if hasMarkOpt k (nodeBefore d p) then Some (runAround d k (off p - 1))
  else None.

Section Engine.

(** [getMarkRange($pos, type, attrs)] is imported from the editor library;
    the state machine is defined over any implementation of it. *)
Variable getMarkRange : Doc -> Z -> MarkName -> option Range.

(** The local closure [tryAt] of [findActiveMarkRange]. *)
Definition tryAt (d : Doc) (k : MarkName) (p : Z) : option Range :=
  let direct := hasMark k (marksAt d p) in
  let fromRight := hasMarkOpt k (nodeAfter d p) in
  let fromLeft := hasMarkOpt k (nodeBefore d p) in
  if direct || fromRight || fromLeft then getMarkRange d p k else None.

Definition findActiveMarkRange (e : EditorState) (k : MarkName) : option Range :=
  if negb (selEmpty e) then None
  else
    let range := tryAt (doc e) k (selFrom e) in
    let range :=
      match range with
      | None => if selFrom e >? 1 then tryAt (doc e) k (selFrom e - 1) else None
      | Some _ => range
      end in
    match range with
    | None => None
    | Some r =>
        if (selFrom e <? r_from r) || (selFrom e >? r_to r) then None
        else Some r
    end.

Definition findRevealCandidate (e : EditorState) : option Candidate :=
  match findActiveMarkRange e bold with
  | Some r => Some (mkCandidate bold r (getRevealSyntax bold))
  | None =>
      match findActiveMarkRange e italic with
      | Some r => Some (mkCandidate italic r (getRevealSyntax italic))
      | None => None
      end
  end.

Definition rightOutsideFor (e : EditorState) (k : MarkName) : option Candidate :=
  let pos := selFrom e in
  let d := doc e in
  if hasMark k (marksAt d (pos - 1)) || hasMarkOpt k (nodeAfter d (pos - 1))
     || hasMarkOpt k (nodeBefore d (pos - 1))
  then match getMarkRange d (pos - 1) k with
       | Some r => if pos =? r_to r + 1
                   then Some (mkCandidate k r (getRevealSyntax k)) else None
       | None => None
       end
  else None.

Definition findRevealCandidateRightOutside (e : EditorState) : option Candidate :=
  if negb (selEmpty e) then None
  else if selFrom e <=? 1 then None
  else orElse (rightOutsideFor e bold) (rightOutsideFor e italic).

End Engine.

(** ** Expand

    Transactions built here carry the [inlineRevealSync] meta flag and are
    dispatched while [_syncingInlineReveal] is set, so the callbacks fired
    by [ed.view.dispatch] return at once; the dispatch is the replacement of
    the editor state, and the flag is cleared again after it. *)

Definition clampPos (r : Range) (oldPos : Z) : Z :=
  Z.max (r_from r) (Z.min oldPos (r_to r)).

(** [hasLeft && hasRight]: the delimiters already stand around the range.
    Both tests are evaluated; the right one reads up to [range.to + len]
    without a bound, so that the read throws ([None]) for a range that ends
    less than [len] positions before the end of the content. *)
Definition delimitersPresent (d : Doc) (range : Range) (syntax : jsstring)
  : option bool :=
  let len := len syntax in
  if (r_from range >=? len) && readThrows d (r_from range) then None
  else
    let hasLeft := (r_from range >=? len)
                   && eqb (textBetween d (r_from range - len) (r_from range)) syntax in
    if readThrows d (r_to range + len) then None
    else
      let hasRight := eqb (textBetween d (r_to range) (r_to range + len)) syntax in
      Some (hasLeft && hasRight).

(** [expandInlineReveal(ed, candidate)]: the state it leaves, or [None] when
    the test of the delimiters throws, which happens before any variable is
    set and any transaction is built. *)
Definition expandInlineReveal (e : EditorState) (g : Globals) (c : Candidate)
  : option (EditorState * Globals) :=
  let syntax := c_syntax c in
  if len syntax =? 0 then Some (e, g)
  else
    let markName := c_markName c in
    let range := c_range c in
    let from := r_from range in
    let to := r_to range in
    let len := len syntax in
    let oldPos := selFrom e in
    let d := doc e in
    match delimitersPresent d range syntax with
    | None => None
    | Some true =>
        Some (e, setActive (Some (mkReveal markName syntax (from - len) (to + len)
                                    None None None)) g)
    | Some false =>
        let reveal := mkReveal markName syntax from (to + 2 * len)
                        (Some markName) (Some len) (Some len) in
        let d := insertText d syntax to in
        let d := insertText d syntax from in
        let d := removeMark d from to (other markName) in
        let d := removeMark d from (from + len) markName in
        let d := removeMark d (to + len) (to + 2 * len) markName in
        let clampedPos := clampPos range oldPos in
        let newPos :=
          if oldPos =? to then to + 2 * len
          else if oldPos >? to then mapPos [(to, 0, len); (from, 0, len)] oldPos 1
          else clampedPos + len in
        Some (mkEditor d newPos newPos,
              setSyncing false (setJustExpanded true (setActive (Some reveal) g)))
    end.

(** ** Collapse *)

(** [syntax[0]] *)
Definition markerCharOf (syntax : jsstring) : option ascii := hd_error syntax.

(** [ch === markerChar] for a string [ch] read from the document. *)
Definition isMarker (ch : jsstring) (m : option ascii) : bool :=
  match m with Some c => eqb ch [c] | None => false end.

(** The two absorbing loops; [fuel] is [len - absorbLeft]
    (resp. [len - absorbRight]), which the loop condition bounds. *)
Fixpoint absorbLeftLoop (fuel : nat) (d : Doc) (m : option ascii)
  (revealStart : Z) : Z :=
  match fuel with
  | O => revealStart
  | S f =>
      if revealStart >? 1 then
        if isMarker (textBetween d (revealStart - 1) revealStart) m
        then absorbLeftLoop f d m (revealStart - 1)
        else revealStart
      else revealStart
  end.

Fixpoint absorbRightLoop (fuel : nat) (d : Doc) (m : option ascii)
  (revealEnd : Z) : Z :=
  match fuel with
  | O => revealEnd
  | S f =>
      if revealEnd <? contentSize d then
        if isMarker (textBetween d revealEnd (revealEnd + 1)) m
        then absorbRightLoop f d m (revealEnd + 1)
        else revealEnd
      else revealEnd
  end.

(** [revealStart] and [revealEnd] once the loops have run. *)
Definition absorbedStart (d : Doc) (rv : RevealState) : Z :=
  absorbLeftLoop (Z.to_nat (len (syntax rv))) d (markerCharOf (syntax rv))
    (start rv).

Definition absorbedEnd (d : Doc) (rv : RevealState) : Z :=
  absorbRightLoop (Z.to_nat (len (syntax rv))) d (markerCharOf (syntax rv))
    (end_ rv).

Definition boldPattern (segment : jsstring) : option jsstring :=
  orElse (matchWrapped (str "**") (str "**") segment)
         (matchWrapped (str "__") (str "__") segment).

Definition italicPattern (segment : jsstring) : option jsstring :=
  orElse (matchWrapped (str "*") (str "*") segment)
         (matchWrapped (str "_") (str "_") segment).

(** The mixed 2/1 and 1/2 branches of the bold case. *)
Definition mixedPattern (segment : jsstring) : option (MarkName * jsstring) :=
  if startsWith segment (str "**") && endsWith segment (str "*")
     && (len segment >=? 3)
  then Some (italic, slice segment 2 (-1))
  else if startsWith segment (str "*") && endsWith segment (str "**")
     && (len segment >=? 3)
  then Some (italic, slice segment 1 (-2))
  else if startsWith segment (str "__") && endsWith segment (str "_")
     && (len segment >=? 3)
  then Some (italic, slice segment 2 (-1))
  else if startsWith segment (str "_") && endsWith segment (str "__")
     && (len segment >=? 3)
  then Some (italic, slice segment 1 (-2))
  else None.

(** [parsedType] and [parsedInner] as computed by [collapseInlineReveal]. *)
Definition parseSegment (markName : MarkName) (segment : jsstring)
  : option (MarkName * jsstring) :=
  match markName with
  | bold =>
      match boldPattern segment with
      | Some m => Some (bold, m)
      | None =>
          match italicPattern segment with
          | Some mi => Some (italic, mi)
          | None => mixedPattern segment
          end
      end
  | italic =>
      match italicPattern segment with
      | Some m => Some (italic, m)
      | None =>
          match boldPattern segment with
          | Some mb => Some (bold, mb)
          | None => None
          end
      end
  end.

Definition collapseInlineReveal (e : EditorState) (g : Globals)
  : EditorState * Globals :=
  match _activeInlineReveal g with
  | None => (e, g)
  | Some rv =>
      let len := len (syntax rv) in
      let d := doc e in
      let revealStart := absorbedStart d rv in
      let revealEnd := absorbedEnd d rv in
      let segment := textBetween d revealStart revealEnd in
      let oldPos := selFrom e in
      let parsed := parseSegment (markName rv) segment in
      let d1 := delete d revealStart revealEnd in
      let '(d2, insertedLen) :=
        match parsed with
        | Some (parsedType, parsedInner) =>
            if JS.len parsedInner >? 0 then
              let d2 := insertText d1 parsedInner revealStart in
              let d2 := removeMark d2 revealStart
                          (revealStart + JS.len parsedInner) (other parsedType) in
              let d2 := addMark d2 revealStart
                          (revealStart + JS.len parsedInner) parsedType in
              (d2, JS.len parsedInner)
            else (d1, 0)
        | None => (insertText d1 segment revealStart, JS.len segment)
        end in
      let newPos :=
        if oldPos >? revealEnd then oldPos - (revealEnd - revealStart) + insertedLen
        else if oldPos >=? revealStart then
          match parsed with
          | Some _ =>
              revealStart + Z.max 0 (Z.min ((oldPos - revealStart) - len) insertedLen)
          | None =>
              revealStart + Z.max 0 (Z.min (oldPos - revealStart) insertedLen)
          end
        else oldPos in
      let sel := Z.max 1 (Z.min newPos (contentSize d2)) in
      (mkEditor d2 sel sel,
       setJustExpanded false (setActive None (setSyncing false g)))
  end.

(** ** Reconcile *)

(** The cascade deriving [{ target, leftLen, rightLen }] from the span. *)
Definition deriveShape (segment : jsstring) : option (MarkName * Z * Z) :=
  if (startsWith segment (str "**") && endsWith segment (str "**")
        && (len segment >=? 4))
     || (startsWith segment (str "__") && endsWith segment (str "__")
        && (len segment >=? 4))
  then Some (bold, 2, 2)
  else if (startsWith segment (str "*") && endsWith segment (str "*")
        && (len segment >=? 2))
     || (startsWith segment (str "_") && endsWith segment (str "_")
        && (len segment >=? 2))
  then Some (italic, 1, 1)
  else if startsWith segment (str "**") && endsWith segment (str "*")
        && (len segment >=? 3)
  then Some (italic, 2, 1)
  else if startsWith segment (str "*") && endsWith segment (str "**")
        && (len segment >=? 3)
  then Some (italic, 1, 2)
  else if startsWith segment (str "__") && endsWith segment (str "_")
        && (len segment >=? 3)
  then Some (italic, 2, 1)
  else if startsWith segment (str "_") && endsWith segment (str "__")
        && (len segment >=? 3)
  then Some (italic, 1, 2)
  else None.

Definition optZ_eqb (a : option Z) (b : Z) : bool :=
  match a with Some x => x =? b | None => false end.

Definition optMark_eqb (a : option MarkName) (b : MarkName) : bool :=
  match a with Some x => MarkName_eqb x b | None => false end.

(** The recorded shape equals the derived one ([===] on the three fields). *)
Definition sameShape (rv : RevealState) (target : MarkName) (l r : Z) : bool :=
  optMark_eqb (semantic rv) target && optZ_eqb (leftLen rv) l
  && optZ_eqb (rightLen rv) r.

Definition reconcileActiveBoldRevealMarks (e : EditorState) (g : Globals)
  : bool * EditorState * Globals :=
  match _activeInlineReveal g with
  | None => (false, e, g)
  | Some rv =>
      if negb (MarkName_eqb (markName rv) bold) then (false, e, g)
      else
        let segment := textBetween (doc e) (start rv) (end_ rv) in
        match deriveShape segment with
        | None => (false, e, g)
        | Some (target, leftLen, rightLen) =>
            if sameShape rv target leftLen rightLen then (false, e, g)
            else
              let innerFrom := start rv + leftLen in
              let innerTo := end_ rv - rightLen in
              if innerFrom >? innerTo then (false, e, g)
              else
                let d := removeMark (doc e) (start rv) (end_ rv) bold in
                let d := removeMark d (start rv) (end_ rv) italic in
                let d := if innerFrom <? innerTo
                         then addMark d innerFrom innerTo target else d in
                let rv' := mkReveal (markName rv) (syntax rv) (start rv) (end_ rv)
                             (Some target) (Some leftLen) (Some rightLen) in
                (true, mkEditor d (selFrom e) (selTo e),
                 setSyncing false (setActive (Some rv') g))
        end
  end.

(** ** The synchronisation entry point *)

Section Sync.

Variable getMarkRange : Doc -> Z -> MarkName -> option Range.

(** [key.length === 1 || key === 'Backspace' || key === 'Delete'] *)
Definition isTypingOrDelete (k : jsstring) : bool :=
  (len k =? 1) || eqb k (str "Backspace") || eqb k (str "Delete").

(** [(Date.now() - at) < 220], with [now] the reading of the clock. *)
Definition recentKey (now : Z) (k : KeyEvent) : bool := now - at_ k <? 220.

Definition remapReveal (tr : Transaction) (rv : RevealState) : RevealState :=
  let s := mapPos (t_mapping tr) (start rv) (-1) in
  let e := mapPos (t_mapping tr) (end_ rv) (-1) in
  let e := if e <? s then s else e in
  mkReveal (markName rv) (syntax rv) s e (semantic rv) (leftLen rv) (rightLen rv).

Definition trMeta (tr : option Transaction) : bool :=
  match tr with Some t => t_syncMeta t | None => false end.

Definition trDocChanged (tr : option Transaction) : bool :=
  match tr with Some t => t_docChanged t | None => false end.

Definition isNone {A} (o : option A) : bool :=
  match o with None => true | Some _ => false end.

(** The part of [syncInlineReveal] after the reconcile attempt.  An
    exception of [expandInlineReveal] leaves [syncInlineReveal] as well and
    ends the notification; the pair is then the state it leaves behind, the
    document as it was and the variables with the assignment that precedes
    the call. *)
Definition syncSelection (now : Z) (e : EditorState) (g : Globals)
  (tr : option Transaction) : EditorState * Globals :=
  if isNone tr
     && match _inlineRevealLastKeyEvent g with
        | Some k => recentKey now k && isTypingOrDelete (key k)
        | None => false
        end
  then (e, g)
  else
    match _activeInlineReveal g with
    | Some rv =>
        let stillInside :=
          selEmpty e && (selFrom e >=? start rv) && (selFrom e <=? end_ rv) in
        if _inlineRevealJustExpanded g && stillInside
        then (e, setJustExpanded false g)
        else
          let g := setJustExpanded false g in
          if negb (selEmpty e) then collapseInlineReveal e g
          else if (selFrom e <? start rv) || (selFrom e >? end_ rv)
          then collapseInlineReveal e g
          else (e, g)
    | None =>
        if negb (selEmpty e) then (e, g)
        else if isNone tr && _inlineRevealSuppressNextSelectionExpand g
        then (e, setSuppress false g)
        else
          let recentDelete :=
            match _inlineRevealLastKeyEvent g with
            | Some k => recentKey now k
                        && (eqb (key k) (str "Backspace") || eqb (key k) (str "Delete"))
            | None => false
            end in
          let candidate := findRevealCandidate getMarkRange e in
          let candidate :=
            match candidate with
            | None => if trDocChanged tr && recentDelete
                      then findRevealCandidateRightOutside getMarkRange e
                      else None
            | Some _ => candidate
            end in
          match candidate with
          | Some c =>
              match expandInlineReveal e (setSuppress false g) c with
              | Some r => r
              | None => (e, setSuppress false g)
              end
          | None => (e, g)
          end
    end.

(** [syncInlineReveal(ed, transaction)]; [e] is [ed.state], the state after
    the transaction, and [tr] is [None] when the function is called from
    [onSelectionUpdate]. *)
Definition syncInlineReveal (now : Z) (e : EditorState) (g : Globals)
  (tr : option Transaction) : EditorState * Globals :=
  if _syncingInlineReveal g then
    (e, if trMeta tr then setSyncing false g else g)
  else if isSourceMode g then (e, g)
  else if trMeta tr then (e, g)
  else
    let g := if trDocChanged tr then setSuppress true g else g in
    match _activeInlineReveal g, trDocChanged tr, tr with
    | Some rv, true, Some t =>
        let g := setActive (Some (remapReveal t rv)) g in
        let '(changed, e', g') := reconcileActiveBoldRevealMarks e g in
        if changed then (e', g') else syncSelection now e g tr
    | _, _, _ => syncSelection now e g tr
    end.

(** The [compositionstart] and [compositionend] handlers of [initEditor]
    (their remaining statements touch the DOM only). *)
Definition compositionstart (g : Globals) : Globals := setComposing true g.
Definition compositionend (g : Globals) : Globals := setComposing false g.

(** [handleInlineRevealKeyDown(ed, event)]: the state and the transaction it
    dispatches when it takes the key, [None] when it returns [false]. *)
Definition handleInlineRevealKeyDown (e : EditorState) (g : Globals)
  (k : jsstring) : option (EditorState * Transaction) :=
  match _activeInlineReveal g with
  | None => None
  | Some rv =>
      if isSourceMode g then None
      else if negb (selEmpty e) then None
      else if negb (eqb k (str "Backspace")) && negb (eqb k (str "Delete")) then None
      else
        let markerChar := markerCharOf (syntax rv) in
        let pos := selFrom e in
        if eqb k (str "Backspace") && (pos >? 1)
           && isMarker (textBetween (doc e) (pos - 1) pos) markerChar
        then Some (mkEditor (delete (doc e) (pos - 1) pos) (pos - 1) (pos - 1),
                   mkTr false true [(pos - 1, 1, 0)])
        else if eqb k (str "Delete")
                && isMarker (textBetween (doc e) pos (pos + 1)) markerChar
        then Some (mkEditor (delete (doc e) pos (pos + 1)) pos pos,
                   mkTr false true [(pos, 1, 0)])
        else None
  end.

(** The document [keydown] listener for a key taken by the handler above:
    the key is recorded, the transaction is dispatched, and the editor calls
    [onSelectionUpdate] if the selection moved, then [onUpdate]. *)
Definition keydown (now : Z) (k : jsstring) (e : EditorState) (g : Globals)
  : EditorState * Globals :=
  let g := setLastKey (Some (mkKey k now)) g in
  if isSourceMode g then (e, g)
  else
    match handleInlineRevealKeyDown e g k with
    | Some (e', tr) =>
        let '(e1, g1) :=
          if selFrom e' =? selFrom e then (e', g)
          else syncInlineReveal now e' g None in
        syncInlineReveal now e1 g1 (Some tr)
    | None => (e, g)
    end.

End Sync.

End Reveal.

Import Reveal.

(* ================================================================== *)
(** ** Text nodes of the paragraph *)

Module Nodes.

Definition Marks_eqb (a b : Marks) : bool :=
  Bool.eqb (mBold a) (mBold b) && Bool.eqb (mItalic a) (mItalic b).

(** Adjacent characters with the same marks form one text node. *)
Fixpoint runs (d : Doc) : list (Marks * jsstring) :=
  match d with
  | [] => []
  | c :: d' =>
      match runs d' with
      | (m, s) :: rest =>
          if Marks_eqb (snd c) m then (m, fst c :: s) :: rest
          else (snd c, [fst c]) :: (m, s) :: rest
      | [] => [(snd c, [fst c])]
      end
  end.

Fixpoint place (pos : Z) (rs : list (Marks * jsstring)) : list (Z * jsstring) :=
  match rs with
  | [] => []
  | (_, s) :: rest => (pos, s) :: place (pos + len s) rest
  end.

(** The text nodes visited by [doc.descendants], each with its position. *)
Definition textNodes (d : Doc) : list (Z * jsstring) := place 1 (runs d).

End Nodes.

(* ================================================================== *)
(** ** Caret mapping in [toggleSourceMode] *)

Module Mapper.

(** [dist < bestDist], where [bestDist] starts as [Infinity] ([None]). *)
Definition closer (dist : Z) (bestDist : option Z) : bool :=
  match bestDist with None => true | Some b => dist <? b end.

(** The inner [while (idx !== -1)] loop.  [idx] grows strictly and never
    exceeds the length of [target], which bounds the iterations by [fuel]. *)
Fixpoint scanBest (fuel : nat) (target search : jsstring) (approx : Z)
  (idx bestIdx : Z) (bestDist : option Z) : Z :=
  match fuel with
  | O => bestIdx
  | S f =>
      if idx =? -1 then bestIdx
      else
        let dist := Z.abs (idx + len search - approx) in
        if closer dist bestDist
        then scanBest f target search approx
               (indexOf target search (idx + 1)) idx (Some dist)
        else scanBest f target search approx
               (indexOf target search (idx + 1)) bestIdx bestDist
  end.

(** The same choice over a list of candidate indices: the running best
    index and its distance after one more candidate. *)
Definition pick (searchLen approx : Z) (best : Z * option Z) (idx : Z)
  : Z * option Z :=
  let dist := Z.abs (idx + searchLen - approx) in
  if closer dist (snd best) then (idx, Some dist) else best.

Definition bestIndex (target search : jsstring) (approx : Z) : Z :=
  scanBest (S (length target)) target search approx
    (indexOf target search 0) (-1) None.

(** The [for (let len = ...; len >= 3; len--)] loop; it yields the end
    offset [bestIdx + search.length] of the chosen occurrence, or [None]
    when it runs to completion.  [fuel] bounds the remaining iterations. *)
Fixpoint keyLoop (fuel : nat) (before target : jsstring) (approx : Z)
  (len : Z) : option Z :=
  match fuel with
  | O => None
  | S f =>
      if len >=? 3 then
        let search := sliceFrom before (- len) in
        let bestIdx := bestIndex target search approx in
        if negb (bestIdx =? -1) then Some (bestIdx + JS.len search)
        else keyLoop f before target approx (len - 1)
      else None
  end.

Definition anchorEnd (before target : jsstring) (approx : Z) : option Z :=
  let start := Z.min 30 (len before) in
  keyLoop (Z.to_nat start) before target approx start.

(** The numbers of the estimate: a length as a binary64 value, and the
    division and the product rounded to nearest, ties to even. *)
Definition number (z : Z) : spec_float := binary_normalize 53 1024 z 0 false.

Definition divide : spec_float -> spec_float -> spec_float := SFdiv 53 1024.

Definition times : spec_float -> spec_float -> spec_float := SFmul 53 1024.

(** [Math.round(x)]: the integer nearest to [x], a half going up, which is
    the floor of [x + 1/2] taken exactly.  [Math.round] returns NaN and the
    infinities unchanged: [None]. *)
Definition mathRound (x : spec_float) : option Z :=
  match x with
  | S754_zero _ => Some 0
  | S754_finite s m e =>
      let v := if s then Z.neg m else Z.pos m in
      Some (if 0 <=? e then v * 2 ^ e
            else (2 * v + 2 ^ (- e)) / 2 ^ (1 - e))
  | S754_infinity _ | S754_nan => None
  end.

(** [Math.round(approxRatio * md.length)] with
    [approxRatio = cursorPos / Math.max(1, editor.state.doc.content.size)]. *)
Definition approxMdPos (cursorPos size mdLength : Z) : option Z :=
  let approxRatio := divide (number cursorPos) (number (Z.max 1 size)) in
  mathRound (times approxRatio (number mdLength)).

(** [Math.round(approxRatio * fullText.length)] with
    [approxRatio = md.length > 0 ? caretPos / md.length : 0]. *)
Definition approxTextPos (caretPos mdLength textLength : Z) : option Z :=
  let approxRatio :=
    if mdLength >? 0 then divide (number caretPos) (number mdLength)
    else number 0 in
  mathRound (times approxRatio (number textLength)).

(** Structured to plain: [targetPos] for a rounded estimate [approxMdPos]. *)
Definition sourceCaret (textBefore md : jsstring) (approxMdPos : Z) : Z :=
  if len textBefore >? 0 then
    match anchorEnd textBefore md approxMdPos with
    | Some targetPos => targetPos
    | None => 0
    end
  else 0.

(** The [descendants] walk turning a text offset into a position: the
    paragraph counts for one, then the text nodes are visited in order. *)
Fixpoint walkNodes (nodes : list (Z * jsstring)) (targetTextEnd : Z)
  (textCount pmPos : Z) : Z :=
  match nodes with
  | [] => pmPos
  | (nodePos, t) :: rest =>
      if textCount >=? targetTextEnd then walkNodes rest targetTextEnd textCount pmPos
      else
        let start := textCount in
        let end_ := textCount + len t in
        if (targetTextEnd >=? start) && (targetTextEnd <=? end_)
        then walkNodes rest targetTextEnd targetTextEnd
               (nodePos + (targetTextEnd - start))
        else walkNodes rest targetTextEnd (textCount + len t) pmPos
  end.

Definition pmPosOf (d : Doc) (targetTextEnd : Z) : Z :=
  if 0 >=? targetTextEnd then 1
  else walkNodes (Nodes.textNodes d) targetTextEnd 1 1.

(** Plain to structured: the position handed to [setTextSelection].
    [plainBefore] is the text before the caret with the markup stripped,
    [d] the document parsed from the source text and [approxTextPos] the
    value [Math.round(approxRatio * fullText.length)]. *)
Definition editorCaret (plainBefore : jsstring) (d : Doc) (approxTextPos : Z) : Z :=
  let fullText := textBetween d 0 (contentSize d) in
  let pos :=
    if len plainBefore >? 0 then
      match anchorEnd plainBefore fullText approxTextPos with
      | Some targetTextEnd => pmPosOf d targetTextEnd
      | None => 1
      end
    else 1 in
  Z.min pos (contentSize d).

(** The branch of [toggleSourceMode] that opens the source view: the offset
    given to [sourceEl.selectionStart] for the state [e] of the editor,
    whose caret [cursorPos] is [editor.state.selection.from], and the
    source text [md].  With an estimate that is not a finite number, [dist]
    is NaN or [Infinity] and never below [bestDist], so that every key
    leaves [bestIdx] at [-1] and [targetPos] keeps its initial value. *)
Definition toggleToSource (e : EditorState) (md : jsstring) : Z :=
  let cursorPos := selFrom e in
  let textBefore := textBetween (doc e) 0 cursorPos in
  match approxMdPos cursorPos (contentSize (doc e)) (len md) with
  | Some approx => sourceCaret textBefore md approx
  | None => 0
  end.

(** The branch that returns to the editor: the position given to
    [setTextSelection] for the caret [caretPos] of the source text [md],
    where [plainBefore] is the text before the caret with the markup
    stripped and [d] the document parsed from [md]. *)
Definition toggleToEditor (caretPos : Z) (md plainBefore : jsstring) (d : Doc) : Z :=
  let fullText := textBetween d 0 (contentSize d) in
  match approxTextPos caretPos (len md) (len fullText) with
  | Some approx => editorCaret plainBefore d approx
  | None => Z.min 1 (contentSize d)
  end.

End Mapper.

(* ================================================================== *)
(** ** Search and replace *)

Module Search.

(** A search mark [{ from, to }]. *)
Record Match := mkMatch { m_from : Z; m_to : Z }.

(** The [while (idx !== -1)] loop pushing every index; [step] is the
    distance from a match to the place the search resumes. *)
Fixpoint collect (fuel : nat) (text query : jsstring) (idx : Z) : list Z :=
  match fuel with
  | O => []
  | S f =>
      if idx =? -1 then []
      else idx :: collect f text query (indexOf text query (idx + 1))
  end.

Definition allIndexes (text query : jsstring) : list Z :=
  collect (S (length text)) text query (indexOf text query 0).

(** [results.sort((a, b) => a.from - b.from)]: a stable sort. *)
Fixpoint insertMatch (m : Match) (l : list Match) : list Match :=
  match l with
  | [] => [m]
  | x :: l' => if m_from m <? m_from x then m :: l else x :: insertMatch m l'
  end.

Definition sortMatches (l : list Match) : list Match :=
  fold_right insertMatch [] l.

(** ASCII case folding, the instance used on concrete inputs. *)
Definition lowerChar (c : ascii) : ascii :=
  let n := nat_of_ascii c in
  if ((65 <=? n) && (n <=? 90))%nat then ascii_of_nat (n + 32) else c.

Definition asciiLower (s : jsstring) : jsstring := map lowerChar s.

Section WithCaseFolding.

(** [String.prototype.toLowerCase] *)
Variable toLowerCase : jsstring -> jsstring.

Definition nodeMatches (query lowerQuery : jsstring) (node : Z * jsstring)
  : list Match :=
  let '(pos, t) := node in
  map (fun idx => mkMatch (pos + idx) (pos + idx + len query))
      (allIndexes (toLowerCase t) lowerQuery).

Definition findAllMatches (d : Doc) (query : jsstring) : list Match :=
  if len query =? 0 then []
  else
    let lowerQuery := toLowerCase query in
    sortMatches (flat_map (nodeMatches query lowerQuery) (Nodes.textNodes d)).

(** The search bar and the two views as the search functions see them. *)
Record SearchState := mkSearch {
  searchMarks : list Match;
  searchIndex : Z;
  sourceMode : bool;
  sourceValue : jsstring;
  editorDoc : Doc
}.

(** The positions found by the source-mode branch of [doSearch]. *)
Definition sourcePositions (text query : jsstring) : list Z :=
  allIndexes (toLowerCase text) (toLowerCase query).

Definition doSearch (query : jsstring) (s : SearchState) : SearchState :=
  if len query =? 0 then
    mkSearch [] (-1) (sourceMode s) (sourceValue s) (editorDoc s)
  else if sourceMode s then
    let positions := sourcePositions (sourceValue s) query in
    let marks := map (fun p => mkMatch p (p + len query)) positions in
    mkSearch marks (if (0 <? length positions)%nat then 0 else -1)
      (sourceMode s) (sourceValue s) (editorDoc s)
  else
    let marks := findAllMatches (editorDoc s) query in
    mkSearch marks (if (0 <? length marks)%nat then 0 else -1)
      (sourceMode s) (sourceValue s) (editorDoc s).

(** The replacement loop of the source-mode branch of [doReplaceAll]; the
    search resumes at [lastEnd = pos + query.length], past the match. *)
Fixpoint replaceLoop (fuel : nat) (text lowerText lowerQuery : jsstring)
  (queryLen : Z) (replacement result : jsstring) (lastEnd pos : Z) : jsstring :=
  match fuel with
  | O => result ++ substring text lastEnd (len text)
  | S f =>
      if pos =? -1 then result ++ substring text lastEnd (len text)
      else
        let result := result ++ substring text lastEnd pos ++ replacement in
        let lastEnd := pos + queryLen in
        replaceLoop f text lowerText lowerQuery queryLen replacement result
          lastEnd (indexOf lowerText lowerQuery lastEnd)
  end.

(** One link of the command chain:
    [setTextSelection(m).deleteSelection().insertContent(replacement)], on
    the ground it is used on here: a document without marks and a
    replacement without markup, which [insertContent], parsing it as HTML,
    inserts as the text it is; and no reveal is active, so that the
    listeners of the editor, notified of the transaction, leave the document
    as the chain made it. *)
Definition replaceMatch (replacement : jsstring) (d : Doc) (m : Match) : Doc :=
  insertText (delete d (m_from m) (m_to m)) replacement (m_from m).

(** [doReplaceAll()]; its editor branch on the ground of [replaceMatch]. *)
Definition doReplaceAll (query replacement : jsstring) (s : SearchState)
  : SearchState :=
  if (len query =? 0) || (length (searchMarks s) =? 0)%nat then s
  else
    let s' :=
      if sourceMode s then
        let text := sourceValue s in
        let lowerQuery := toLowerCase query in
        let lowerText := toLowerCase text in
        let result :=
          replaceLoop (S (length lowerText)) text lowerText lowerQuery (len query)
            replacement [] 0 (indexOf lowerText lowerQuery 0) in
        mkSearch (searchMarks s) (searchIndex s) (sourceMode s) result (editorDoc s)
      else
        let d := fold_left (replaceMatch replacement) (rev (searchMarks s))
                   (editorDoc s) in
        mkSearch (searchMarks s) (searchIndex s) (sourceMode s) (sourceValue s) d
    in doSearch query s'.

End WithCaseFolding.

End Search.

(* ================================================================== *)
(** ** The AI service: provider messages and streamed responses *)

Module AIService.

(** [s.split('\n')] *)
Fixpoint splitLines (s : jsstring) : list jsstring :=
  match s with
  | [] => [[]]
  | c :: s' =>
      if Ascii.eqb c "010" then [] :: splitLines s'
      else match splitLines s' with
           | l :: ls => (c :: l) :: ls
           | [] => [[c]]
           end
  end.

(** [parts.join(sep)] *)
Fixpoint join (sep : jsstring) (parts : list jsstring) : jsstring :=
  match parts with
  | [] => []
  | [p] => p
  | p :: rest => p ++ sep ++ join sep rest
  end.

(** A chat message [{ role, content }]. *)
Record Message := mkMessage { role : jsstring; content : jsstring }.

Definition isSystem (m : Message) : bool := eqb (role m) (str "system").

(** The loop of [callClaude] that extracts the system prompt: the pair
    [(system, filtered)] after the messages have been visited. *)
Fixpoint claudeMessages (messages : list Message) (system : jsstring)
  (filtered : list Message) : jsstring * list Message :=
  match messages with
  | [] => (system, filtered)
  | msg :: rest =>
      if isSystem msg then
        claudeMessages rest
          (system ++ (if 0 <? len system then str (String "010" "") else [])
             ++ content msg)
          filtered
      else claudeMessages rest system (filtered ++ [msg])
  end.

(** The fields [system] and [messages] of the request body; [system] is
    only set when the prompt is not empty. *)
Definition claudeBody (messages : list Message) : option jsstring * list Message :=
  let '(system, filtered) := claudeMessages messages [] [] in
  (if 0 <? len system then Some system else None, filtered).

(** A chunk of the response, a [Buffer]. *)
Definition Buffer := list Byte.byte.

Section Stream.

(** [String.prototype.trim], the [parseLine] callback of the provider, which
    answers [null] ([None]) or a string, and [Buffer.prototype.toString],
    which decodes the bytes of one chunk as UTF-8 on their own: a character
    whose bytes are cut by the end of the chunk is not recovered from the
    next one. *)
Variable trim : jsstring -> jsstring.
Variable parseLine : jsstring -> option jsstring.
Variable toString : Buffer -> jsstring.

(** The variables of [streamRequest] and the texts handed to [onChunk]. *)
Record StreamState := mkStream {
  fullText : jsstring;
  buffer : jsstring;
  chunksOut : list jsstring
}.

Definition streamStart : StreamState := mkStream [] [] [].

(** The body of the [for (const line of lines)] loop. *)
Definition consumeLine (st : StreamState) (line : jsstring) : StreamState :=
  let trimmed := trim line in
  if len trimmed =? 0 then st
  else match parseLine trimmed with
       | None => st
       | Some text =>
           if len text =? 0 then st
           else mkStream (fullText st ++ text) (buffer st) (chunksOut st ++ [text])
       end.

(** [res.on('data', ...)] of a response with a status below 400. *)
Definition onData (st : StreamState) (chunk : Buffer) : StreamState :=
  let lines := splitLines (buffer st ++ toString chunk) in
  let rest := last lines [] in
  fold_left consumeLine (removelast lines)
    (mkStream (fullText st) rest (chunksOut st)).

(** [res.on('end', ...)]: the remaining buffer is parsed like a line. *)
Definition onEnd (st : StreamState) : StreamState :=
  if len (trim (buffer st)) =? 0 then st
  else match parseLine (trim (buffer st)) with
       | None => st
       | Some text =>
           if len text =? 0 then st
           else mkStream (fullText st ++ text) (buffer st) (chunksOut st ++ [text])
       end.

(** The reasons [streamRequest] rejects with: [API error <status>: <first
    300 characters>], the error of the request (['error'] event), and
    [Stream timeout]. *)
Inductive Reason :=
| ApiError (statusCode : Z) (message : jsstring)
| RequestError (e : jsstring)
| StreamTimeout.

Inductive Outcome :=
| Resolved (text : jsstring)
| Rejected (reason : Reason).

(** The listeners the response has: none before the callback of
    [lib.request] has run, those that gather [errData] for a status of 400
    or more, those that parse the lines otherwise. *)
Inductive Phase :=
| Waiting
| Failing (statusCode : Z)
| Streaming.

(** The events Node delivers to the listeners of [streamRequest]. *)
Inductive Event :=
| Response (statusCode : Z)
| Data (chunk : Buffer)
| End
| Error (e : jsstring)
| Timeout.

(** The promise, pending ([None]) or settled, with the variables the
    listeners share. *)
Record Request := mkRequest {
  phase : Phase;
  stream : StreamState;
  errData : jsstring;
  promise : option Outcome
}.

Definition requestStart : Request := mkRequest Waiting streamStart [] None.

(** [resolve] and [reject] settle a pending promise and do nothing to a
    settled one. *)
Definition settle (o : Outcome) (r : Request) : Request :=
  match promise r with
  | Some _ => r
  | None => mkRequest (phase r) (stream r) (errData r) (Some o)
  end.

(** One event, handled by the listener registered for it. *)
Definition handle (r : Request) (ev : Event) : Request :=
  match ev with
  | Response statusCode =>
      match phase r with
      | Waiting =>
          mkRequest (if statusCode >=? 400 then Failing statusCode else Streaming)
            (stream r) (errData r) (promise r)
      | _ => r
      end
  | Data chunk =>
      match phase r with
      | Waiting => r
      | Failing _ =>
          mkRequest (phase r) (stream r) (errData r ++ toString chunk) (promise r)
      | Streaming =>
          mkRequest (phase r) (onData (stream r) chunk) (errData r) (promise r)
      end
  | End =>
      match phase r with
      | Waiting => r
      | Failing statusCode =>
          settle (Rejected (ApiError statusCode (slice (errData r) 0 300))) r
      | Streaming =>
          let st := onEnd (stream r) in
          settle (Resolved (fullText st))
            (mkRequest (phase r) st (errData r) (promise r))
      end
  | Error e => settle (Rejected (RequestError e)) r
  | Timeout => settle (Rejected StreamTimeout) r
  end.

(** [streamRequest] after the given events: the state of its promise and
    the calls of [onChunk] made. *)
Definition streamRequest (events : list Event) : Request :=
  fold_left handle events requestStart.

End Stream.

End AIService.

(* ================================================================== *)
(** ** Moving between the search results *)

Module SearchNav.

Import Search.

(** [((index % n) + n) % n]; the remainder [%] takes the sign of the
    dividend. *)
Definition wrapIndex (index n : Z) : Z := Z.rem (Z.rem index n + n) n.

(** [navigateSearchResult(index)]: the search state it leaves and the match
    it selects, in the source view or in the editor; nothing happens when
    there is no match. *)
Definition navigateSearchResult (index : Z) (s : SearchState)
  : SearchState * option Match :=
  if (length (searchMarks s) =? 0)%nat then (s, None)
  else
    let i := wrapIndex index (Z.of_nat (length (searchMarks s))) in
    (mkSearch (searchMarks s) i (sourceMode s) (sourceValue s) (editorDoc s),
     nth_error (searchMarks s) (Z.to_nat i)).

(** The click listeners of the two arrow buttons. *)
Definition searchNext (s : SearchState) : SearchState * option Match :=
  navigateSearchResult (searchIndex s + 1) s.

Definition searchPrev (s : SearchState) : SearchState * option Match :=
  navigateSearchResult (searchIndex s - 1) s.

End SearchNav.

(* ================================================================== *)
(** ** The input rules that reveal while typing *)

Module InputRule.

(** The four rules registered by [TyporaBold] and [TyporaItalic]. *)
Inductive Rule := boldStar | boldUnderscore | italicStar | italicUnderscore.

(** The [markName] argument of [createTyporaRevealInputRule]; its [type]
    argument is the mark type of that name. *)
Definition ruleMark (r : Rule) : MarkName :=
  match r with
  | boldStar | boldUnderscore => bold
  | italicStar | italicUnderscore => italic
  end.

(** The [syntax] argument. *)
Definition ruleSyntax (r : Rule) : jsstring :=
  match r with
  | boldStar | boldUnderscore => str "**"
  | italicStar => str "*"
  | italicUnderscore => str "_"
  end.

(** [tr.insertText(text, pos)] right after [tr.setStoredMarks(marks)]: the
    new characters take the stored marks. *)
Definition insertTextStored (d : Doc) (marks : Marks) (s : jsstring) (p : Z)
  : Doc :=
  firstn (off p) d ++ styled marks s ++ skipn (off p) d.

(** The handler of a rule.  [range] is the matched range of the document,
    [fullMatch] and [innerText] are [match[0]] and [match[1]].  It yields
    the state after the transaction it returns, the variables it sets and
    the transaction, or [None] when it returns without a transaction.  A
    step drops the stored marks, so that the second insertion takes the
    marks at its position. *)
Definition handler (r : Rule) (e : EditorState) (g : Globals) (range : Range)
  (fullMatch innerText : jsstring)
  : option (EditorState * Globals * Transaction) :=
  let markName := ruleMark r in
  let syntax := ruleSyntax r in
  if len innerText =? 0 then None
  else
    let innerOffset := indexOf fullMatch innerText 0 in
    if innerOffset <? 0 then None
    else
      let textStart := r_from range + innerOffset in
      let textEnd := textStart + len innerText in
      let d := doc e in
      let '(d, m1) :=
        if textEnd <? r_to range
        then (delete d textEnd (r_to range),
              [(textEnd, r_to range - textEnd, 0)])
        else (d, []) in
      let '(d, m2) :=
        if textStart >? r_from range
        then (delete d (r_from range) textStart,
              [(r_from range, textStart - r_from range, 0)])
        else (d, []) in
      let markFrom := r_from range in
      let markTo := markFrom + len innerText in
      let d := removeMark d markFrom markTo (other markName) in
      let d := addMark d markFrom markTo markName in
      let d := insertTextStored d noMarks syntax markTo in
      let d := insertText d syntax markFrom in
      let d := removeMark d markFrom (markFrom + len syntax) markName in
      let d := removeMark d (markTo + len syntax) (markTo + len syntax * 2)
                 markName in
      let caret := markTo + len syntax * 2 in
      let reveal := mkReveal markName syntax markFrom (markTo + len syntax * 2)
                      (Some markName) (Some (len syntax)) (Some (len syntax)) in
      Some (mkEditor d caret caret,
            setSyncing true (setJustExpanded true (setActive (Some reveal) g)),
            mkTr true true
              (m1 ++ m2 ++ [(markTo, 0, len syntax); (markFrom, 0, len syntax)])).

Section Dispatch.

Variable getMarkRange : Doc -> Z -> MarkName -> option Range.

(** A rule that fires: the editor dispatches the transaction of the
    handler, calls [onSelectionUpdate] if the selection moved, then
    [onUpdate] with the transaction. *)
Definition fire (now : Z) (r : Rule) (e : EditorState) (g : Globals)
  (range : Range) (fullMatch innerText : jsstring)
  : option (EditorState * Globals) :=
  match handler r e g range fullMatch innerText with
  | Some (e', g', tr) =>
      let '(e1, g1) :=
        if (selFrom e' =? selFrom e) && (selTo e' =? selTo e) then (e', g')
        else syncInlineReveal getMarkRange now e' g' None in
      Some (syncInlineReveal getMarkRange now e1 g1 (Some tr))
  | None => None
  end.

End Dispatch.

End InputRule.

(* ================================================================== *)
(** ** The paragraph around the caret of the source view *)

Module SourceView.

Definition newline : jsstring := ["010"%char].

(** Scan of the suffix [t] that starts at index [i], keeping the last index
    not after [start] where [q] occurs. *)
Fixpoint lastIndexOfAux (q t : jsstring) (i start best : Z) : Z :=
  let best := if (i <=? start) && startsWith t q then i else best in
  match t with
  | [] => best
  | _ :: t' => lastIndexOfAux q t' (i + 1) start best
  end.

(** [s.lastIndexOf(q, from)] *)
Definition lastIndexOf (s q : jsstring) (from : Z) : Z :=
  lastIndexOfAux q s 0 (Z.max 0 (Z.min from (len s - len q))) (-1).

(** [paraStart] and [paraEnd] of [updateSourceLineHighlight]. *)
Definition paragraphBounds (text : jsstring) (caretPos : Z) : Z * Z :=
  let paraStart := lastIndexOf text newline (caretPos - 1) + 1 in
  let paraEnd := indexOf text newline caretPos in
  let paraEnd := if paraEnd =? -1 then len text else paraEnd in
  (paraStart, paraEnd).

End SourceView.

(* ================================================================== *)
(** ** The main process: endpoint and recent lists *)

Module MainProcess.

Definition defaultEndpoint : jsstring :=
  str "https://api.openai.com/v1/chat/completions".

Definition chatSuffix : jsstring := str "/chat/completions".

(** [s.replace(/suffix$/, by)] for a literal [suffix]: the end of the string
    is replaced when it reads [suffix], and nothing happens otherwise. *)
Definition replaceSuffix (s suffix by_ : jsstring) : jsstring :=
  if endsWith s suffix then firstn (length s - length suffix) s ++ by_ else s.

(** The [endpoint] of [_callOpenAI]; an absent [baseUrl] is the empty
    string. *)
Definition openAIEndpoint (baseUrl : jsstring) : jsstring :=
  let endpoint := if len baseUrl =? 0 then defaultEndpoint else baseUrl in
  if negb (len endpoint =? 0) && negb (endsWith endpoint chatSuffix) then
    if endsWith endpoint (str "/completions")
    then replaceSuffix endpoint (str "/completions") chatSuffix
    else replaceSuffix endpoint (str "/") [] ++ chatSuffix
  else endpoint.

(** [[p, ...recent.filter(f => f !== p)].slice(0, n)] *)
Definition pushRecent (n : nat) (p : jsstring) (recent : list jsstring)
  : list jsstring :=
  firstn n (p :: filter (fun f => negb (eqb f p)) recent).

(** The list [addRecentFile] stores in [config.recentFiles]. *)
Definition addRecentFile (filePath : jsstring) (recentFiles : list jsstring)
  : list jsstring :=
  pushRecent 10 filePath recentFiles.

(** The list [addRecentFolder] stores in [config.recentFolders], which may
    be absent from the configuration. *)
Definition addRecentFolder (folderPath : jsstring)
  (recentFolders : option (list jsstring)) : list jsstring :=
  let folders := match recentFolders with Some l => l | None => [] end in
  pushRecent 5 folderPath folders.

End MainProcess.

(* ================================================================== *)
(** ** Replacing the current match *)

Module SearchReplace.

Import Search.

Section WithCaseFolding.

Variable toLowerCase : jsstring -> jsstring.

(** The editor branch runs the command chain
    [focus().setTextSelection(m).deleteSelection().insertContent(replacement)]:
    [insertContent] parses the replacement as HTML, and the transaction
    notifies the listeners of the editor, the reveal engine among them.
    The document the chain leaves is not derived here. *)
Variable replaceInEditor : jsstring -> Doc -> Match -> Doc.


End WithCaseFolding.

End SearchReplace.

(* ================================================================== *)
(** ** The search highlight plugin *)

Module SearchHighlight.

Import Search.

(** The plugin state [{ matches, activeIndex }]. *)
Record HighlightState := mkHighlight {
  matches : list Match;
  activeIndex : Z
}.

(** [init()] *)
Definition init : HighlightState := mkHighlight [] (-1).

(** [apply(tr, prev)]; [meta] is [tr.getMeta(searchPluginKey)], and
    [tr.mapping.map(pos)] maps with the default association [1]. *)
Definition apply (meta : option HighlightState) (tr : Transaction)
  (prev : HighlightState) : HighlightState :=
  match meta with
  | Some st => st
  | None =>
      if t_docChanged tr && (0 <? length (matches prev))%nat then
        mkHighlight
          (filter (fun m => m_from m <? m_to m)
             (map (fun m => mkMatch (mapPos (t_mapping tr) (m_from m) 1)
                              (mapPos (t_mapping tr) (m_to m) 1))
                (matches prev)))
          (activeIndex prev)
      else prev
  end.

End SearchHighlight.

(* ================================================================== *)
(** ** Sample states *)

Module Samples.

(** The variables of the renderer as they are initialised. *)
Definition g0 : Globals := mkGlobals None false false None false false false.

Definition idle (rv : RevealState) : Globals := setActive (Some rv) g0.

(** [x **ab** y] with [ab] bold and the caret inside the bold run. *)
Definition boldDoc : Doc :=
  plain (str "x ") ++ styled (only bold) (str "ab") ++ plain (str " y").

(** A bold run that already stands between literal asterisks. *)
Definition literalDoc : Doc :=
  plain (str "**") ++ styled (only bold) (str "ab") ++ plain (str "** z").

Definition literalExpanded : EditorState * Globals :=
  syncInlineReveal getMarkRangePM 0 (mkEditor literalDoc 4 4) g0 None.

Definition literalCollapsed : EditorState * Globals :=
  syncInlineReveal getMarkRangePM 0
    (mkEditor (doc (fst literalExpanded)) 9 9) (snd literalExpanded) None.

(** A revealed span reading [**mi*], followed by plain text. *)
Definition mixedDoc : Doc :=
  plain (str "**") ++ styled (only bold) (str "mi") ++ plain (str "* x").

Definition mixedBold : RevealState :=
  mkReveal bold (str "**") 1 6 (Some bold) (Some 2) (Some 2).

Definition mixedItalic : RevealState :=
  mkReveal italic (str "*") 1 6 (Some italic) (Some 1) (Some 1).





(** An italic reveal whose span now reads [**ab**], after a [*] was typed
    before its last character. *)
Definition italicDoc : Doc :=
  plain (str "**") ++ styled (only italic) (str "ab") ++ plain (str "**").

Definition italicReveal : RevealState :=
  mkReveal italic (str "*") 1 6 (Some italic) (Some 1) (Some 1).

Definition typedStar : Transaction := mkTr false true [(5, 0, 1)].

(** A bold reveal [**ab**] whose last [*] has just been deleted. *)
Definition shrunkDoc : Doc :=
  plain (str "**") ++ styled (only bold) (str "ab") ++ plain (str "*").

Definition shrunkReveal : RevealState :=
  mkReveal bold (str "**") 1 7 (Some bold) (Some 2) (Some 2).

Definition deletedStar : Transaction := mkTr false true [(6, 1, 0)].

(** The caret enters the bold run while a composition is in progress. *)
Definition composing : Globals := compositionstart g0.

Definition composingSync : EditorState * Globals :=
  syncInlineReveal getMarkRangePM 0 (mkEditor boldDoc 4 4) composing None.

(** The text [The **cat** sat], in the editor and in the source view. *)
Definition catText : jsstring := str "The **cat** sat".

Definition catEditor : Search.SearchState :=
  Search.mkSearch [] (-1) false [] (plain catText).

Definition catSource : Search.SearchState :=
  Search.mkSearch [] (-1) true catText [].

(** [cat] with a bold first letter: two text nodes. *)
Definition splitCat : Doc :=
  styled (only bold) (str "c") ++ plain (str "at").

(** A session on [mi x] with [mi] bold: the caret enters the run, moves
    behind the closing delimiter, Backspace deletes one asterisk, and the
    caret leaves the span. *)
Definition miEntered : EditorState * Globals :=
  syncInlineReveal getMarkRangePM 0
    (mkEditor (styled (only bold) (str "mi") ++ plain (str " x")) 2 2) g0 None.

Definition miAtEnd : EditorState * Globals :=
  syncInlineReveal getMarkRangePM 1000
    (mkEditor (doc (fst miEntered)) 7 7) (snd miEntered) None.

Definition miShrunk : EditorState * Globals :=
  keydown getMarkRangePM 2000 (str "Backspace") (fst miAtEnd) (snd miAtEnd).

Definition miLeft : EditorState * Globals :=
  syncInlineReveal getMarkRangePM 5000
    (mkEditor (doc (fst miShrunk)) 8 8) (snd miShrunk) None.






End Samples.

(** Further states, for the properties beyond the reveal round trip. *)

Module ExtraSamples.

Import Samples.

(** The bold reveal of [shrunkDoc] after the deletion of its last [*], and
    what the reconciliation makes of it. *)
Definition shrunkSpan : Globals := idle (remapReveal deletedStar shrunkReveal).

Definition shrunkReconciled : bool * EditorState * Globals :=
  reconcileActiveBoldRevealMarks (mkEditor shrunkDoc 6 6) shrunkSpan.

(** Backspace behind the closing delimiter of [**mi**]. *)
Definition miBackspace : EditorState * Transaction :=
  (mkEditor (delete (doc (fst miAtEnd)) 6 7) 6 6, mkTr false true [(6, 1, 0)]).

(** The reveal over [**mi**]. *)
Definition miRevealed : RevealState :=
  mkReveal bold (str "**") 1 7 (Some bold) (Some 2) (Some 2).

(** The text [x **ab*] with the caret at its end, as the second closing
    [*] is typed. *)
Definition typedBold : EditorState := mkEditor (plain (str "x **ab*")) 8 8.

(** Three lines in the source view. *)
Definition threeLines : jsstring :=
  str "ab" ++ SourceView.newline ++ str "cd" ++ SourceView.newline ++ str "ef".

Definition helloDoc : Doc := plain (str "hello world").

(** The matches of [at] in the editor. *)
Definition catFound : Search.SearchState :=
  Search.doSearch Search.asciiLower (str "at") catEditor.

(** The same matches as highlights, the first one active. *)
Definition catHighlights : SearchHighlight.HighlightState :=
  SearchHighlight.mkHighlight [Search.mkMatch 8 10; Search.mkMatch 14 16] 0.

(** A response of ASCII characters received in two chunks, the second
    holding the end of the first line, and its decoder. *)
Definition asciiToString (b : AIService.Buffer) : jsstring :=
  map ascii_of_byte b.

Definition twoChunks : list AIService.Buffer :=
  [map byte_of_ascii (str "ab");
   map byte_of_ascii ("c"%char :: "010"%char :: str "d")].

(** A paragraph and its source text, for the caret mapping. *)
Definition mappedDoc : Doc := plain (str "one two three two").

Definition mappedSource : jsstring := str "# one two three two".

End ExtraSamples.

(* ================================================================== *)
(** * Properties *)

(** ** Facts on strings *)

Module JSFacts.

Lemma eqb_refl (a : jsstring) : eqb a a = true.
Proof.
  induction a as [|x a IH]; simpl; [reflexivity|].
  now rewrite Ascii.eqb_refl, IH.
Qed.

Lemma eqb_eq (a b : jsstring) : eqb a b = true <-> a = b.
Proof.
  split.
  - revert b; induction a as [|x a IH]; intros [|y b] H; simpl in H;
      try discriminate; [reflexivity|].
    apply andb_true_iff in H as [Hx Hr].
    apply Ascii.eqb_eq in Hx. apply IH in Hr. now subst.
  - intros ->. apply eqb_refl.
Qed.

Lemma len_app (a b : jsstring) : len (a ++ b) = len a + len b.
Proof. unfold len. rewrite length_app. lia. Qed.

Lemma len_nonneg (a : jsstring) : 0 <= len a.
Proof. unfold len. lia. Qed.

Lemma startsWith_app (p s : jsstring) : startsWith (p ++ s) p = true.
Proof.
  induction p as [|x p IH]; simpl; [now destruct s|].
  now rewrite Ascii.eqb_refl, IH.
Qed.

Lemma startsWith_nil (s : jsstring) : startsWith s [] = true.
Proof. now destruct s. Qed.

Lemma startsWith_split (s p : jsstring) :
  startsWith s p = true -> exists r, s = p ++ r.
Proof.
  revert s; induction p as [|x p IH]; intros s H.
  - now exists s.
  - destruct s as [|y s]; simpl in H; [discriminate|].
    apply andb_true_iff in H as [Hx Hr].
    apply Ascii.eqb_eq in Hx. destruct (IH _ Hr) as [r ->].
    exists r. now subst.
Qed.

Lemma endsWith_app (s p : jsstring) : endsWith (s ++ p) p = true.
Proof.
  unfold endsWith. rewrite length_app.
  replace (length s + length p - length p)%nat with (length s) by lia.
  rewrite skipn_app, skipn_all, Nat.sub_diag. simpl.
  rewrite eqb_refl, andb_true_r. apply Nat.leb_le. lia.
Qed.

Lemma endsWith_split (s p : jsstring) :
  endsWith s p = true -> exists r, s = r ++ p.
Proof.
  unfold endsWith. intros H. apply andb_true_iff in H as [_ H].
  apply eqb_eq in H. exists (firstn (length s - length p) s).
  pose proof (firstn_skipn (length s - length p) s) as E.
  rewrite H in E. now symmetry.
Qed.

(** Taking the part of [l ++ m ++ r] between the two delimiters. *)
Lemma slice_middle (l m r : jsstring) :
  slice (l ++ m ++ r) (len l) (len (l ++ m ++ r) - len r) = m.
Proof.
  unfold slice, sliceIndex. rewrite !len_app.
  pose proof (len_nonneg l). pose proof (len_nonneg m). pose proof (len_nonneg r).
  destruct (Z.ltb_spec (len l) 0); [lia|].
  destruct (Z.ltb_spec (len l + (len m + len r) - len r) 0); [lia|].
  rewrite !Z.min_l by lia.
  replace (Z.to_nat (len l)) with (length l) by (unfold len; lia).
  replace (Z.to_nat (len l + (len m + len r) - len r - len l)) with (length m)
    by (unfold len; lia).
  rewrite skipn_app, skipn_all, Nat.sub_diag. simpl.
  rewrite firstn_app, firstn_all, Nat.sub_diag. simpl. apply app_nil_r.
Qed.

Lemma matchWrapped_wrap (l r m : jsstring) :
  m <> [] -> matchWrapped l r (l ++ m ++ r) = Some m.
Proof.
  intros Hm. unfold matchWrapped.
  rewrite startsWith_app.
  replace (l ++ m ++ r) with ((l ++ m) ++ r) at 1 by now rewrite app_assoc.
  rewrite endsWith_app. simpl.
  assert (Hlen : len l + len r + 1 <= len (l ++ m ++ r)).
  { rewrite !len_app. destruct m; [congruence|]. unfold len; simpl length. lia. }
  apply Z.leb_le in Hlen. rewrite Hlen.
  now rewrite slice_middle.
Qed.

Lemma matchWrapped_some (l r s m : jsstring) :
  matchWrapped l r s = Some m -> m <> [] /\ s = l ++ m ++ r.
Proof.
  unfold matchWrapped.
  destruct (startsWith s l) eqn:Hs; [|discriminate].
  destruct (endsWith s r) eqn:He; [|discriminate].
  destruct (Z.leb_spec (len l + len r + 1) (len s)) as [Hl|]; [|discriminate].
  simpl. intros [= <-].
  apply startsWith_split in Hs as [t ->].
  apply endsWith_split in He as [u Hu].
  assert (exists m, t = m ++ r) as [m ->].
  { assert (Hlu : (length l <= length u)%nat).
    { apply (f_equal (@length _)) in Hu. rewrite !length_app in Hu.
      rewrite len_app in Hl. unfold len in Hl. lia. }
    exists (skipn (length l) u).
    apply (f_equal (skipn (length l))) in Hu.
    rewrite skipn_app, skipn_all, Nat.sub_diag in Hu. simpl in Hu.
    rewrite Hu, skipn_app.
    replace (length l - length u)%nat with 0%nat by lia. reflexivity. }
  rewrite slice_middle. split; [|reflexivity].
  intros ->. rewrite !len_app in Hl. unfold len in Hl. simpl in Hl. lia.
Qed.

End JSFacts.

(** ** Facts on the document operations *)

Module PMFacts.

Lemma off_posAfter (pre : Doc) : off (posAfter pre) = length pre.
Proof. unfold off, posAfter. lia. Qed.

Lemma off_posAfter_plus (pre : Doc) (n : nat) :
  off (posAfter pre + Z.of_nat n) = (length pre + n)%nat.
Proof. unfold off, posAfter. lia. Qed.

Lemma firstn_pre {A} (pre x : list A) : firstn (length pre) (pre ++ x) = pre.
Proof. now rewrite firstn_app, firstn_all, Nat.sub_diag, app_nil_r. Qed.

Lemma skipn_pre {A} (pre x : list A) : skipn (length pre) (pre ++ x) = x.
Proof. now rewrite skipn_app, skipn_all, Nat.sub_diag. Qed.

Lemma firstn_pre_plus {A} (pre x : list A) (n : nat) :
  firstn (length pre + n) (pre ++ x) = pre ++ firstn n x.
Proof.
  rewrite firstn_app, firstn_all2 by lia.
  now replace (length pre + n - length pre)%nat with n by lia.
Qed.

Lemma skipn_pre_plus {A} (pre x : list A) (n : nat) :
  skipn (length pre + n) (pre ++ x) = skipn n x.
Proof.
  rewrite skipn_app, skipn_all2 by lia.
  now replace (length pre + n - length pre)%nat with n by lia.
Qed.

Lemma text_app (a b : Doc) : text (a ++ b) = text a ++ text b.
Proof. apply map_app. Qed.

Lemma text_styled (m : Marks) (s : jsstring) : text (styled m s) = s.
Proof.
  unfold text, styled. rewrite map_map. simpl. apply map_id.
Qed.

Lemma length_text (d : Doc) : length (text d) = length d.
Proof. apply length_map. Qed.

Lemma length_styled (m : Marks) (s : jsstring) : length (styled m s) = length s.
Proof. apply length_map. Qed.

Lemma len_text (d : Doc) : len (text d) = Z.of_nat (length d).
Proof. unfold len. now rewrite length_text. Qed.

Lemma textBetween_mid (pre x post : Doc) :
  textBetween (pre ++ x ++ post) (posAfter pre) (posAfter pre + Z.of_nat (length x))
  = text x.
Proof.
  unfold textBetween. rewrite off_posAfter_plus, off_posAfter.
  replace (length pre + length x - length pre)%nat with (length x) by lia.
  now rewrite skipn_pre, firstn_pre.
Qed.

Lemma delete_mid (pre x post : Doc) :
  delete (pre ++ x ++ post) (posAfter pre) (posAfter pre + Z.of_nat (length x))
  = pre ++ post.
Proof.
  unfold delete.
  destruct (Z.leb_spec (posAfter pre + Z.of_nat (length x)) (posAfter pre)).
  - assert (length x = 0%nat) by lia.
    destruct x; [reflexivity | discriminate].
  - rewrite off_posAfter_plus, off_posAfter, firstn_pre.
    now rewrite skipn_pre_plus, skipn_pre.
Qed.

Lemma insertText_at (pre post : Doc) (s : jsstring) :
  insertText (pre ++ post) s (posAfter pre)
  = pre ++ styled (marksAt (pre ++ post) (posAfter pre)) s ++ post.
Proof.
  unfold insertText. now rewrite off_posAfter, firstn_pre, skipn_pre.
Qed.

Lemma mapRange_mid (f : PChar -> PChar) (pre x post : Doc) :
  mapRange f (length pre) (length pre + length x) (pre ++ x ++ post)
  = pre ++ map f x ++ post.
Proof.
  unfold mapRange.
  replace (length pre + length x - length pre)%nat with (length x) by lia.
  now rewrite firstn_pre, skipn_pre, firstn_pre, skipn_pre_plus, skipn_pre.
Qed.

(** A range update inside [x] leaves the surroundings alone. *)
Lemma mapRange_inside (f : PChar -> PChar) (pre x post : Doc) (a b : nat) :
  (a <= length x)%nat -> (b <= length x)%nat ->
  mapRange f (length pre + a) (length pre + b) (pre ++ x ++ post)
  = pre ++ mapRange f a b x ++ post.
Proof.
  intros Ha Hb. unfold mapRange.
  replace (length pre + b - (length pre + a))%nat with (b - a)%nat by lia.
  rewrite firstn_pre_plus, skipn_pre_plus.
  replace (length pre + a + (b - a))%nat with (length pre + (a + (b - a)))%nat by lia.
  rewrite skipn_pre_plus.
  rewrite (firstn_app a x post), (skipn_app a x post),
          (skipn_app (a + (b - a)) x post).
  replace (a - length x)%nat with 0%nat by lia.
  replace (a + (b - a) - length x)%nat with 0%nat by lia.
  simpl. rewrite app_nil_r.
  rewrite (firstn_app (b - a)).
  replace (b - a - length (skipn a x))%nat with 0%nat
    by (rewrite length_skipn; lia).
  simpl. rewrite app_nil_r. now rewrite <- !app_assoc.
Qed.

Lemma mapRange_text (f : PChar -> PChar) (a b : nat) (d : Doc) :
  (forall c, fst (f c) = fst c) -> text (mapRange f a b d) = text d.
Proof.
  intros Hf. unfold mapRange, text. rewrite !map_app, map_map.
  rewrite (map_ext (fun c => fst (f c)) fst Hf).
  rewrite <- !map_app. f_equal.
  rewrite (Nat.add_comm a), <- skipn_skipn.
  now rewrite !firstn_skipn.
Qed.

Lemma removeMark_text (d : Doc) (a b : Z) (k : MarkName) :
  text (removeMark d a b k) = text d.
Proof. now apply mapRange_text. Qed.

Lemma addMark_text (d : Doc) (a b : Z) (k : MarkName) :
  text (addMark d a b k) = text d.
Proof. now apply mapRange_text. Qed.

(** A mark removal inside [x]: the surroundings and the text of [x] stay. *)
Lemma removeMark_inside (pre x post : Doc) (a b : nat) (k : MarkName) :
  (a <= length x)%nat -> (b <= length x)%nat ->
  exists x',
    removeMark (pre ++ x ++ post) (posAfter pre + Z.of_nat a)
      (posAfter pre + Z.of_nat b) k = pre ++ x' ++ post
    /\ text x' = text x.
Proof.
  intros Ha Hb. unfold removeMark.
  rewrite !off_posAfter_plus, mapRange_inside by assumption.
  eexists. split; [reflexivity|]. now apply mapRange_text.
Qed.

Lemma setMark_only (k : MarkName) (m : Marks) :
  setMark k true (setMark (other k) false m) = only k.
Proof. now destruct k, m. Qed.

Lemma clearBoth (m : Marks) :
  setMark italic false (setMark bold false m) = noMarks.
Proof. now destruct m. Qed.


End PMFacts.

(** ** The range resolver *)

Module ResolverProps.

Section Resolver.

Variable getMarkRange : Doc -> Z -> MarkName -> option Range.

Lemma findActiveMarkRange_nonempty (e : EditorState) (k : MarkName) :
  selEmpty e = false -> findActiveMarkRange getMarkRange e k = None.
Proof. intros H. unfold findActiveMarkRange. now rewrite H. Qed.

Lemma findActiveMarkRange_bounds (e : EditorState) (k : MarkName) (r : Range) :
  findActiveMarkRange getMarkRange e k = Some r ->
  selEmpty e = true /\ r_from r <= selFrom e <= r_to r.
Proof.
  unfold findActiveMarkRange.
  destruct (selEmpty e); simpl; [|discriminate].
  match goal with |- match ?x with _ => _ end = _ -> _ => destruct x as [r'|] end;
    [|discriminate].
  destruct (Z.ltb_spec (selFrom e) (r_from r')); simpl; [discriminate|].
  destruct (Z.gtb_spec (selFrom e) (r_to r')); [discriminate|].
  intros [= <-]. split; [reflexivity | lia].
Qed.

End Resolver.

(** C4.  [findActiveMarkRange] resolves nothing for a non-empty selection;
    a range it returns contains the caret, edges included, and was resolved
    either at the caret or, when nothing resolved there and the caret is past
    position 1, at the position one to the left; a range resolved that way
    and containing the caret is returned; and the result depends on the
    library's range lookup at the caret only, plus at the position one to the
    left exactly when the lookup at the caret resolved nothing and the caret
    is not at the document start. *)
Theorem findActiveMarkRange_contract
  (getMarkRange : Doc -> Z -> MarkName -> option Range)
  (e : EditorState) (k : MarkName) :
  let here := tryAt getMarkRange (doc e) k (selFrom e) in
  let left := tryAt getMarkRange (doc e) k (selFrom e - 1) in
  (selEmpty e = false -> findActiveMarkRange getMarkRange e k = None)
  /\ (forall r, findActiveMarkRange getMarkRange e k = Some r ->
        selEmpty e = true /\ r_from r <= selFrom e <= r_to r
        /\ (here = Some r \/ (here = None /\ selFrom e > 1 /\ left = Some r)))
  /\ (forall r, selEmpty e = true -> r_from r <= selFrom e <= r_to r ->
        here = Some r \/ (here = None /\ selFrom e > 1 /\ left = Some r) ->
        findActiveMarkRange getMarkRange e k = Some r)
  /\ (here = None -> selFrom e <= 1 ->
        findActiveMarkRange getMarkRange e k = None)
  /\ (forall g',
        g' (doc e) (selFrom e) k = getMarkRange (doc e) (selFrom e) k ->
        (here = None -> selFrom e > 1 ->
         g' (doc e) (selFrom e - 1) k = getMarkRange (doc e) (selFrom e - 1) k) ->
        findActiveMarkRange g' e k = findActiveMarkRange getMarkRange e k).
Proof.
  intros here left. repeat split.
  - apply findActiveMarkRange_nonempty.
  - now apply (findActiveMarkRange_bounds getMarkRange e k r).
  - now apply (findActiveMarkRange_bounds getMarkRange e k r).
  - now apply (findActiveMarkRange_bounds getMarkRange e k r).
  - revert H. unfold findActiveMarkRange. fold here. fold left.
    destruct (selEmpty e); simpl; [|discriminate].
    destruct here as [r'|] eqn:Hh.
    + destruct ((selFrom e <? r_from r') || (selFrom e >? r_to r'));
        [discriminate|]. intros [= <-]. now left.
    + destruct (Z.gtb_spec (selFrom e) 1) as [Hgt|Hle]; [|discriminate].
      destruct left as [r'|] eqn:Hl; [|discriminate].
      destruct ((selFrom e <? r_from r') || (selFrom e >? r_to r'));
        [discriminate|]. intros [= <-]. right. repeat split. lia.
  - intros r He [Hlo Hhi] Hres.
    unfold findActiveMarkRange. fold here. fold left. rewrite He. simpl.
    assert (Hin : (selFrom e <? r_from r) || (selFrom e >? r_to r) = false).
    { rewrite Z.gtb_ltb. apply orb_false_iff. split; apply Z.ltb_ge; lia. }
    destruct Hres as [-> | (-> & Hgt & ->)].
    + now rewrite Hin.
    + destruct (Z.gtb_spec (selFrom e) 1); [|lia]. now rewrite Hin.
  - intros Hh Hle. unfold findActiveMarkRange. fold here. rewrite Hh.
    destruct (negb (selEmpty e)); [reflexivity|].
    destruct (Z.gtb_spec (selFrom e) 1); [lia | reflexivity].
  - intros g' Hc Hl. unfold findActiveMarkRange.
    destruct (negb (selEmpty e)); [reflexivity|].
    assert (Hhere : tryAt g' (doc e) k (selFrom e) = here).
    { unfold here, tryAt. now rewrite Hc. }
    rewrite Hhere. fold here.
    destruct here as [r'|] eqn:Hh; [reflexivity|].
    destruct (Z.gtb_spec (selFrom e) 1) as [Hgt|]; [|reflexivity].
    assert (Hleft : tryAt g' (doc e) k (selFrom e - 1) = left).
    { unfold left, tryAt. rewrite Hl; [reflexivity | reflexivity | lia]. }
    now rewrite Hleft.
Qed.

End ResolverProps.

(** ** Expanding *)

Module ExpandProps.

(** The delimiter test returns exactly when both reads end within the
    content. *)
Lemma delimitersPresent_returns (d : Doc) (range : Range) (syntax : jsstring) :
  delimitersPresent d range syntax = None
  <-> (len syntax <= r_from range /\ contentSize d < r_from range)
      \/ contentSize d < r_to range + len syntax.
Proof.
  unfold delimitersPresent, readThrows.
  destruct (Z.geb_spec (r_from range) (len syntax)) as [Hge|Hlt]; cbn [andb].
  - destruct (Z.ltb_spec (contentSize d) (r_from range)) as [Hp|Hp].
    + split; [intros _; left; lia | reflexivity].
    + destruct (Z.ltb_spec (contentSize d) (r_to range + len syntax)) as [Hq|Hq].
      * split; [intros _; right; lia | reflexivity].
      * split; [discriminate | lia].
  - destruct (Z.ltb_spec (contentSize d) (r_to range + len syntax)) as [Hq|Hq].
    + split; [intros _; right; lia | reflexivity].
    + split; [discriminate | lia].
Qed.

(** C5.  When [expandInlineReveal] inserts the delimiters around the
    candidate range, which takes a range that ends at least [len] positions
    before the end of the content, it returns, and a caret that was exactly
    at [range.to] ends up past both markers, at [range.to + 2 * len]; a caret
    at any position before [range.to] ends up at its position clamped into
    the range plus the length of the left marker, which for a caret inside
    the range is its own position shifted by that length, a position of the
    inner text. *)
Theorem expand_caret_placement (e : EditorState) (g : Globals) (c : Candidate) :
  c_syntax c <> [] ->
  delimitersPresent (doc e) (c_range c) (c_syntax c) = Some false ->
  let l := len (c_syntax c) in
  exists e' g',
    expandInlineReveal e g c = Some (e', g')
    /\ r_to (c_range c) + l <= contentSize (doc e)
    /\ selEmpty e' = true
    /\ (selFrom e = r_to (c_range c) -> selFrom e' = r_to (c_range c) + 2 * l)
    /\ (selFrom e < r_to (c_range c) ->
          selFrom e' = clampPos (c_range c) (selFrom e) + l)
    /\ (r_from (c_range c) <= selFrom e < r_to (c_range c) ->
          selFrom e' = selFrom e + l
          /\ r_from (c_range c) + l <= selFrom e' < r_to (c_range c) + l).
Proof.
  intros Hs Hd l. unfold expandInlineReveal.
  assert (Hl : (len (c_syntax c) =? 0) = false).
  { apply Z.eqb_neq. unfold len. destruct (c_syntax c); [congruence|]. simpl. lia. }
  rewrite Hl, Hd. fold l. eexists. eexists. split; [reflexivity|].
  split.
  { destruct (Z.le_gt_cases (r_to (c_range c) + l) (contentSize (doc e)))
      as [H|H]; [exact H|].
    assert (Hn : delimitersPresent (doc e) (c_range c) (c_syntax c) = None)
      by (apply delimitersPresent_returns; right; unfold l in H; lia).
    congruence. }
  cbn [fst selFrom selTo selEmpty].
  split; [apply Z.eqb_refl|].
  split; [|split].
  - intros ->. now rewrite Z.eqb_refl.
  - intros Hlt.
    destruct (Z.eqb_spec (selFrom e) (r_to (c_range c))); [lia|].
    destruct (Z.gtb_spec (selFrom e) (r_to (c_range c))); [lia|]. reflexivity.
  - intros [Hlo Hhi].
    destruct (Z.eqb_spec (selFrom e) (r_to (c_range c))); [lia|].
    destruct (Z.gtb_spec (selFrom e) (r_to (c_range c))); [lia|].
    unfold clampPos. lia.
Qed.

End ExpandProps.

(** ** The composition flag *)

Module CompositionProps.

Ltac break_ifs :=
  repeat match goal with
         | |- context [if ?c then _ else _] => destruct c
         | |- context [match ?c with Some _ => _ | None => _ end] => destruct c
         | |- context [let '(_, _) := ?c in _] => destruct c
         end.

Lemma expand_composing (e : EditorState) (g : Globals) (c : Candidate) (b : bool) :
  expandInlineReveal e (setComposing b g) c
  = match expandInlineReveal e g c with
    | Some r => Some (fst r, setComposing b (snd r))
    | None => None
    end.
Proof.
  unfold expandInlineReveal. destruct g. cbn.
  destruct (len (c_syntax c) =? 0); [reflexivity|].
  destruct (delimitersPresent _ _ _) as [[|]|]; reflexivity.
Qed.

Lemma collapse_composing (e : EditorState) (g : Globals) (b : bool) :
  collapseInlineReveal e (setComposing b g)
  = (fst (collapseInlineReveal e g), setComposing b (snd (collapseInlineReveal e g))).
Proof.
  unfold collapseInlineReveal. destruct g as [[rv|] ? ? ? ? ? ?]; cbn; [|reflexivity].
  match goal with
  | |- (let '(_, _) := ?x in _) = _ => destruct x
  end.
  reflexivity.
Qed.

Lemma reconcile_composing (e : EditorState) (g : Globals) (b : bool) :
  reconcileActiveBoldRevealMarks e (setComposing b g)
  = (let '(r, e', g') := reconcileActiveBoldRevealMarks e g in
     (r, e', setComposing b g')).
Proof.
  unfold reconcileActiveBoldRevealMarks.
  destruct g as [[rv|] ? ? ? ? ? ?]; cbn; [|reflexivity].
  destruct (negb (MarkName_eqb (markName rv) bold)); [reflexivity|].
  destruct (deriveShape _) as [[[t l] r]|]; [|reflexivity].
  destruct (sameShape rv t l r); [reflexivity|].
  destruct (_ >? _); reflexivity.
Qed.

Lemma syncSelection_composing getMarkRange now e g tr b :
  syncSelection getMarkRange now e (setComposing b g) tr
  = (fst (syncSelection getMarkRange now e g tr),
     setComposing b (snd (syncSelection getMarkRange now e g tr))).
Proof.
  unfold syncSelection.
  change (_inlineRevealLastKeyEvent (setComposing b g))
    with (_inlineRevealLastKeyEvent g).
  change (_activeInlineReveal (setComposing b g)) with (_activeInlineReveal g).
  change (_inlineRevealJustExpanded (setComposing b g))
    with (_inlineRevealJustExpanded g).
  change (_inlineRevealSuppressNextSelectionExpand (setComposing b g))
    with (_inlineRevealSuppressNextSelectionExpand g).
  change (setJustExpanded false (setComposing b g))
    with (setComposing b (setJustExpanded false g)).
  change (setSuppress false (setComposing b g))
    with (setComposing b (setSuppress false g)).
  rewrite !collapse_composing.
  destruct (isNone tr && _); [reflexivity|].
  destruct (_activeInlineReveal g) as [rv|].
  - destruct (_inlineRevealJustExpanded g && _); [reflexivity|].
    destruct (negb (selEmpty e)); [reflexivity|].
    destruct (_ || _); reflexivity.
  - destruct (negb (selEmpty e)); [reflexivity|].
    destruct (isNone tr && _); [reflexivity|].
    match goal with
    | |- match ?c with Some _ => _ | None => _ end = _ => destruct c as [c'|]
    end; [|reflexivity].
    rewrite expand_composing.
    destruct (expandInlineReveal e (setSuppress false g) c'); reflexivity.
Qed.

(** C7 (amended).  The handlers [compositionstart] and [compositionend]
    only set and clear [_wysiwygComposing], and [syncInlineReveal] never
    reads that flag: on every notification it performs the same expand,
    collapse or reconcile transition, on the document and on the reveal
    state, whether a composition is in progress or not. *)
Theorem sync_ignores_composition
  (getMarkRange : Doc -> Z -> MarkName -> option Range)
  (now : Z) (e : EditorState) (g : Globals) (tr : option Transaction) (b : bool) :
  syncInlineReveal getMarkRange now e (setComposing b g) tr
  = (fst (syncInlineReveal getMarkRange now e g tr),
     setComposing b (snd (syncInlineReveal getMarkRange now e g tr)))
  /\ compositionstart g = setComposing true g
  /\ compositionend g = setComposing false g.
Proof.
  split; [|split; reflexivity].
  unfold syncInlineReveal.
  change (_syncingInlineReveal (setComposing b g)) with (_syncingInlineReveal g).
  change (isSourceMode (setComposing b g)) with (isSourceMode g).
  destruct (_syncingInlineReveal g).
  { destruct (trMeta tr); reflexivity. }
  destruct (isSourceMode g); [reflexivity|].
  destruct (trMeta tr); [reflexivity|].
  destruct (trDocChanged tr) eqn:Hdc.
  - change (setSuppress true (setComposing b g))
      with (setComposing b (setSuppress true g)).
    change (_activeInlineReveal (setComposing b (setSuppress true g)))
      with (_activeInlineReveal (setSuppress true g)).
    destruct (_activeInlineReveal (setSuppress true g)) as [rv|];
      [|apply syncSelection_composing].
    destruct tr as [t|]; [|apply syncSelection_composing].
    change (setActive (Some (remapReveal t rv)) (setComposing b (setSuppress true g)))
      with (setComposing b (setActive (Some (remapReveal t rv)) (setSuppress true g))).
    rewrite reconcile_composing.
    destruct (reconcileActiveBoldRevealMarks e _) as [[r e'] g'].
    destruct r; [reflexivity|].
    apply syncSelection_composing.
  - change (_activeInlineReveal (setComposing b g)) with (_activeInlineReveal g).
    destruct (_activeInlineReveal g); apply syncSelection_composing.
Qed.

End CompositionProps.

(** ** Collapsing *)

Module CollapseProps.

Import JSFacts PMFacts.

Lemma endsWith_snoc (s : jsstring) (a m : ascii) :
  endsWith (s ++ [a]) [m] = eqb [a] [m].
Proof.
  unfold endsWith. rewrite length_app. simpl length.
  replace (length s + 1 - 1)%nat with (length s) by lia.
  rewrite skipn_pre.
  replace (1 <=? length s + 1)%nat with true by (symmetry; apply Nat.leb_le; lia).
  reflexivity.
Qed.

Lemma absorbLeft_stops (fuel : nat) (pre rest : Doc) (m : ascii) :
  endsWith (text pre) [m] = false ->
  absorbLeftLoop fuel (pre ++ rest) (Some m) (posAfter pre) = posAfter pre.
Proof.
  intros He. destruct fuel; [reflexivity|]. simpl.
  destruct (Z.gtb_spec (posAfter pre) 1) as [Hgt|]; [|reflexivity].
  destruct (exists_last (l := pre)) as (pre0 & c & ->).
  { intros ->. unfold posAfter in Hgt. simpl in Hgt. lia. }
  rewrite text_app in He. simpl in He. rewrite endsWith_snoc in He.
  assert (Ht : textBetween ((pre0 ++ [c]) ++ rest) (posAfter (pre0 ++ [c]) - 1)
                 (posAfter (pre0 ++ [c])) = [fst c]).
  { replace (posAfter (pre0 ++ [c]) - 1) with (posAfter pre0)
      by (unfold posAfter; rewrite length_app; cbn [length]; lia).
    replace (posAfter (pre0 ++ [c])) with (posAfter pre0 + Z.of_nat (length [c]))
      by (unfold posAfter; rewrite length_app; cbn [length]; lia).
    rewrite <- app_assoc. now rewrite textBetween_mid. }
  rewrite Ht. unfold isMarker. now rewrite He.
Qed.

Lemma absorbRight_stops (fuel : nat) (pre post : Doc) (m : ascii) :
  startsWith (text post) [m] = false ->
  absorbRightLoop fuel (pre ++ post) (Some m) (posAfter pre) = posAfter pre.
Proof.
  intros Hs. destruct fuel; [reflexivity|]. simpl.
  destruct (posAfter pre <? contentSize (pre ++ post)); [|reflexivity].
  assert (Ht : textBetween (pre ++ post) (posAfter pre) (posAfter pre + 1)
               = text (firstn 1 post)).
  { unfold textBetween.
    replace (posAfter pre + 1) with (posAfter pre + Z.of_nat 1) by lia.
    rewrite off_posAfter_plus, off_posAfter, skipn_pre.
    now replace (length pre + 1 - length pre)%nat with 1%nat by lia. }
  rewrite Ht. destruct post as [|[a mk] post]; [reflexivity|].
  cbn [text map fst startsWith] in Hs. rewrite startsWith_nil, andb_true_r in Hs.
  cbn [firstn text map fst isMarker eqb].
  destruct (Ascii.eqb_spec a m) as [->|]; [|reflexivity].
  now rewrite Ascii.eqb_refl in Hs.
Qed.

Lemma parseSegment_wrapped (k : MarkName) (t : jsstring) :
  t <> [] ->
  parseSegment k (getRevealSyntax k ++ t ++ getRevealSyntax k) = Some (k, t).
Proof.
  intros Ht.
  destruct k; unfold parseSegment, boldPattern, italicPattern, getRevealSyntax.
  - now rewrite (matchWrapped_wrap (str "**") (str "**") t Ht).
  - now rewrite (matchWrapped_wrap (str "*") (str "*") t Ht).
Qed.

Lemma markerChar_syntax (k : MarkName) :
  markerCharOf (getRevealSyntax k) = Some "*"%char.
Proof. now destruct k. Qed.

Lemma len_pos (t : jsstring) : t <> [] -> (len t >? 0) = true.
Proof.
  intros H. apply Z.gtb_lt. unfold len. destruct t; [congruence|]. simpl. lia.
Qed.

(** Collapsing a span that reads [syntax ++ t ++ syntax] and has no marker
    character next to it: the span is replaced by [t] carrying the mark. *)
Lemma collapse_wrapped (e : EditorState) (g : Globals) (rv : RevealState)
  (k : MarkName) (pre x post : Doc) (t : jsstring) :
  _activeInlineReveal g = Some rv ->
  markName rv = k -> syntax rv = getRevealSyntax k ->
  doc e = pre ++ x ++ post ->
  start rv = posAfter pre -> end_ rv = posAfter (pre ++ x) ->
  text x = getRevealSyntax k ++ t ++ getRevealSyntax k ->
  t <> [] ->
  endsWith (text pre) (str "*") = false ->
  startsWith (text post) (str "*") = false ->
  doc (fst (collapseInlineReveal e g)) = pre ++ styled (only k) t ++ post
  /\ _activeInlineReveal (snd (collapseInlineReveal e g)) = None.
Proof.
  intros Hact Hk Hsyn Hdoc Hst Hen Htx Ht Hpre Hpost.
  unfold collapseInlineReveal, absorbedStart, absorbedEnd.
  rewrite Hact, Hsyn, Hdoc, Hst, Hen.
  rewrite markerChar_syntax.
  rewrite (absorbLeft_stops _ pre (x ++ post) "*"%char Hpre).
  rewrite (app_assoc pre x post).
  rewrite (absorbRight_stops _ (pre ++ x) post "*"%char Hpost).
  rewrite <- (app_assoc pre x post).
  assert (Hend : posAfter (pre ++ x) = posAfter pre + Z.of_nat (length x))
    by (unfold posAfter; rewrite length_app; lia).
  rewrite Hend, textBetween_mid, Htx, Hk, (parseSegment_wrapped k t Ht).
  rewrite delete_mid, (len_pos t Ht), insertText_at.
  set (m := marksAt (pre ++ post) (posAfter pre)).
  cbn [fst snd doc].
  split; [|reflexivity].
  unfold addMark, removeMark.
  replace (posAfter pre + len t)
    with (posAfter pre + Z.of_nat (length (styled m t)))
    by (rewrite length_styled; reflexivity).
  rewrite off_posAfter_plus, off_posAfter.
  rewrite mapRange_mid.
  replace (length (styled m t))
    with (length (map (fun c : PChar => (fst c, setMark (other k) false (snd c)))
                      (styled m t)))
    by now rewrite length_map.
  rewrite mapRange_mid. f_equal. f_equal.
  unfold styled. rewrite !map_map. apply map_ext. intros a. cbn [fst snd].
  now rewrite setMark_only.
Qed.

Lemma syntax_nonempty (k : MarkName) : (len (getRevealSyntax k) =? 0) = false.
Proof. now destruct k. Qed.

Lemma delimiters_absent (k : MarkName) (from : Z) (pre post : Doc) :
  startsWith (text post) (str "*") = false ->
  from <= posAfter pre ->
  len (getRevealSyntax k) <= Z.of_nat (length post) + 1 ->
  delimitersPresent (pre ++ post) (mkRange from (posAfter pre))
    (getRevealSyntax k) = Some false.
Proof.
  intros Hs Hfrom Hroom. unfold delimitersPresent, readThrows. cbn [r_from r_to].
  assert (Hsize : contentSize (pre ++ post)
                  = posAfter pre + Z.of_nat (length post) + 1).
  { unfold contentSize, posAfter. rewrite length_app. lia. }
  destruct (Z.ltb_spec (contentSize (pre ++ post)) from) as [|_]; [lia|].
  rewrite andb_false_r.
  destruct (Z.ltb_spec (contentSize (pre ++ post))
              (posAfter pre + len (getRevealSyntax k))) as [|_]; [lia|].
  assert (Ht : textBetween (pre ++ post) (posAfter pre)
                 (posAfter pre + len (getRevealSyntax k))
               = text (firstn (length (getRevealSyntax k)) post)).
  { unfold textBetween, len.
    rewrite off_posAfter_plus, off_posAfter, skipn_pre.
    now replace (length pre + length (getRevealSyntax k) - length pre)%nat
      with (length (getRevealSyntax k)) by lia. }
  rewrite Ht.
  assert (Hr : eqb (text (firstn (length (getRevealSyntax k)) post))
                 (getRevealSyntax k) = false).
  { destruct post as [|[a mk] post]; [now destruct k|].
    cbn [text map fst startsWith str list_ascii_of_string] in Hs.
    rewrite startsWith_nil, andb_true_r in Hs.
    assert (Ha : Ascii.eqb a "*" = false).
    { destruct (Ascii.eqb_spec a "*") as [->|]; [|reflexivity].
      now rewrite Ascii.eqb_refl in Hs. }
    destruct k; cbn; now rewrite Ha. }
  rewrite Hr. now rewrite andb_false_r.
Qed.

(** The document after an expansion that inserts the delimiters. *)
Lemma expand_shape (e : EditorState) (g : Globals) (k : MarkName)
  (pre inner post : Doc) :
  doc e = pre ++ inner ++ post ->
  delimitersPresent (doc e) (mkRange (posAfter pre) (posAfter (pre ++ inner)))
    (getRevealSyntax k) = Some false ->
  let c := mkCandidate k (mkRange (posAfter pre) (posAfter (pre ++ inner)))
             (getRevealSyntax k) in
  exists x r,
    expandInlineReveal e g c = Some r
    /\ doc (fst r) = pre ++ x ++ post
    /\ text x = getRevealSyntax k ++ text inner ++ getRevealSyntax k
    /\ snd r
       = setSyncing false (setJustExpanded true (setActive
           (Some (mkReveal k (getRevealSyntax k) (posAfter pre)
                    (posAfter (pre ++ x)) (Some k)
                    (Some (len (getRevealSyntax k)))
                    (Some (len (getRevealSyntax k))))) g)).
Proof.
  intros Hdoc Habs c. subst c. unfold expandInlineReveal.
  cbn [c_syntax c_markName c_range r_from r_to].
  rewrite syntax_nonempty, Habs.
  set (S := getRevealSyntax k).
  rewrite Hdoc.
  (* the closing marker *)
  rewrite (app_assoc pre inner post), insertText_at.
  set (m1 := marksAt ((pre ++ inner) ++ post) (posAfter (pre ++ inner))).
  rewrite <- (app_assoc pre inner).
  (* the opening marker *)
  rewrite insertText_at.
  set (m2 := marksAt _ (posAfter pre)).
  set (x0 := styled m2 S ++ inner ++ styled m1 S).
  assert (Hx0 : pre ++ styled m2 S ++ inner ++ styled m1 S ++ post
                = pre ++ x0 ++ post).
  { unfold x0. now rewrite <- !app_assoc. }
  rewrite Hx0.
  assert (Hl0 : length x0 = (length S + length inner + length S)%nat).
  { unfold x0. rewrite !length_app, !length_styled. lia. }
  assert (Ht0 : text x0 = S ++ text inner ++ S).
  { unfold x0. now rewrite !text_app, !text_styled. }
  assert (Hto : posAfter (pre ++ inner) = posAfter pre + Z.of_nat (length inner)).
  { unfold posAfter. rewrite length_app. lia. }
  (* the three mark removals stay inside the revealed span *)
  destruct (removeMark_inside pre x0 post 0 (length inner) (other k))
    as (x1 & E1 & T1); [lia | lia |].
  rewrite Z.add_0_r, <- Hto in E1. rewrite E1.
  assert (Hl1 : length x1 = length x0).
  { rewrite <- (length_text x1), T1. apply length_text. }
  destruct (removeMark_inside pre x1 post 0 (length S) k)
    as (x2 & E2 & T2); [lia | lia |].
  rewrite Z.add_0_r in E2. fold (len S) in E2. rewrite E2.
  assert (Hl2 : length x2 = length x0).
  { rewrite <- (length_text x2), T2, length_text. exact Hl1. }
  destruct (removeMark_inside pre x2 post (length inner + length S)
              (length inner + length S + length S) k)
    as (x3 & E3 & T3); [lia | lia |].
  replace (posAfter pre + Z.of_nat (length inner + length S))
    with (posAfter (pre ++ inner) + len S) in E3 by (unfold len; lia).
  replace (posAfter pre + Z.of_nat (length inner + length S + length S))
    with (posAfter (pre ++ inner) + 2 * len S) in E3 by (unfold len; lia).
  rewrite E3.
  exists x3. eexists. split; [reflexivity|]. cbn [fst snd doc].
  split; [reflexivity|]. split.
  - now rewrite T3, T2, T1.
  - assert (Hl3 : length x3 = length x0).
    { rewrite <- (length_text x3), T3, length_text. exact Hl2. }
    assert (Hend : posAfter (pre ++ inner) + 2 * len S = posAfter (pre ++ x3)).
    { unfold posAfter, len. rewrite !length_app, Hl3, Hl0. lia. }
    now rewrite Hend.
Qed.

Lemma selEmpty_caret (d : Doc) (caret : Z) :
  selEmpty (mkEditor d caret caret) = true.
Proof. apply Z.eqb_refl. Qed.

(** C1 (amended).  Take a run [t] of characters carrying exactly one mark
    [k], such that the characters next to the run are not the marker
    character [*] and the run ends at least [syntax.length] positions before
    the end of the content, and a state machine that is idle: no reveal
    active, not in its own dispatch, not in source mode, no expansion
    suppressed by a preceding edit, and no typing or deleting key pressed in
    the 220 ms before either notification.  When the resolver returns the run
    for the caret, the notification for that caret expands the run into
    [syntax ++ t ++ syntax], without exception; the next notification, for
    a caret strictly outside the revealed span, collapses it, and the
    document, text and marks, is the original one again, with no reveal left
    active. *)
Theorem expand_collapse_roundtrip
  (getMarkRange : Doc -> Z -> MarkName -> option Range)
  (now now' : Z) (g : Globals) (k : MarkName) (pre post : Doc) (t : jsstring)
  (caret caret' : Z) :
  let d := pre ++ styled (only k) t ++ post in
  let c := mkCandidate k
             (mkRange (posAfter pre) (posAfter (pre ++ styled (only k) t)))
             (getRevealSyntax k) in
  t <> [] ->
  endsWith (text pre) (str "*") = false ->
  startsWith (text post) (str "*") = false ->
  posAfter (pre ++ styled (only k) t) + len (getRevealSyntax k) <= contentSize d ->
  _activeInlineReveal g = None ->
  _syncingInlineReveal g = false ->
  isSourceMode g = false ->
  match _inlineRevealLastKeyEvent g with
  | Some key => isTypingOrDelete (Reveal.key key)
                && (recentKey now key || recentKey now' key)
  | None => false
  end = false ->
  _inlineRevealSuppressNextSelectionExpand g = false ->
  findRevealCandidate getMarkRange (mkEditor d caret caret) = Some c ->
  caret' < posAfter pre
  \/ caret' > posAfter (pre ++ styled (only k) t) + 2 * len (getRevealSyntax k) ->
  let expanded := syncInlineReveal getMarkRange now (mkEditor d caret caret) g None in
  let collapsed :=
    syncInlineReveal getMarkRange now'
      (mkEditor (doc (fst expanded)) caret' caret') (snd expanded) None in
  expandInlineReveal (mkEditor d caret caret) (setSuppress false g) c
  = Some expanded
  /\ text (doc (fst expanded))
     = text pre ++ getRevealSyntax k ++ t ++ getRevealSyntax k ++ text post
  /\ doc (fst collapsed) = d
  /\ _activeInlineReveal (snd collapsed) = None.
Proof.
  intros d c Ht Hpre Hpost Hroom Hact Hsync Hsrc Hkey Hsup Hcand Hout
         expanded collapsed.
  assert (Hkeys : match _inlineRevealLastKeyEvent g with
                  | Some key => recentKey now key && isTypingOrDelete (Reveal.key key)
                  | None => false
                  end = false
                  /\ match _inlineRevealLastKeyEvent g with
                     | Some key => recentKey now' key
                                   && isTypingOrDelete (Reveal.key key)
                     | None => false
                     end = false).
  { destruct (_inlineRevealLastKeyEvent g) as [key|]; [|now split].
    destruct (isTypingOrDelete (Reveal.key key)); cbn [andb] in Hkey.
    - apply orb_false_iff in Hkey as [-> ->]. now split.
    - now rewrite !andb_false_r. }
  destruct Hkeys as [Hkey1 Hkey2].
  assert (Hexp : expanded
                 = match expandInlineReveal (mkEditor d caret caret)
                           (setSuppress false g) c with
                   | Some r => r
                   | None => (mkEditor d caret caret, setSuppress false g)
                   end).
  { unfold expanded, syncInlineReveal. rewrite Hsync, Hsrc. cbn [trMeta trDocChanged].
    rewrite Hact. unfold syncSelection. rewrite Hkey1, Hact, Hsup, Hcand.
    cbn [isNone andb]. now rewrite selEmpty_caret. }
  assert (Habs : delimitersPresent (doc (mkEditor d caret caret))
                   (mkRange (posAfter pre) (posAfter (pre ++ styled (only k) t)))
                   (getRevealSyntax k) = Some false).
  { cbn [doc]. unfold d. rewrite app_assoc. apply delimiters_absent.
    - exact Hpost.
    - unfold posAfter. rewrite length_app. lia.
    - unfold d, contentSize, posAfter in Hroom. rewrite !length_app in Hroom.
      unfold PChar in *. lia. }
  destruct (expand_shape (mkEditor d caret caret) (setSuppress false g) k pre
              (styled (only k) t) post eq_refl Habs) as (x & r & Hr & Hx & Tx & Gx).
  fold c in Hr. rewrite Hr in Hexp. subst r.
  split; [exact Hr|].
  rewrite text_styled in Tx.
  assert (Hxl : posAfter (pre ++ x)
                = posAfter (pre ++ styled (only k) t) + 2 * len (getRevealSyntax k)).
  { unfold posAfter, len. rewrite !length_app, length_styled.
    rewrite <- (length_text x), Tx, !length_app. lia. }
  split.
  { rewrite Hx, !text_app, Tx. now rewrite <- !app_assoc. }
  set (rv := mkReveal k (getRevealSyntax k) (posAfter pre) (posAfter (pre ++ x))
               (Some k) (Some (len (getRevealSyntax k)))
               (Some (len (getRevealSyntax k)))) in Gx.
  set (g1 := setJustExpanded false (snd expanded)).
  assert (Hcol : collapsed
                 = collapseInlineReveal (mkEditor (pre ++ x ++ post) caret' caret') g1).
  { unfold collapsed, g1. rewrite Hx, Gx. unfold syncInlineReveal.
    cbn [_syncingInlineReveal isSourceMode setSyncing setJustExpanded setActive
         setSuppress trMeta trDocChanged _activeInlineReveal].
    rewrite Hsrc. unfold syncSelection.
    cbn [_inlineRevealLastKeyEvent _activeInlineReveal _inlineRevealJustExpanded
         setSyncing setJustExpanded setActive setSuppress isNone selFrom
         selTo start end_ rv].
    rewrite Hkey2, selEmpty_caret. cbn [andb negb].
    assert (Hin : (caret' >=? posAfter pre) && (caret' <=? posAfter (pre ++ x))
                  = false).
    { rewrite Hxl. apply andb_false_iff. destruct Hout.
      - left. rewrite Z.geb_leb. apply Z.leb_gt. lia.
      - right. apply Z.leb_gt. lia. }
    rewrite Hin.
    assert (Ho : (caret' <? posAfter pre) || (caret' >? posAfter (pre ++ x)) = true).
    { rewrite Hxl, Z.gtb_ltb. apply orb_true_iff. destruct Hout.
      - left. apply Z.ltb_lt. lia.
      - right. apply Z.ltb_lt. lia. }
    now rewrite Ho. }
  rewrite Hcol.
  apply (collapse_wrapped (mkEditor (pre ++ x ++ post) caret' caret') g1 rv k
           pre x post t); try assumption; try reflexivity.
  unfold g1. now rewrite Gx.
Qed.

Lemma startsWith_prefix (s p q : jsstring) :
  startsWith s (p ++ q) = true -> startsWith s p = true.
Proof.
  intros H. apply startsWith_split in H as [r ->].
  rewrite <- app_assoc. apply startsWith_app.
Qed.

Lemma endsWith_suffix (s p q : jsstring) :
  endsWith s (p ++ q) = true -> endsWith s q = true.
Proof.
  intros H. apply endsWith_split in H as [r ->].
  rewrite app_assoc. apply endsWith_app.
Qed.

Lemma matchWrapped_single (c : ascii) (s : jsstring) :
  startsWith s [c] = true -> endsWith s [c] = true -> (len s >=? 3) = true ->
  matchWrapped [c] [c] s <> None.
Proof.
  intros Hs He Hl. unfold matchWrapped. rewrite Hs, He. cbn [andb].
  rewrite Z.geb_leb in Hl. change (len [c] + len [c] + 1) with 3.
  now rewrite Hl.
Qed.

(** The mixed 2/1 branches of [collapseInlineReveal] are never taken: every
    segment they accept is accepted by the italic patterns tried before. *)
Lemma mixedPattern_shadowed (segment : jsstring) :
  italicPattern segment = None -> mixedPattern segment = None.
Proof.
  unfold italicPattern, mixedPattern, orElse. intros Hi.
  destruct (matchWrapped (str "*") (str "*") segment) eqn:Hstar; [discriminate|].
  assert (Hs : forall c, matchWrapped [c] [c] segment = None ->
             startsWith segment [c] && endsWith segment [c] && (len segment >=? 3)
             = false).
  { intros c Hn.
    destruct (startsWith segment [c]) eqn:A; [|reflexivity].
    destruct (endsWith segment [c]) eqn:B; [|reflexivity].
    destruct (len segment >=? 3) eqn:C; [|reflexivity].
    now destruct (matchWrapped_single c segment A B C). }
  pose proof (Hs "*"%char Hstar) as Hstar'. pose proof (Hs "_"%char Hi) as Hund'.
  assert (H1 : startsWith segment (str "**") && endsWith segment (str "*")
               && (len segment >=? 3) = false).
  { destruct (startsWith segment (str "**")) eqn:A; [|reflexivity].
    apply (startsWith_prefix segment (str "*") (str "*")) in A.
    change (str "*") with ["*"%char] in *. now rewrite A in Hstar'. }
  assert (H2 : startsWith segment (str "*") && endsWith segment (str "**")
               && (len segment >=? 3) = false).
  { destruct (endsWith segment (str "**")) eqn:B;
      [|now rewrite andb_false_r].
    apply (endsWith_suffix segment (str "*") (str "*")) in B.
    change (str "*") with ["*"%char] in *. now rewrite B in Hstar'. }
  assert (H3 : startsWith segment (str "__") && endsWith segment (str "_")
               && (len segment >=? 3) = false).
  { destruct (startsWith segment (str "__")) eqn:A; [|reflexivity].
    apply (startsWith_prefix segment (str "_") (str "_")) in A.
    change (str "_") with ["_"%char] in *. now rewrite A in Hund'. }
  assert (H4 : startsWith segment (str "_") && endsWith segment (str "__")
               && (len segment >=? 3) = false).
  { destruct (endsWith segment (str "__")) eqn:B;
      [|now rewrite andb_false_r].
    apply (endsWith_suffix segment (str "_") (str "_")) in B.
    change (str "_") with ["_"%char] in *. now rewrite B in Hund'. }
  now rewrite H1, H2, H3, H4.
Qed.

(** C2 (the code at the failing input).  A revealed span reading [**mi*]
    collapses, for a recorded kind bold as for italic, to an italic run over
    [*mi]: one marker character is left in the text.  The mixed 2/1 branch
    that would yield [mi] can never run, as every segment it accepts has
    been accepted by the italic pattern before it.  The same happens in a
    session: after the bold [**mi**] loses its last asterisk to Backspace,
    the recorded shape is italic with one marker on each side, and leaving
    the span yields the italic [*mi]. *)
Theorem collapse_mixed_delimiters :
  (forall segment, italicPattern segment = None -> mixedPattern segment = None)
  /\ parseSegment bold (str "**mi*") = Some (italic, str "*mi")
  /\ parseSegment italic (str "**mi*") = Some (italic, str "*mi")
  /\ doc (fst (collapseInlineReveal (mkEditor Samples.mixedDoc 8 8)
                 (Samples.idle Samples.mixedBold)))
     = styled (only italic) (str "*mi") ++ plain (str " x")
  /\ doc (fst (collapseInlineReveal (mkEditor Samples.mixedDoc 8 8)
                 (Samples.idle Samples.mixedItalic)))
     = styled (only italic) (str "*mi") ++ plain (str " x")
  /\ text (doc (fst Samples.miShrunk)) = str "**mi* x"
  /\ _activeInlineReveal (snd Samples.miShrunk)
     = Some (mkReveal bold (str "**") 1 6 (Some italic) (Some 1) (Some 1))
  /\ doc (fst Samples.miLeft)
     = styled (only italic) (str "*mi") ++ plain (str " x").
Proof.
  split; [exact mixedPattern_shadowed|]. repeat split; vm_compute; reflexivity.
Qed.



End CollapseProps.

(** ** Reconciling *)

Module ReconcileProps.

Import JSFacts PMFacts.

Lemma plain_text_clear (x : Doc) :
  map (fun c : PChar => (fst c, setMark italic false (snd c)))
    (map (fun c : PChar => (fst c, setMark bold false (snd c))) x)
  = plain (text x).
Proof.
  unfold plain, text. rewrite !map_map. apply map_ext. intros [a m].
  cbn [fst snd]. now rewrite clearBoth.
Qed.

Lemma plain_app (a b : jsstring) : plain (a ++ b) = plain a ++ plain b.
Proof. apply map_app. Qed.

Lemma length_plain (s : jsstring) : length (plain s) = length s.
Proof. apply length_map. Qed.

Lemma addMark_plain (k : MarkName) (s : jsstring) :
  map (fun c : PChar => (fst c, setMark k true (snd c))) (plain s)
  = styled (only k) s.
Proof.
  unfold plain, styled. rewrite map_map. apply map_ext. intros a.
  now destruct k.
Qed.

(** Both marks are removed from the whole span, then the inner region is
    marked again. *)
Lemma reannotate_span (pre l inner r post : Doc) (target : MarkName) :
  let d := pre ++ l ++ inner ++ r ++ post in
  let s := posAfter pre in
  let e := posAfter (pre ++ l ++ inner ++ r) in
  let cleared := removeMark (removeMark d s e bold) s e italic in
  cleared = pre ++ plain (text l) ++ plain (text inner) ++ plain (text r) ++ post
  /\ addMark cleared (s + Z.of_nat (length l)) (e - Z.of_nat (length r)) target
     = pre ++ plain (text l) ++ styled (only target) (text inner)
       ++ plain (text r) ++ post.
Proof.
  intros d s e cleared.
  assert (Hc : cleared
               = pre ++ plain (text l) ++ plain (text inner) ++ plain (text r) ++ post).
  { unfold cleared, d, s, e, removeMark.
    set (x := l ++ inner ++ r).
    assert (He : off (posAfter (pre ++ x)) = (length pre + length x)%nat).
    { unfold off, posAfter. rewrite length_app. lia. }
    rewrite He, off_posAfter.
    replace (pre ++ l ++ inner ++ r ++ post) with (pre ++ x ++ post)
      by (unfold x; now rewrite <- !app_assoc).
    rewrite mapRange_mid.
    set (f := fun c : PChar => (fst c, setMark bold false (snd c))).
    replace (length x) with (length (map f x)) by apply length_map.
    rewrite mapRange_mid, plain_text_clear.
    unfold x. rewrite !text_app, !plain_app. now rewrite <- !app_assoc. }
  split; [exact Hc|].
  rewrite Hc. unfold addMark, s, e.
  assert (Ha : off (posAfter pre + Z.of_nat (length l))
               = length (pre ++ plain (text l))).
  { rewrite off_posAfter_plus, length_app, length_plain, length_text. lia. }
  assert (Hb : off (posAfter (pre ++ l ++ inner ++ r) - Z.of_nat (length r))
               = (length (pre ++ plain (text l))
                  + length (plain (text inner)))%nat).
  { unfold off, posAfter.
    rewrite !length_app, !length_plain, !length_text. lia. }
  rewrite Ha, Hb.
  replace (pre ++ plain (text l) ++ plain (text inner) ++ plain (text r) ++ post)
    with ((pre ++ plain (text l)) ++ plain (text inner) ++ plain (text r) ++ post)
    by now rewrite <- app_assoc.
  rewrite mapRange_mid, addMark_plain. now rewrite <- app_assoc.
Qed.

Lemma sameShape_remap (t : Transaction) (rv : RevealState) target l r :
  sameShape (remapReveal t rv) target l r = sameShape rv target l r.
Proof. reflexivity. Qed.

(** C6 (amended).  For an active reveal whose kind is bold: when an edit
    that changed the document is notified, the span is remapped through the
    edit and the shape is derived from the text it covers; if that shape
    differs from the recorded one, both marks are removed from the whole
    span, the inner region between the derived delimiters gets the derived
    mark (nothing is marked when that region is empty), the selection stays,
    and the recorded shape becomes the derived one. *)
Theorem sync_reconciles_bold
  (getMarkRange : Doc -> Z -> MarkName -> option Range) (now : Z)
  (e : EditorState) (g : Globals) (t : Transaction) (rv : RevealState)
  (target : MarkName) (pre l inner r post : Doc) :
  _syncingInlineReveal g = false ->
  isSourceMode g = false ->
  t_syncMeta t = false ->
  t_docChanged t = true ->
  _activeInlineReveal g = Some rv ->
  markName rv = bold ->
  doc e = pre ++ l ++ inner ++ r ++ post ->
  start (remapReveal t rv) = posAfter pre ->
  end_ (remapReveal t rv) = posAfter (pre ++ l ++ inner ++ r) ->
  deriveShape (text (l ++ inner ++ r))
  = Some (target, Z.of_nat (length l), Z.of_nat (length r)) ->
  sameShape rv target (Z.of_nat (length l)) (Z.of_nat (length r)) = false ->
  syncInlineReveal getMarkRange now e g (Some t)
  = (mkEditor
       (pre ++ plain (text l) ++ styled (only target) (text inner)
        ++ plain (text r) ++ post)
       (selFrom e) (selTo e),
     setSyncing false
       (setActive
          (Some (mkReveal bold (syntax rv) (posAfter pre)
                   (posAfter (pre ++ l ++ inner ++ r)) (Some target)
                   (Some (Z.of_nat (length l))) (Some (Z.of_nat (length r)))))
          (setSuppress true g))).
Proof.
  intros Hsync Hsrc Hmeta Hdc Hact Hk Hdoc Hs He Hshape Hdiff.
  unfold syncInlineReveal. rewrite Hsync, Hsrc. cbn [trMeta trDocChanged].
  rewrite Hmeta, Hdc.
  change (_activeInlineReveal (setSuppress true g)) with (_activeInlineReveal g).
  rewrite Hact.
  set (rv' := remapReveal t rv) in *.
  unfold reconcileActiveBoldRevealMarks.
  cbn [_activeInlineReveal setActive].
  assert (Hk' : markName rv' = bold) by exact Hk.
  rewrite Hk'. cbn [MarkName_eqb negb].
  assert (Hseg : textBetween (doc e) (start rv') (end_ rv') = text (l ++ inner ++ r)).
  { rewrite Hdoc, Hs, He.
    replace (posAfter (pre ++ l ++ inner ++ r))
      with (posAfter pre + Z.of_nat (length (l ++ inner ++ r)))
      by (unfold posAfter; rewrite !length_app; lia).
    replace (pre ++ l ++ inner ++ r ++ post)
      with (pre ++ (l ++ inner ++ r) ++ post) by now rewrite <- !app_assoc.
    apply textBetween_mid. }
  rewrite Hseg, Hshape.
  change (sameShape rv' target (Z.of_nat (length l)) (Z.of_nat (length r)))
    with (sameShape rv target (Z.of_nat (length l)) (Z.of_nat (length r))).
  rewrite Hdiff, Hs, He, Hdoc.
  assert (Hord : (posAfter pre + Z.of_nat (length l)
                  >? posAfter (pre ++ l ++ inner ++ r) - Z.of_nat (length r))
                 = false).
  { rewrite Z.gtb_ltb. apply Z.ltb_ge.
    unfold posAfter. rewrite !length_app. lia. }
  rewrite Hord.
  destruct (reannotate_span pre l inner r post target) as [Hc Ha].
  cbv zeta in Hc, Ha.
  assert (Hd : (if posAfter pre + Z.of_nat (length l)
                   <? posAfter (pre ++ l ++ inner ++ r) - Z.of_nat (length r)
                then addMark
                       (removeMark
                          (removeMark (pre ++ l ++ inner ++ r ++ post)
                             (posAfter pre) (posAfter (pre ++ l ++ inner ++ r)) bold)
                          (posAfter pre) (posAfter (pre ++ l ++ inner ++ r)) italic)
                       (posAfter pre + Z.of_nat (length l))
                       (posAfter (pre ++ l ++ inner ++ r) - Z.of_nat (length r))
                       target
                else removeMark
                       (removeMark (pre ++ l ++ inner ++ r ++ post)
                          (posAfter pre) (posAfter (pre ++ l ++ inner ++ r)) bold)
                       (posAfter pre) (posAfter (pre ++ l ++ inner ++ r)) italic)
               = pre ++ plain (text l) ++ styled (only target) (text inner)
                 ++ plain (text r) ++ post).
  { destruct (Z.ltb_spec (posAfter pre + Z.of_nat (length l))
                (posAfter (pre ++ l ++ inner ++ r) - Z.of_nat (length r)))
      as [Hlt|Hge]; [exact Ha|].
    assert (inner = []).
    { unfold posAfter in Hge. rewrite !length_app in Hge.
      assert (Hz : length inner = 0%nat) by lia.
      destruct inner; [reflexivity | discriminate]. }
    subst inner. exact Hc. }
  rewrite Hd. reflexivity.
Qed.

End ReconcileProps.

(** ** The claims on concrete states *)

Module Checks.

Import Samples.

(** C1, counterexample.  A bold run standing between literal [**]: the
    caret enters the run and leaves the span again, and the four asterisks
    are gone from the text. *)
Lemma roundtrip_loses_literal_delimiters :
  findRevealCandidate getMarkRangePM (mkEditor literalDoc 4 4)
  = Some (mkCandidate bold (mkRange 3 5) (str "**"))
  /\ doc (fst literalExpanded) = literalDoc
  /\ _activeInlineReveal (snd literalExpanded)
     = Some (mkReveal bold (str "**") 1 7 None None None)
  /\ text literalDoc = str "**ab** z"
  /\ text (doc (fst literalCollapsed)) = str "ab z"
  /\ doc (fst literalCollapsed) <> literalDoc.
Proof. repeat split; try (vm_compute; reflexivity). vm_compute. discriminate. Qed.

Lemma expand_collapse_roundtrip_witness :
  text (doc (fst (syncInlineReveal getMarkRangePM 0 (mkEditor boldDoc 4 4) g0 None)))
  = str "x **ab** y"
  /\ doc (fst (syncInlineReveal getMarkRangePM 0
                 (mkEditor
                    (doc (fst (syncInlineReveal getMarkRangePM 0
                                 (mkEditor boldDoc 4 4) g0 None))) 11 11)
                 (snd (syncInlineReveal getMarkRangePM 0
                         (mkEditor boldDoc 4 4) g0 None)) None))
     = boldDoc
  /\ _activeInlineReveal
       (snd (syncInlineReveal getMarkRangePM 0
               (mkEditor
                  (doc (fst (syncInlineReveal getMarkRangePM 0
                               (mkEditor boldDoc 4 4) g0 None))) 11 11)
               (snd (syncInlineReveal getMarkRangePM 0
                       (mkEditor boldDoc 4 4) g0 None)) None))
     = None.
Proof.
  apply (proj2 (CollapseProps.expand_collapse_roundtrip getMarkRangePM 0 0 g0 bold
                  (plain (str "x ")) (plain (str " y")) (str "ab") 4 11
                  ltac:(discriminate) eq_refl eq_refl ltac:(vm_compute; discriminate)
                  eq_refl eq_refl eq_refl eq_refl eq_refl eq_refl
                  (or_intror eq_refl))).
Defined.



Lemma expand_caret_placement_witness :
  exists e' g',
    expandInlineReveal (mkEditor boldDoc 5 5) g0
      (mkCandidate bold (mkRange 3 5) (str "**")) = Some (e', g')
    /\ 5 + 2 <= contentSize boldDoc
    /\ selEmpty e' = true
    /\ (5 = 5 -> selFrom e' = 5 + 2 * 2)
    /\ (5 < 5 -> selFrom e' = clampPos (mkRange 3 5) 5 + 2)
    /\ (3 <= 5 < 5 -> selFrom e' = 5 + 2 /\ 3 + 2 <= selFrom e' < 5 + 2).
Proof.
  apply (ExpandProps.expand_caret_placement (mkEditor boldDoc 5 5) g0
           (mkCandidate bold (mkRange 3 5) (str "**"))).
  - discriminate.
  - reflexivity.
Defined.

(** C6, counterexample.  An italic reveal whose span reads [**ab**]: the
    derived shape, bold with two markers on each side, differs from the
    recorded one, and the notification of the edit changes no mark. *)
Lemma italic_reveal_not_reconciled :
  deriveShape (textBetween italicDoc (start (remapReveal typedStar italicReveal))
                 (end_ (remapReveal typedStar italicReveal)))
  = Some (bold, 2, 2)
  /\ sameShape (remapReveal typedStar italicReveal) bold 2 2 = false
  /\ start (remapReveal typedStar italicReveal) <= 6
     <= end_ (remapReveal typedStar italicReveal)
  /\ syncInlineReveal getMarkRangePM 0 (mkEditor italicDoc 6 6)
       (idle italicReveal) (Some typedStar)
     = (mkEditor italicDoc 6 6,
        setSuppress true (idle (remapReveal typedStar italicReveal)))
  /\ italicDoc <> plain (str "**") ++ styled (only bold) (str "ab")
                  ++ plain (str "**").
Proof.
  repeat split; try (vm_compute; reflexivity); try (vm_compute; discriminate).
Qed.

Lemma sync_reconciles_bold_witness :
  syncInlineReveal getMarkRangePM 0 (mkEditor shrunkDoc 6 6) (idle shrunkReveal)
    (Some deletedStar)
  = (mkEditor (plain (str "*") ++ styled (only italic) (str "*ab") ++ plain (str "*"))
       6 6,
     setSyncing false
       (setActive
          (Some (mkReveal bold (str "**") 1 6 (Some italic) (Some 1) (Some 1)))
          (setSuppress true (idle shrunkReveal)))).
Proof.
  apply (ReconcileProps.sync_reconciles_bold getMarkRangePM 0
           (mkEditor shrunkDoc 6 6) (idle shrunkReveal) deletedStar shrunkReveal
           italic [] (plain (str "*"))
           (plain (str "*") ++ styled (only bold) (str "ab")) (plain (str "*")) []);
    reflexivity.
Defined.

(** C7, counterexample.  A composition is in progress, the caret is
    notified inside the bold run, and the state machine expands it. *)
Lemma composition_does_not_suspend :
  _wysiwygComposing composing = true
  /\ _activeInlineReveal composing = None
  /\ text (doc (fst composingSync)) = str "x **ab** y"
  /\ _activeInlineReveal (snd composingSync)
     = Some (mkReveal bold (str "**") 3 9 (Some bold) (Some 2) (Some 2))
  /\ _wysiwygComposing (snd composingSync) = true.
Proof. repeat split; vm_compute; reflexivity. Qed.

End Checks.

(** ** Occurrences and the scanning loops *)

Module ScanProps.

Import JSFacts PMFacts.

Lemma indexOf_suffix (pre t q : jsstring) :
  indexOf (pre ++ t) q (len pre) = indexOfAux q t (len pre).
Proof.
  unfold indexOf. rewrite len_app.
  pose proof (len_nonneg pre). pose proof (len_nonneg t).
  rewrite Z.min_l, Z.max_r by lia.
  replace (Z.to_nat (len pre)) with (length pre) by (unfold len; lia).
  now rewrite skipn_pre.
Qed.

Lemma startsWith_nonempty (t q : jsstring) :
  q <> [] -> startsWith t q = true -> t <> [].
Proof. intros Hq H ->. destruct q; [congruence | discriminate]. Qed.

Lemma snoc_suffix (pre : jsstring) (c : ascii) (t : jsstring) :
  pre ++ c :: t = (pre ++ [c]) ++ t /\ len (pre ++ [c]) = len pre + 1.
Proof.
  split; [now rewrite <- app_assoc|]. rewrite len_app. reflexivity.
Qed.

(** The pushing loop gathers every occurrence, and has fuel to spare. *)
Lemma collect_occurrences (q : jsstring) :
  q <> [] ->
  forall t pre fuel, (length t < fuel)%nat ->
    Search.collect fuel (pre ++ t) q (indexOfAux q t (len pre))
    = occurrences q t (len pre).
Proof.
  intros Hq. induction t as [|c t IH]; intros pre fuel Hf.
  - destruct fuel; [lia|]. simpl.
    destruct q; [congruence|]. reflexivity.
  - destruct fuel as [|fuel]; [simpl in Hf; lia|].
    destruct (snoc_suffix pre c t) as [Ea El].
    cbn [indexOfAux occurrences].
    destruct (startsWith (c :: t) q) eqn:Hs.
    + cbn [Search.collect].
      pose proof (len_nonneg pre).
      destruct (Z.eqb_spec (len pre) (-1)); [lia|].
      f_equal. rewrite Ea, <- El, indexOf_suffix.
      apply IH. simpl in Hf. lia.
    + rewrite Ea, <- El.
      assert (Hfuel : (length t < S fuel)%nat) by (simpl in Hf; lia).
      apply (IH (pre ++ [c]) (S fuel) Hfuel).
Qed.

Lemma allIndexes_occurrences (t q : jsstring) :
  q <> [] -> Search.allIndexes t q = occurrences q t 0.
Proof.
  intros Hq. unfold Search.allIndexes.
  change (indexOf t q 0) with (indexOf ([] ++ t) q (len [])).
  rewrite indexOf_suffix.
  apply (collect_occurrences q Hq t [] (S (length t))). lia.
Qed.

Lemma In_occurrences (q t : jsstring) (i j : Z) :
  In j (occurrences q t i)
  <-> i <= j <= i + len t /\ startsWith (skipn (Z.to_nat (j - i)) t) q = true.
Proof.
  revert i. induction t as [|c t IH]; intros i.
  - cbn [occurrences]. unfold len. cbn [length Z.of_nat].
    destruct (startsWith [] q) eqn:Hs.
    + split.
      * intros [<- | []]. split; [lia|]. now rewrite Z.sub_diag.
      * intros [Hr _]. left. lia.
    + split; [intros []|]. intros [Hr H].
      rewrite skipn_nil in H. congruence.
  - cbn [occurrences].
    assert (Hrest : In j (occurrences q t (i + 1))
                    <-> i < j <= i + len (c :: t)
                        /\ startsWith (skipn (Z.to_nat (j - i)) (c :: t)) q = true).
    { rewrite IH. unfold len. cbn [length]. split.
      - intros [Hr H]. split; [lia|].
        replace (Z.to_nat (j - i)) with (S (Z.to_nat (j - (i + 1)))) by lia.
        exact H.
      - intros [Hr H]. split; [lia|].
        replace (Z.to_nat (j - i)) with (S (Z.to_nat (j - (i + 1)))) in H by lia.
        exact H. }
    destruct (startsWith (c :: t) q) eqn:Hs.
    + cbn [In]. rewrite Hrest. split.
      * intros [<- | [Hr H]].
        -- split; [unfold len; lia|]. now rewrite Z.sub_diag.
        -- split; [lia | exact H].
      * intros [Hr H]. destruct (Z.eq_dec i j) as [->|Hne]; [now left|].
        right. split; [lia | exact H].
    + rewrite Hrest. split.
      * intros [Hr H]. split; [lia | exact H].
      * intros [Hr H]. split; [|exact H].
        destruct (Z.eq_dec i j) as [->|Hne]; [|lia].
        rewrite Z.sub_diag in H. cbn [Z.to_nat skipn] in H. congruence.
Qed.

Lemma In_occurrences_occursAt (s q : jsstring) (j : Z) :
  In j (occurrences q s 0) <-> occursAt s q j = true.
Proof.
  rewrite In_occurrences. unfold occursAt. rewrite Z.sub_0_r.
  rewrite !andb_true_iff, Z.leb_le, Z.leb_le. tauto.
Qed.

End ScanProps.

(** ** The caret mapping *)

Module MapperProps.

Import JSFacts PMFacts ScanProps Mapper.

Lemma scanBest_fold (q : jsstring) (approx : Z) :
  q <> [] ->
  forall t pre fuel bi bd, (length t < fuel)%nat ->
    scanBest fuel (pre ++ t) q approx (indexOfAux q t (len pre)) bi bd
    = fst (fold_left (pick (len q) approx) (occurrences q t (len pre)) (bi, bd)).
Proof.
  intros Hq. induction t as [|c t IH]; intros pre fuel bi bd Hf.
  - destruct fuel; [lia|]. simpl.
    destruct q; [congruence|]. reflexivity.
  - destruct fuel as [|fuel]; [simpl in Hf; lia|].
    destruct (snoc_suffix pre c t) as [Ea El].
    cbn [indexOfAux occurrences].
    destruct (startsWith (c :: t) q) eqn:Hs.
    + cbn [scanBest fold_left].
      pose proof (len_nonneg pre).
      destruct (Z.eqb_spec (len pre) (-1)); [lia|].
      rewrite Ea, <- El, indexOf_suffix.
      assert (Hfuel : (length t < fuel)%nat) by (simpl in Hf; lia).
      unfold pick at 2. cbn [snd].
      destruct (closer (Z.abs (len pre + len q - approx)) bd);
        apply IH; exact Hfuel.
    + rewrite Ea, <- El.
      assert (Hfuel : (length t < S fuel)%nat) by (simpl in Hf; lia).
      apply (IH (pre ++ [c]) (S fuel) bi bd Hfuel).
Qed.

Lemma bestIndex_fold (target search : jsstring) (approx : Z) :
  search <> [] ->
  bestIndex target search approx
  = fst (fold_left (pick (len search) approx) (occurrences search target 0)
           (-1, None)).
Proof.
  intros Hq. unfold bestIndex.
  change (indexOf target search 0) with (indexOf ([] ++ target) search (len [])).
  rewrite indexOf_suffix.
  apply (scanBest_fold search approx Hq target [] (S (length target))). lia.
Qed.

(** The running best is one of the candidates seen and none of them is
    closer. *)
Lemma fold_pick_closest (L approx : Z) (occs seen : list Z) (bi : Z)
  (bd : option Z) :
  match bd with
  | None => seen = [] /\ bi = -1
  | Some dd => dd = Z.abs (bi + L - approx) /\ In bi seen
               /\ forall j, In j seen ->
                    Z.abs (bi + L - approx) <= Z.abs (j + L - approx)
  end ->
  let r := fold_left (pick L approx) occs (bi, bd) in
  match snd r with
  | None => seen ++ occs = [] /\ fst r = -1
  | Some dd => dd = Z.abs (fst r + L - approx) /\ In (fst r) (seen ++ occs)
               /\ forall j, In j (seen ++ occs) ->
                    Z.abs (fst r + L - approx) <= Z.abs (j + L - approx)
  end.
Proof.
  revert seen bi bd. induction occs as [|o occs IH]; intros seen bi bd Hinv.
  - cbn [fold_left fst snd]. now rewrite app_nil_r.
  - cbv zeta. cbn [fold_left].
    replace (seen ++ o :: occs) with ((seen ++ [o]) ++ occs)
      by now rewrite <- app_assoc.
    destruct (pick L approx (bi, bd) o) as [bi' bd'] eqn:Hp.
    apply (IH (seen ++ [o]) bi' bd').
    unfold pick in Hp. cbn [snd] in Hp.
    destruct bd as [dd|].
    + destruct Hinv as (-> & Hin & Hmin). cbn [closer] in Hp.
      destruct (Z.ltb_spec (Z.abs (o + L - approx)) (Z.abs (bi + L - approx)));
        injection Hp as <- <-.
      * split; [reflexivity|]. split.
        -- apply in_or_app. right. now left.
        -- intros j Hj. apply in_app_or in Hj as [Hj | [<- | []]]; [|lia].
           specialize (Hmin j Hj). lia.
      * split; [reflexivity|]. split.
        -- apply in_or_app. now left.
        -- intros j Hj. apply in_app_or in Hj as [Hj | [<- | []]]; [|lia].
           now apply Hmin.
    + destruct Hinv as (-> & ->). cbn [closer] in Hp. injection Hp as <- <-.
      split; [reflexivity|]. split; [now left|].
      intros j [<- | []]. lia.
Qed.

(** What the inner loop returns for a non-empty key. *)
Lemma bestIndex_spec (target search : jsstring) (approx : Z) :
  search <> [] ->
  let b := bestIndex target search approx in
  (b = -1 /\ forall j, occursAt target search j = false)
  \/ (b <> -1 /\ occursAt target search b = true
      /\ forall j, occursAt target search j = true ->
           Z.abs (b + len search - approx)
           <= Z.abs (j + len search - approx)).
Proof.
  intros Hq b. unfold b. rewrite (bestIndex_fold target search approx Hq).
  pose proof (fold_pick_closest (len search) approx
                (occurrences search target 0) [] (-1) None
                (conj eq_refl eq_refl)) as H.
  cbv zeta in H. cbn [app] in H.
  destruct (snd (fold_left _ _ _)) as [dd|].
  - destruct H as (_ & Hin & Hmin). right.
    apply In_occurrences_occursAt in Hin as Hocc.
    split; [|split].
    + unfold occursAt in Hocc. apply andb_true_iff in Hocc as [Hocc _].
      apply andb_true_iff in Hocc as [Hocc _]. apply Z.leb_le in Hocc. lia.
    + exact Hocc.
    + intros j Hj. apply Hmin. now apply In_occurrences_occursAt.
  - destruct H as (Hnil & ->). left. split; [reflexivity|].
    intros j. destruct (occursAt target search j) eqn:Hj; [|reflexivity].
    apply In_occurrences_occursAt in Hj. rewrite Hnil in Hj. destruct Hj.
Qed.

Lemma sliceFrom_last (s : jsstring) (L : Z) :
  0 < L <= len s ->
  len (sliceFrom s (- L)) = L
  /\ sliceFrom s (- L) = skipn (Z.to_nat (len s - L)) s.
Proof.
  intros HL. unfold sliceFrom, slice, sliceIndex.
  destruct (Z.ltb_spec (- L) 0); [|lia].
  destruct (Z.ltb_spec (len s) 0); [pose proof (len_nonneg s); lia|].
  rewrite Z.max_l, Z.min_l by lia.
  replace (len s + - L) with (len s - L) by lia.
  assert (Hf : firstn (Z.to_nat (len s - (len s - L)))
                 (skipn (Z.to_nat (len s - L)) s)
               = skipn (Z.to_nat (len s - L)) s).
  { apply firstn_all2. rewrite length_skipn. unfold len in *. lia. }
  rewrite Hf. split; [|reflexivity].
  unfold len in *. rewrite length_skipn. lia.
Qed.

Lemma keyLoop_spec (before target : jsstring) (approx : Z) :
  forall fuel L, L <= Z.of_nat fuel -> L <= len before ->
    match keyLoop fuel before target approx L with
    | Some e =>
        exists K idx,
          3 <= K <= L /\ e = idx + K
          /\ occursAt target (sliceFrom before (- K)) idx = true
          /\ (forall j, occursAt target (sliceFrom before (- K)) j = true ->
                Z.abs (idx + K - approx) <= Z.abs (j + K - approx))
          /\ (forall K', K < K' <= L ->
                forall j, occursAt target (sliceFrom before (- K')) j = false)
    | None =>
        forall K, 3 <= K <= L ->
          forall j, occursAt target (sliceFrom before (- K)) j = false
    end.
Proof.
  induction fuel as [|fuel IH]; intros L Hf Hl.
  - cbn [keyLoop]. intros K HK. cbn in Hf. lia.
  - cbn [keyLoop].
    destruct (Z.geb_spec L 3) as [H3|H3]; [|intros K HK; lia].
    destruct (sliceFrom_last before L) as [Hlen Hkey]; [lia|].
    assert (Hne : sliceFrom before (- L) <> []).
    { intros E. rewrite E in Hlen. cbn in Hlen. lia. }
    destruct (bestIndex_spec target (sliceFrom before (- L)) approx Hne)
      as [[Hb Hnone] | (Hb & Hocc & Hmin)]; cbv zeta in *.
    + rewrite Hb. cbn [Z.eqb negb].
      specialize (IH (L - 1)).
      destruct (keyLoop fuel before target approx (L - 1)) as [e|].
      * destruct IH as (K & idx & HK & He & Ho & Hm & Hup); [lia | lia |].
        exists K, idx. repeat split; try assumption; try lia.
        intros K' HK' j. destruct (Z.eq_dec K' L) as [->|]; [apply Hnone|].
        apply Hup. lia.
      * intros K HK j. destruct (Z.eq_dec K L) as [->|]; [apply Hnone|].
        apply IH; lia.
    + destruct (Z.eqb_spec (bestIndex target (sliceFrom before (- L)) approx) (-1));
        [contradiction|]. cbn [negb].
      exists L, (bestIndex target (sliceFrom before (- L)) approx).
      rewrite Hlen in *. repeat split; try assumption; try lia.
Qed.



End MapperProps.

(** ** Search and replace *)

Module SearchProps.

Import JSFacts PMFacts ScanProps Search Samples.

(** C9.  On the text [The **cat** sat] the query [at] has two matches, the
    first ending before the second starts, in the editor as in the source
    view, and replacing all of them by [X] yields [The **cX** sX], after
    which no match is left. *)
Theorem search_replace_cat :
  findAllMatches asciiLower (plain catText) (str "at")
  = [mkMatch 8 10; mkMatch 14 16]
  /\ searchMarks (doSearch asciiLower (str "at") catSource)
     = [mkMatch 7 9; mkMatch 13 15]
  /\ sourceValue
       (doReplaceAll asciiLower (str "at") (str "X")
          (doSearch asciiLower (str "at") catSource))
     = str "The **cX** sX"
  /\ text (editorDoc
             (doReplaceAll asciiLower (str "at") (str "X")
                (doSearch asciiLower (str "at") catEditor)))
     = str "The **cX** sX"
  /\ searchMarks
       (doReplaceAll asciiLower (str "at") (str "X")
          (doSearch asciiLower (str "at") catSource)) = []
  /\ searchMarks
       (doReplaceAll asciiLower (str "at") (str "X")
          (doSearch asciiLower (str "at") catEditor)) = [].
Proof. repeat split; vm_compute; reflexivity. Qed.

Lemma In_insertMatch (m x : Match) (l : list Match) :
  In x (insertMatch m l) <-> x = m \/ In x l.
Proof.
  induction l as [|y l IH]; cbn [insertMatch In].
  - split; [intros [<- | []]; now left | intros [-> | []]; now left].
  - destruct (m_from m <? m_from y); cbn [In]; [|rewrite IH]; intuition congruence.
Qed.

Lemma In_sortMatches (x : Match) (l : list Match) :
  In x (sortMatches l) <-> In x l.
Proof.
  induction l as [|y l IH]; cbn [sortMatches fold_right In]; [tauto|].
  fold (sortMatches l). rewrite In_insertMatch, IH. intuition congruence.
Qed.

Lemma insertMatch_sorted (m : Match) (l : list Match) :
  Sorted (fun a b => m_from a <= m_from b) l ->
  Sorted (fun a b => m_from a <= m_from b) (insertMatch m l).
Proof.
  induction l as [|y l IH]; intros Hs; cbn [insertMatch].
  - constructor; constructor.
  - destruct (Z.ltb_spec (m_from m) (m_from y)).
    + constructor; [exact Hs|]. constructor. lia.
    + inversion Hs as [|? ? Hs' Hhd]; subst.
      constructor; [now apply IH|].
      destruct l as [|z l]; cbn [insertMatch].
      * constructor. lia.
      * destruct (m_from m <? m_from z); constructor; [lia|].
        inversion Hhd; subst. assumption.
Qed.

Lemma sortMatches_sorted (l : list Match) :
  Sorted (fun a b => m_from a <= m_from b) (sortMatches l).
Proof.
  induction l as [|y l IH]; cbn [sortMatches fold_right]; [constructor|].
  now apply insertMatch_sorted.
Qed.

Lemma insertMatch_perm (m : Match) (l : list Match) :
  Permutation (insertMatch m l) (m :: l).
Proof.
  induction l as [|y l IH]; cbn [insertMatch]; [reflexivity|].
  destruct (m_from m <? m_from y); [reflexivity|].
  rewrite IH. apply perm_swap.
Qed.

Lemma sortMatches_perm (l : list Match) : Permutation (sortMatches l) l.
Proof.
  induction l as [|y l IH]; cbn [sortMatches fold_right]; [reflexivity|].
  fold (sortMatches l). rewrite insertMatch_perm. now constructor.
Qed.

(** The occurrences are listed once each, in increasing order. *)
Lemma occurrences_increasing (q t : jsstring) (i : Z) :
  StronglySorted Z.lt (occurrences q t i).
Proof.
  revert i. induction t as [|c t IH]; intros i; cbn [occurrences].
  - destruct (startsWith [] q); repeat constructor.
  - destruct (startsWith (c :: t) q); [|apply IH].
    constructor; [apply IH|].
    apply Forall_forall. intros j Hj. apply In_occurrences in Hj. lia.
Qed.

(** C10 (amended).  An empty query gets no match in either view.  For a
    non-empty query, [findAllMatches] returns, ordered by their start and
    once each, exactly the ranges [pos + idx, pos + idx + query.length) such
    that the lowercased query occurs at index [idx] of the lowercased text
    of one text node at position [pos], and the editor search of [doSearch]
    keeps that list; the source-mode search of [doSearch] returns exactly
    the indices at which the lowercased query occurs in the lowercased text
    of the source view, in increasing order and once each, each with the
    length of the query as typed.  [toLowerCase] gives a non-empty string
    for a non-empty one. *)
Theorem search_case_insensitive (toLowerCase : jsstring -> jsstring)
  (query : jsstring) :
  (query <> [] -> toLowerCase query <> []) ->
  (query = [] ->
     (forall d, findAllMatches toLowerCase d query = [])
     /\ (forall s, searchMarks (doSearch toLowerCase query s) = []))
  /\ (query <> [] ->
      (forall d m,
         In m (findAllMatches toLowerCase d query)
         <-> exists pos t idx,
               In (pos, t) (Nodes.textNodes d)
               /\ occursAt (toLowerCase t) (toLowerCase query) idx = true
               /\ m = mkMatch (pos + idx) (pos + idx + len query))
      /\ (forall d, Sorted (fun a b => m_from a <= m_from b)
                      (findAllMatches toLowerCase d query))
      /\ (forall d,
            Permutation (findAllMatches toLowerCase d query)
              (flat_map
                 (fun node =>
                    map (fun idx => mkMatch (fst node + idx)
                                      (fst node + idx + len query))
                        (occurrences (toLowerCase query)
                           (toLowerCase (snd node)) 0))
                 (Nodes.textNodes d)))
      /\ (forall s, sourceMode s = false ->
            searchMarks (doSearch toLowerCase query s)
            = findAllMatches toLowerCase (editorDoc s) query)
      /\ (forall s, sourceMode s = true ->
            searchMarks (doSearch toLowerCase query s)
            = map (fun p => mkMatch p (p + len query))
                (occurrences (toLowerCase query) (toLowerCase (sourceValue s)) 0))
      /\ (forall txt,
            StronglySorted Z.lt (occurrences (toLowerCase query) txt 0))
      /\ (forall txt p,
            In p (sourcePositions toLowerCase txt query)
            <-> occursAt (toLowerCase txt) (toLowerCase query) p = true)).
Proof.
  intros Hlower. split.
  { intros ->. split; [intros d | intros s]; reflexivity. }
  intros Hq. pose proof (Hlower Hq) as Hlq.
  assert (Hlen : (len query =? 0) = false).
  { apply Z.eqb_neq. unfold len. destruct query; [congruence|]. cbn [length]. lia. }
  assert (Hnodes : forall d,
            flat_map (nodeMatches toLowerCase query (toLowerCase query))
              (Nodes.textNodes d)
            = flat_map
                (fun node =>
                   map (fun idx => mkMatch (fst node + idx)
                                     (fst node + idx + len query))
                       (occurrences (toLowerCase query)
                          (toLowerCase (snd node)) 0))
                (Nodes.textNodes d)).
  { intros d. induction (Nodes.textNodes d) as [|[pos t] l IH]; [reflexivity|].
    cbn [flat_map]. rewrite IH. unfold nodeMatches at 1. cbn [fst snd].
    now rewrite (allIndexes_occurrences _ _ Hlq). }
  split; [|split; [|split; [|split; [|split; [|split]]]]].
  - intros d m. unfold findAllMatches. rewrite Hlen, In_sortMatches, in_flat_map.
    split.
    + intros ([pos t] & Hn & Hm). unfold nodeMatches in Hm.
      apply in_map_iff in Hm as (idx & <- & Hidx).
      rewrite (allIndexes_occurrences _ _ Hlq) in Hidx.
      apply In_occurrences_occursAt in Hidx.
      now exists pos, t, idx.
    + intros (pos & t & idx & Hn & Ho & ->).
      exists (pos, t). split; [exact Hn|]. unfold nodeMatches.
      apply in_map_iff. exists idx. split; [reflexivity|].
      rewrite (allIndexes_occurrences _ _ Hlq).
      now apply In_occurrences_occursAt.
  - intros d. unfold findAllMatches. rewrite Hlen. apply sortMatches_sorted.
  - intros d. unfold findAllMatches. rewrite Hlen, <- Hnodes.
    apply sortMatches_perm.
  - intros s Hs. unfold doSearch. rewrite Hlen, Hs. reflexivity.
  - intros s Hs. unfold doSearch. rewrite Hlen, Hs. cbn [searchMarks].
    unfold sourcePositions. now rewrite (allIndexes_occurrences _ _ Hlq).
  - intros txt. apply occurrences_increasing.
  - intros txt p. unfold sourcePositions.
    rewrite (allIndexes_occurrences _ _ Hlq). apply In_occurrences_occursAt.
Qed.

End SearchProps.

Module ResolverChecks.

Import Samples.

(** The resolver on [x ab y] with [ab] bold: both edges of the run resolve,
    the position one past the right edge and a non-empty selection do not. *)
Lemma resolver_edges :
  findActiveMarkRange getMarkRangePM (mkEditor boldDoc 3 3) bold
  = Some (mkRange 3 5)
  /\ findActiveMarkRange getMarkRangePM (mkEditor boldDoc 5 5) bold
     = Some (mkRange 3 5)
  /\ tryAt getMarkRangePM boldDoc bold 6 = None
  /\ tryAt getMarkRangePM boldDoc bold 5 = Some (mkRange 3 5)
  /\ findActiveMarkRange getMarkRangePM (mkEditor boldDoc 6 6) bold = None
  /\ findActiveMarkRange getMarkRangePM (mkEditor boldDoc 3 5) bold = None
  /\ findRevealCandidateRightOutside getMarkRangePM (mkEditor boldDoc 6 6)
     = Some (mkCandidate bold (mkRange 3 5) (str "**")).
Proof. repeat split; vm_compute; reflexivity. Qed.

End ResolverChecks.

Module SearchChecks.

Import Search Samples.

(** C10, counterexample.  The lowercased query [cat] occurs at index 0 of
    the lowercased text of the document, whose first letter is bold, and
    [findAllMatches] returns no match, the occurrence lying across two text
    nodes; and the empty query, which occurs at index 0 of any text, gets no
    match in either view. *)
Lemma search_misses_occurrences :
  occursAt (asciiLower (text splitCat)) (asciiLower (str "CAT")) 0 = true
  /\ findAllMatches asciiLower splitCat (str "CAT") = []
  /\ occursAt (asciiLower catText) (asciiLower []) 0 = true
  /\ findAllMatches asciiLower (plain catText) [] = []
  /\ searchMarks (doSearch asciiLower [] catSource) = [].
Proof. repeat split; vm_compute; reflexivity. Qed.

Lemma search_case_insensitive_witness :
  searchMarks (doSearch asciiLower (str "AT") catSource)
  = map (fun p => mkMatch p (p + len (str "AT")))
      (occurrences (asciiLower (str "AT")) (asciiLower (sourceValue catSource)) 0).
Proof.
  refine (proj1 (proj2 (proj2 (proj2 (proj2
            (proj2 (SearchProps.search_case_insensitive asciiLower (str "AT") _)
               _)))))
            catSource _).
  - discriminate.
  - discriminate.
  - reflexivity.
Defined.

End SearchChecks.

(** ** The AI service *)

Module AIServiceProps.

Import JSFacts AIService.

Lemma splitLines_nonempty (s : jsstring) : splitLines s <> [].
Proof.
  destruct s as [|c s]; cbn [splitLines]; [discriminate|].
  destruct (Ascii.eqb c "010"); [discriminate|].
  destruct (splitLines s); discriminate.
Qed.

(** Splitting a concatenation: the last, unfinished line of the first part
    continues into the second. *)
Lemma splitLines_app (a b : jsstring) :
  splitLines (a ++ b)
  = removelast (splitLines a) ++ splitLines (last (splitLines a) [] ++ b).
Proof.
  induction a as [|c a IH]; [reflexivity|].
  cbn [app splitLines].
  pose proof (splitLines_nonempty a) as Hne.
  destruct (Ascii.eqb c "010") eqn:Ec.
  - rewrite IH. destruct (splitLines a) as [|l ls]; [contradiction|]. reflexivity.
  - rewrite IH. destruct (splitLines a) as [|l [|l2 ls]]; [contradiction| |].
    + cbn [removelast last app splitLines]. now rewrite Ec.
    + reflexivity.
Qed.

Lemma last_app_nonempty {A} (l l' : list A) (d : A) :
  l' <> [] -> last (l ++ l') d = last l' d.
Proof.
  intros Hne. induction l as [|x l IH]; [reflexivity|].
  cbn [app last]. destruct (l ++ l') eqn:E; [|exact IH].
  apply app_eq_nil in E as [_ E]. contradiction.
Qed.

Section Stream.

Variable trim : jsstring -> jsstring.
Variable parseLine : jsstring -> option jsstring.
Variable toString : Buffer -> jsstring.

Lemma consumeLine_buffer (st : StreamState) (line b : jsstring) :
  (consumeLine trim parseLine) (mkStream (fullText st) b (chunksOut st)) line
  = mkStream (fullText ((consumeLine trim parseLine) st line)) b (chunksOut ((consumeLine trim parseLine) st line)).
Proof.
  unfold consumeLine. cbn [fullText buffer chunksOut].
  destruct (len (trim line) =? 0); [reflexivity|].
  destruct (parseLine (trim line)) as [t|]; [|reflexivity].
  destruct (len t =? 0); reflexivity.
Qed.

Lemma fold_consume_buffer (lines : list jsstring) (st : StreamState) (b : jsstring) :
  fold_left (consumeLine trim parseLine) lines (mkStream (fullText st) b (chunksOut st))
  = mkStream (fullText (fold_left (consumeLine trim parseLine) lines st)) b
      (chunksOut (fold_left (consumeLine trim parseLine) lines st)).
Proof.
  revert st. induction lines as [|l lines IH]; intros st; [reflexivity|].
  cbn [fold_left]. rewrite consumeLine_buffer. apply IH.
Qed.

(** The state after the chunks received so far: the complete lines of
    their decoded texts, put end to end, have been consumed, the unfinished
    one is buffered. *)
Lemma onData_lines (chunks : list Buffer) :
  fold_left (onData trim parseLine toString) chunks streamStart
  = let lines := splitLines (concat (map toString chunks)) in
    let done := fold_left (consumeLine trim parseLine) (removelast lines) streamStart in
    mkStream (fullText done) (last lines []) (chunksOut done).
Proof.
  induction chunks as [|c chunks IH] using rev_ind; [reflexivity|].
  rewrite fold_left_app, IH. cbn [fold_left]. cbv zeta.
  rewrite map_app, concat_app. cbn [map concat]. rewrite app_nil_r.
  set (s := concat (map toString chunks)).
  unfold onData. cbn [buffer fullText chunksOut].
  rewrite (splitLines_app s (toString c)).
  pose proof (splitLines_nonempty (last (splitLines s) [] ++ toString c)) as Hne.
  set (tailLines := splitLines (last (splitLines s) [] ++ toString c)) in *.
  rewrite (removelast_app _ Hne), (last_app_nonempty _ _ _ Hne).
  rewrite fold_left_app.
  set (done := fold_left (consumeLine trim parseLine)
                 (removelast (splitLines s)) streamStart).
  apply (fold_consume_buffer (removelast tailLines) done (last tailLines [])).
Qed.

Lemma onEnd_consume (st : StreamState) :
  onEnd trim parseLine st = (consumeLine trim parseLine) st (buffer st).
Proof. reflexivity. Qed.

(** What one line adds: nothing, or one non-empty text, to [fullText] and
    to the calls of [onChunk] alike. *)
Lemma consumeLine_adds (st : StreamState) (line : jsstring) :
  exists new,
    chunksOut (consumeLine trim parseLine st line) = chunksOut st ++ new
    /\ fullText (consumeLine trim parseLine st line) = fullText st ++ concat new
    /\ Forall (fun o => o <> []) new.
Proof.
  unfold consumeLine.
  assert (Hnone : exists new : list jsstring,
             chunksOut st = chunksOut st ++ new
             /\ fullText st = fullText st ++ concat new
             /\ Forall (fun o => o <> []) new).
  { exists []. cbn [concat]. now rewrite !app_nil_r. }
  destruct (len (trim line) =? 0); [exact Hnone|].
  destruct (parseLine (trim line)) as [t|]; [|exact Hnone].
  destruct (Z.eqb_spec (len t) 0) as [|Hne]; [exact Hnone|].
  exists [t]. cbn [chunksOut fullText concat]. rewrite app_nil_r.
  split; [reflexivity|]. split; [reflexivity|].
  constructor; [|constructor]. intros ->. now apply Hne.
Qed.

Lemma fold_consume_adds (lines : list jsstring) (st : StreamState) :
  exists new,
    chunksOut (fold_left (consumeLine trim parseLine) lines st)
    = chunksOut st ++ new
    /\ fullText (fold_left (consumeLine trim parseLine) lines st)
       = fullText st ++ concat new
    /\ Forall (fun o => o <> []) new.
Proof.
  revert st. induction lines as [|l lines IH]; intros st.
  - exists []. cbn [fold_left concat]. now rewrite !app_nil_r.
  - cbn [fold_left].
    destruct (consumeLine_adds st l) as (n1 & Hc1 & Hf1 & Hn1).
    destruct (IH (consumeLine trim parseLine st l)) as (n2 & Hc2 & Hf2 & Hn2).
    exists (n1 ++ n2). rewrite Hc2, Hf2, Hc1, Hf1, concat_app, <- !app_assoc.
    split; [reflexivity|]. split; [reflexivity|].
    apply Forall_app. now split.
Qed.

Lemma onData_adds (st : StreamState) (chunk : Buffer) :
  exists new,
    chunksOut (onData trim parseLine toString st chunk) = chunksOut st ++ new
    /\ fullText (onData trim parseLine toString st chunk)
       = fullText st ++ concat new
    /\ Forall (fun o => o <> []) new.
Proof.
  unfold onData.
  apply (fold_consume_adds _
           (mkStream (fullText st)
              (last (splitLines (buffer st ++ toString chunk)) [])
              (chunksOut st))).
Qed.

Lemma onEnd_adds (st : StreamState) :
  exists new,
    chunksOut (onEnd trim parseLine st) = chunksOut st ++ new
    /\ fullText (onEnd trim parseLine st) = fullText st ++ concat new
    /\ Forall (fun o => o <> []) new.
Proof. rewrite onEnd_consume. apply consumeLine_adds. Qed.

(** A settled promise stays as it is. *)
Lemma handle_settled (r : Request) (ev : Event) :
  promise r <> None ->
  promise (handle trim parseLine toString r ev) = promise r.
Proof.
  intros Hs. destruct (promise r) as [o|] eqn:Ep; [|congruence].
  destruct ev; cbn [handle]; unfold settle;
    destruct (phase r); cbn [promise]; rewrite ?Ep; cbn [promise];
    try reflexivity; exact Ep.
Qed.

Lemma run_settled (events : list Event) (r : Request) :
  promise r <> None ->
  promise (fold_left (handle trim parseLine toString) events r) = promise r.
Proof.
  revert r. induction events as [|ev events IH]; intros r Hs; [reflexivity|].
  cbn [fold_left]. rewrite IH; rewrite handle_settled by exact Hs;
    [reflexivity | exact Hs].
Qed.

(** The chunks of a response with a status below 400. *)
Lemma run_data_streaming (chunks : list Buffer) (r : Request) :
  phase r = Streaming ->
  fold_left (handle trim parseLine toString) (map Data chunks) r
  = mkRequest Streaming
      (fold_left (onData trim parseLine toString) chunks (stream r))
      (errData r) (promise r).
Proof.
  revert r. induction chunks as [|c chunks IH]; intros r Hp.
  - cbn [map fold_left]. destruct r as [ph st ed pr]. cbn in Hp. now subst ph.
  - cbn [map fold_left]. rewrite IH; cbn [handle]; rewrite Hp; reflexivity.
Qed.

(** The chunks of a response with a status of 400 or more. *)
Lemma run_data_failing (chunks : list Buffer) (r : Request) (code : Z) :
  phase r = Failing code ->
  fold_left (handle trim parseLine toString) (map Data chunks) r
  = mkRequest (Failing code) (stream r)
      (errData r ++ concat (map toString chunks)) (promise r).
Proof.
  revert r. induction chunks as [|c chunks IH]; intros r Hp.
  - cbn [map fold_left concat]. rewrite app_nil_r.
    destruct r as [ph st ed pr]. cbn in Hp. now subst ph.
  - cbn [map fold_left]. rewrite IH;
      cbn [handle]; rewrite Hp; cbn [phase stream errData promise concat];
      [|reflexivity].
    now rewrite <- app_assoc.
Qed.

(** The request after the response and its chunks. *)
Lemma run_response (statusCode : Z) (chunks : list Buffer) :
  fold_left (handle trim parseLine toString)
    (Response statusCode :: map Data chunks) requestStart
  = if statusCode >=? 400
    then mkRequest (Failing statusCode) streamStart
           (concat (map toString chunks)) None
    else
      let lines := splitLines (concat (map toString chunks)) in
      let done := fold_left (consumeLine trim parseLine) (removelast lines)
                    streamStart in
      mkRequest Streaming
        (mkStream (fullText done) (last lines []) (chunksOut done)) [] None.
Proof.
  cbn [fold_left handle requestStart phase stream errData promise].
  destruct (statusCode >=? 400).
  - rewrite (run_data_failing chunks
               (mkRequest (Failing statusCode) streamStart [] None)
               statusCode eq_refl).
    reflexivity.
  - rewrite (run_data_streaming chunks
               (mkRequest Streaming streamStart [] None) eq_refl).
    cbn [stream errData promise]. now rewrite onData_lines.
Qed.

Lemma consume_all_lines (s : jsstring) :
  let lines := splitLines s in
  let done := fold_left (consumeLine trim parseLine) (removelast lines)
                streamStart in
  let st := fold_left (consumeLine trim parseLine) lines streamStart in
  onEnd trim parseLine (mkStream (fullText done) (last lines []) (chunksOut done))
  = mkStream (fullText st) (last lines []) (chunksOut st).
Proof.
  cbv zeta. rewrite onEnd_consume. cbn [buffer]. rewrite consumeLine_buffer.
  pose proof (splitLines_nonempty s) as Hne.
  assert (Hf : fold_left (consumeLine trim parseLine) (splitLines s) streamStart
               = consumeLine trim parseLine
                   (fold_left (consumeLine trim parseLine)
                      (removelast (splitLines s)) streamStart)
                   (last (splitLines s) [])).
  { rewrite (app_removelast_last [] Hne) at 1. now rewrite fold_left_app. }
  now rewrite Hf.
Qed.

(** What holds of the request after any events. *)
Lemma run_invariant (events : list Event) :
  let r := streamRequest trim parseLine toString events in
  fullText (stream r) = concat (chunksOut (stream r))
  /\ Forall (fun o => o <> []) (chunksOut (stream r))
  /\ match phase r with
     | Waiting => promise r = None \/ exists o, promise r = Some (Rejected o)
     | Failing code => In (Response code) events /\ 400 <= code
     | Streaming => exists code, In (Response code) events /\ code < 400
     end
  /\ match promise r with
     | Some (Resolved text) =>
         (exists outs later,
            chunksOut (stream r) = outs ++ later /\ text = concat outs)
         /\ In End events
         /\ exists code, In (Response code) events /\ code < 400
     | Some (Rejected (ApiError code message)) =>
         In (Response code) events /\ In End events
         /\ 400 <= code /\ len message <= 300
     | Some (Rejected (RequestError e)) => In (Error e) events
     | Some (Rejected StreamTimeout) => In Timeout events
     | None => ~ In Timeout events /\ forall e, ~ In (Error e) events
     end.
Proof.
  induction events as [|ev events IH] using rev_ind.
  - cbn. split; [reflexivity|]. split; [constructor|]. split; [now left|]. tauto.
  - cbv zeta in *. unfold streamRequest in *. rewrite fold_left_app.
    cbn [fold_left].
    set (r := fold_left (handle trim parseLine toString) events requestStart) in *.
    destruct IH as (Htext & Hne & Hph & Hpr).
    assert (Hin : forall x, In x events -> In x (events ++ [ev]))
      by (intros x Hx; apply in_or_app; now left).
    assert (Hev : In ev (events ++ [ev]))
      by (apply in_or_app; right; now left).
    assert (Hnew : forall x, In x (events ++ [ev]) -> In x events \/ x = ev).
    { intros x Hx. apply in_app_or in Hx as [Hx | [<- | []]]; auto. }
    assert (Hkeep :
      match promise r with
      | Some (Resolved text) =>
          (exists outs later,
             chunksOut (stream r) = outs ++ later /\ text = concat outs)
          /\ In End (events ++ [ev])
          /\ exists code, In (Response code) (events ++ [ev]) /\ code < 400
      | Some (Rejected (ApiError code message)) =>
          In (Response code) (events ++ [ev]) /\ In End (events ++ [ev])
          /\ 400 <= code /\ len message <= 300
      | Some (Rejected (RequestError e)) => In (Error e) (events ++ [ev])
      | Some (Rejected StreamTimeout) => In Timeout (events ++ [ev])
      | None => True
      end).
    { destruct (promise r) as [[text | [code message | e |]]|]; [| | | |exact I].
      - destruct Hpr as (Hout & He & code & Hc & Hlt).
        split; [exact Hout|]. split; [auto|]. exists code. auto.
      - destruct Hpr as (Hc & He & Hge & Hl). auto.
      - auto.
      - auto. }
    assert (Hphase_keep :
      match phase r with
      | Waiting => True
      | Failing code => In (Response code) (events ++ [ev]) /\ 400 <= code
      | Streaming => exists code, In (Response code) (events ++ [ev]) /\ code < 400
      end).
    { destruct (phase r) as [|code|]; [exact I | |].
      - destruct Hph. auto.
      - destruct Hph as (code & Hc & Hlt). exists code. auto. }
    destruct ev as [code | chunk | | e |].
    + (* the response *)
      cbn [handle]. destruct (phase r) as [|code'|] eqn:Ep.
      * cbn [phase stream promise]. split; [exact Htext|]. split; [exact Hne|].
        split.
        -- destruct (Z.geb_spec code 400); [split; [exact Hev | lia]|].
           exists code. split; [exact Hev | lia].
        -- destruct Hph as [Hp | [o Hp]]; rewrite Hp in *.
           ++ destruct Hpr as [Ht He]. split.
              ** intros Hx. apply Hnew in Hx as [Hx | Hx]; [auto | discriminate].
              ** intros e Hx. apply Hnew in Hx as [Hx | Hx];
                   [now apply (He e) | discriminate].
           ++ exact Hkeep.
      * rewrite ?Ep. split; [exact Htext|]. split; [exact Hne|].
        split; [exact Hphase_keep|].
        destruct (promise r) as [o|]; [exact Hkeep|].
        destruct Hpr as [Ht He]. split.
        -- intros Hx. apply Hnew in Hx as [Hx | Hx]; [auto | discriminate].
        -- intros e Hx. apply Hnew in Hx as [Hx | Hx];
             [now apply (He e) | discriminate].
      * rewrite ?Ep. split; [exact Htext|]. split; [exact Hne|].
        split; [exact Hphase_keep|].
        destruct (promise r) as [o|]; [exact Hkeep|].
        destruct Hpr as [Ht He]. split.
        -- intros Hx. apply Hnew in Hx as [Hx | Hx]; [auto | discriminate].
        -- intros e Hx. apply Hnew in Hx as [Hx | Hx];
             [now apply (He e) | discriminate].
    + (* a chunk *)
      assert (Hpend : promise r = None ->
                ~ In Timeout (events ++ [Data chunk])
                /\ forall e, ~ In (Error e) (events ++ [Data chunk])).
      { intros Hp. rewrite Hp in Hpr. destruct Hpr as [Ht He]. split.
        - intros Hx. apply Hnew in Hx as [Hx | Hx]; [auto | discriminate].
        - intros e Hx. apply Hnew in Hx as [Hx | Hx];
            [now apply (He e) | discriminate]. }
      cbn [handle]. destruct (phase r) as [|code'|] eqn:Ep.
      * rewrite ?Ep. split; [exact Htext|]. split; [exact Hne|].
        split; [exact Hph|].
        destruct (promise r) as [o|]; [exact Hkeep | now apply Hpend].
      * cbn [phase stream promise]. rewrite ?Ep.
        split; [exact Htext|]. split; [exact Hne|].
        split; [exact Hphase_keep|].
        destruct (promise r) as [o|]; [exact Hkeep | now apply Hpend].
      * cbn [phase stream promise]. rewrite ?Ep.
        destruct (onData_adds (stream r) chunk) as (new & Hc & Hf & Hn).
        split; [rewrite Hf, Hc, concat_app, Htext; reflexivity|].
        split; [rewrite Hc; apply Forall_app; now split|].
        split; [exact Hphase_keep|].
        destruct (promise r) as [[text | [code message | e |]]|];
          [| exact Hkeep | exact Hkeep | exact Hkeep | now apply Hpend].
        destruct Hkeep as ((outs & later & Hout & Ht) & Hrest).
        split; [|exact Hrest].
        exists outs, (later ++ new). rewrite Hc, Hout, <- app_assoc. now split.
    + (* the end of the response *)
      cbn [handle]. destruct (phase r) as [|code'|] eqn:Ep.
      * rewrite ?Ep. split; [exact Htext|]. split; [exact Hne|].
        split; [exact Hph|].
        destruct Hph as [Hp | [o Hp]]; rewrite Hp in *; [|exact Hkeep].
        destruct Hpr as [Ht He]. split.
        -- intros Hx. apply Hnew in Hx as [Hx | Hx]; [auto | discriminate].
        -- intros e Hx. apply Hnew in Hx as [Hx | Hx];
             [now apply (He e) | discriminate].
      * unfold settle. destruct (promise r) as [o|] eqn:Epr.
        -- rewrite ?Ep, ?Epr. split; [exact Htext|]. split; [exact Hne|].
           split; [exact Hphase_keep | exact Hkeep].
        -- cbn [phase stream promise]. rewrite ?Ep.
           split; [exact Htext|]. split; [exact Hne|].
           split; [exact Hphase_keep|].
           destruct Hphase_keep as [Hc Hge].
           split; [exact Hc|]. split; [exact Hev|]. split; [exact Hge|].
           unfold slice, sliceIndex. change (0 <? 0) with false.
           change (300 <? 0) with false. cbv iota.
           pose proof (len_nonneg (errData r)).
           unfold len in *. rewrite length_firstn. lia.
      * destruct (onEnd_adds (stream r)) as (new & Hc & Hf & Hn).
        unfold settle. cbn [promise phase stream errData].
        destruct (promise r) as [o|] eqn:Epr; cbn [phase stream promise].
        -- split; [rewrite Hf, Hc, concat_app, Htext; reflexivity|].
           split; [rewrite Hc; apply Forall_app; now split|].
           split; [exact Hphase_keep|].
           destruct o as [text | [code message | e |]];
             [| exact Hkeep | exact Hkeep | exact Hkeep].
           destruct Hkeep as ((outs & later & Hout & Ht) & Hrest).
           split; [|exact Hrest].
           exists outs, (later ++ new). rewrite Hc, Hout, <- app_assoc.
           now split.
        -- split; [rewrite Hf, Hc, concat_app, Htext; reflexivity|].
           split; [rewrite Hc; apply Forall_app; now split|].
           split; [exact Hphase_keep|].
           split; [|split; [exact Hev | exact Hphase_keep]].
           exists (chunksOut (stream r) ++ new), [].
           rewrite app_nil_r, Hf, Htext, concat_app. now split.
    + (* the error of the request *)
      cbn [handle]. unfold settle. destruct (promise r) as [o|] eqn:Epr.
      * rewrite ?Epr. split; [exact Htext|]. split; [exact Hne|].
        split; [|exact Hkeep].
        destruct (phase r); [|exact Hphase_keep | exact Hphase_keep].
        destruct Hph as [Hp | Hp]; [discriminate | now right].
      * cbn [phase stream promise]. split; [exact Htext|]. split; [exact Hne|].
        split; [|exact Hev].
        destruct (phase r); [|exact Hphase_keep | exact Hphase_keep].
        right. now exists (RequestError e).
    + (* the timeout *)
      cbn [handle]. unfold settle. destruct (promise r) as [o|] eqn:Epr.
      * rewrite ?Epr. split; [exact Htext|]. split; [exact Hne|].
        split; [|exact Hkeep].
        destruct (phase r); [|exact Hphase_keep | exact Hphase_keep].
        destruct Hph as [Hp | Hp]; [discriminate | now right].
      * cbn [phase stream promise]. split; [exact Htext|]. split; [exact Hne|].
        split; [|exact Hev].
        destruct (phase r); [|exact Hphase_keep | exact Hphase_keep].
        right. now exists StreamTimeout.
Qed.

End Stream.

(** X1.  As long as every chunk decodes on its own to its part of the
    decoded response ([toString] of the chunks, put end to end, is
    [toString] of the whole), [streamRequest] does not depend on how the
    response is cut into chunks: whatever the events that follow, it is in
    the state the response received in one chunk leaves.  When the response
    then ends, a status below 400 resolves with what the lines of the whole
    response yield, consumed in order, the last one included, each text
    having been handed to [onChunk]; a status of 400 or more rejects with
    the status and the first 300 characters of the response. *)
Theorem stream_chunking (trim : jsstring -> jsstring)
  (parseLine : jsstring -> option jsstring) (toString : Buffer -> jsstring)
  (statusCode : Z) (chunks : list Buffer) (rest : list Event) :
  concat (map toString chunks) = toString (concat chunks) ->
  streamRequest trim parseLine toString
    (Response statusCode :: map Data chunks ++ rest)
  = streamRequest trim parseLine toString
      (Response statusCode :: Data (concat chunks) :: rest)
  /\ (statusCode < 400 ->
      let st := fold_left (consumeLine trim parseLine)
                  (splitLines (toString (concat chunks))) streamStart in
      let r := streamRequest trim parseLine toString
                 (Response statusCode :: map Data chunks ++ [End]) in
      promise r = Some (Resolved (fullText st))
      /\ chunksOut (stream r) = chunksOut st)
  /\ (400 <= statusCode ->
      let r := streamRequest trim parseLine toString
                 (Response statusCode :: map Data chunks ++ [End]) in
      promise r
      = Some (Rejected (ApiError statusCode
                          (slice (toString (concat chunks)) 0 300)))
      /\ chunksOut (stream r) = []).
Proof.
  intros Hdec.
  assert (Hone : concat (map toString [concat chunks]) = toString (concat chunks)).
  { cbn [map concat]. apply app_nil_r. }
  assert (Hrun : forall more,
            streamRequest trim parseLine toString
              (Response statusCode :: map Data chunks ++ more)
            = fold_left (handle trim parseLine toString) more
                (fold_left (handle trim parseLine toString)
                   (Response statusCode :: map Data chunks) requestStart)).
  { intros more. unfold streamRequest.
    now rewrite app_comm_cons, fold_left_app. }
  split; [|split].
  - rewrite Hrun.
    change (Response statusCode :: Data (concat chunks) :: rest)
      with ((Response statusCode :: map Data [concat chunks]) ++ rest).
    unfold streamRequest. rewrite fold_left_app.
    now rewrite !run_response, Hone, Hdec.
  - intros Hlt. cbv zeta. rewrite Hrun, run_response, Hdec.
    destruct (Z.geb_spec statusCode 400); [lia|].
    cbv zeta. cbn [fold_left handle phase stream errData promise].
    unfold settle. cbn [promise phase stream errData].
    rewrite (consume_all_lines trim parseLine (toString (concat chunks))).
    split; reflexivity.
  - intros Hge. cbv zeta. rewrite Hrun, run_response, Hdec.
    destruct (Z.geb_spec statusCode 400); [|lia].
    cbn [fold_left handle phase stream errData promise].
    unfold settle. cbn [promise phase stream errData].
    split; reflexivity.
Qed.

(** X2.  Whatever events [streamRequest] is given, the texts handed to
    [onChunk] are not empty and [fullText] is their concatenation.  Its
    promise is settled once: later events leave the outcome as it is.  A
    resolved promise carries the concatenation of the texts handed to
    [onChunk] until then, after the end of a response with a status below
    400.  A rejection with an API error carries the status of the response,
    which is at least 400, and at most 300 characters, after the end of the
    response; a rejection with the error of the request follows that
    ['error'] event, and a timeout rejection the timeout; both may follow
    calls of [onChunk].  A promise still pending has seen neither. *)
Theorem stream_outcome (trim : jsstring -> jsstring)
  (parseLine : jsstring -> option jsstring) (toString : Buffer -> jsstring)
  (events : list Event) :
  let r := streamRequest trim parseLine toString events in
  fullText (stream r) = concat (chunksOut (stream r))
  /\ Forall (fun o => o <> []) (chunksOut (stream r))
  /\ match promise r with
     | Some (Resolved text) =>
         (exists outs later,
            chunksOut (stream r) = outs ++ later /\ text = concat outs)
         /\ In End events
         /\ exists code, In (Response code) events /\ code < 400
     | Some (Rejected (ApiError code message)) =>
         In (Response code) events /\ In End events
         /\ 400 <= code /\ len message <= 300
     | Some (Rejected (RequestError e)) => In (Error e) events
     | Some (Rejected StreamTimeout) => In Timeout events
     | None => ~ In Timeout events /\ forall e, ~ In (Error e) events
     end
  /\ (forall more,
        promise r <> None ->
        promise (streamRequest trim parseLine toString (events ++ more))
        = promise r)
  /\ (forall e, promise r = None ->
        promise (streamRequest trim parseLine toString (events ++ [Error e]))
        = Some (Rejected (RequestError e)))
  /\ (promise r = None ->
        promise (streamRequest trim parseLine toString (events ++ [Timeout]))
        = Some (Rejected StreamTimeout)).
Proof.
  cbv zeta.
  destruct (run_invariant trim parseLine toString events)
    as (Htext & Hne & _ & Hpr).
  split; [exact Htext|]. split; [exact Hne|]. split; [exact Hpr|].
  split; [|split].
  - intros more Hs. unfold streamRequest. rewrite fold_left_app.
    now apply run_settled.
  - intros e Hp. unfold streamRequest in *. rewrite fold_left_app.
    cbn [fold_left handle]. unfold settle. now rewrite Hp.
  - intros Hp. unfold streamRequest in *. rewrite fold_left_app.
    cbn [fold_left handle]. unfold settle. now rewrite Hp.
Qed.

Lemma claudeMessages_filtered (messages : list Message) (system : jsstring)
  (filtered : list Message) :
  snd (claudeMessages messages system filtered)
  = filtered ++ filter (fun m => negb (isSystem m)) messages.
Proof.
  revert system filtered.
  induction messages as [|m messages IH]; intros system filtered; cbn.
  - now rewrite app_nil_r.
  - destruct (isSystem m); cbn [negb]; rewrite IH; [reflexivity|].
    now rewrite <- app_assoc.
Qed.

Lemma claudeMessages_system (messages : list Message) (system : jsstring)
  (filtered : list Message) :
  Forall (fun m => isSystem m = true -> content m <> []) messages ->
  fst (claudeMessages messages system filtered)
  = match system with
    | [] => join ["010"%char] (map content (filter isSystem messages))
    | _ => join ["010"%char] (system :: map content (filter isSystem messages))
    end.
Proof.
  revert system filtered.
  induction messages as [|m messages IH]; intros system filtered Hall.
  - cbn. destruct system; [reflexivity|]. reflexivity.
  - inversion Hall as [|? ? Hm Hrest]; subst. cbn [claudeMessages filter].
    destruct (isSystem m) eqn:Es; [|now apply IH].
    specialize (Hm eq_refl). rewrite (IH _ _ Hrest). cbn [map].
    destruct system as [|c system].
    + cbn [len length Z.of_nat Z.ltb app]. cbn.
      destruct (content m) as [|a cm] eqn:Ec; [contradiction|].
      destruct (map content (filter isSystem messages)); reflexivity.
    + assert (Hl : (0 <? len (c :: system)) = true).
      { apply Z.ltb_lt. unfold len. cbn [length]. lia. }
      rewrite Hl.
      destruct ((c :: system) ++ str (String "010" "") ++ content m) eqn:E;
        [discriminate|]. rewrite <- E.
      cbn [join].
      destruct (map content (filter isSystem messages)) as [|x xs] eqn:Em.
      * reflexivity.
      * now rewrite <- !app_assoc.
Qed.

(** X3.  [callClaude] keeps the messages that are not system messages, in
    their order, as the [messages] of the request; the request has a
    [system] field exactly when some system message has a non-empty content;
    and when every system message has one, the field is their contents
    joined with a newline. *)
Theorem claude_system_prompt (messages : list Message) :
  snd (claudeBody messages) = filter (fun m => negb (isSystem m)) messages
  /\ (fst (claudeBody messages) <> None
      <-> exists m, In m messages /\ isSystem m = true /\ content m <> [])
  /\ (Forall (fun m => isSystem m = true -> content m <> []) messages ->
      In true (map isSystem messages) ->
      fst (claudeBody messages)
      = Some (join ["010"%char] (map content (filter isSystem messages)))).
Proof.
  unfold claudeBody.
  pose proof (claudeMessages_filtered messages [] []) as Hf.
  destruct (claudeMessages messages [] []) as [system filtered] eqn:Ecm.
  cbn [fst snd] in *. split; [exact Hf|].
  assert (Hsys : forall msgs sys flt,
             fst (claudeMessages msgs sys flt) <> []
             <-> sys <> [] \/ exists m, In m msgs /\ isSystem m = true
                                       /\ content m <> []).
  { induction msgs as [|m msgs IH]; intros sys flt; cbn [claudeMessages fst].
    - split; [now left|]. intros [H | (m & [] & _)]. exact H.
    - destruct (isSystem m) eqn:Es; rewrite IH.
      + split.
        * intros [H | (x & Hx & Hs & Hc)].
          -- destruct sys as [|c sys]; [|left; discriminate].
             right. exists m. split; [now left|]. split; [exact Es|].
             intros E. apply H. cbn. now rewrite E.
          -- right. exists x. split; [now right | now split].
        * intros [H | (x & [<- | Hx] & Hs & Hc)].
          -- left. destruct sys; [contradiction | discriminate].
          -- left. intros E. apply app_eq_nil in E as [_ E].
             apply app_eq_nil in E as [_ E]. contradiction.
          -- right. exists x. now repeat split.
      + split.
        * intros [H | (x & Hx & Hs & Hc)]; [now left|].
          right. exists x. split; [now right | now split].
        * intros [H | (x & [<- | Hx] & Hs & Hc)]; [now left | congruence |].
          right. exists x. now repeat split. }
  split.
  - specialize (Hsys messages [] []). rewrite Ecm in Hsys. cbn [fst] in Hsys.
    destruct system as [|c system].
    + cbn. split; [congruence|]. intros H.
      exfalso. apply (proj2 Hsys); [now right | reflexivity].
    + assert (Hl : (0 <? len (c :: system)) = true).
      { apply Z.ltb_lt. unfold len. cbn [length]. lia. }
      rewrite Hl. split; [|discriminate]. intros _.
      destruct (proj1 Hsys) as [H | H]; [discriminate | contradiction | exact H].
  - intros Hall Hin.
    pose proof (claudeMessages_system messages [] [] Hall) as Hj.
    rewrite Ecm in Hj. cbn [fst] in Hj. subst system.
    assert (Hne : join ["010"%char] (map content (filter isSystem messages)) <> []).
    { apply in_map_iff in Hin as (m & Hs & Hm).
      rewrite Forall_forall in Hall.
      clear Ecm Hf Hsys. induction messages as [|x xs IH]; [destruct Hm|].
      cbn [filter]. destruct (isSystem x) eqn:Ex.
      - cbn [map join]. pose proof (Hall x (or_introl eq_refl) Ex) as Hx.
        destruct (content x) as [|a cx]; [contradiction|].
        destruct (map content (filter isSystem xs)); discriminate.
      - destruct Hm as [-> | Hm]; [congruence|].
        apply IH; [|exact Hm]. intros y Hy. apply Hall. now right. }
    destruct (join ["010"%char] (map content (filter isSystem messages)))
      as [|a j] eqn:Ej; [contradiction|].
    assert (Hl : (0 <? len (a :: j)) = true).
    { apply Z.ltb_lt. unfold len. cbn [length]. lia. }
    now rewrite Hl.
Qed.

End AIServiceProps.

(** ** The delimiter table *)

Module DelimiterProps.

Import JSFacts PMFacts CollapseProps.

Lemma startsWith_one (s : jsstring) (c : ascii) :
  startsWith s [c; c] = true -> startsWith s [c] = true.
Proof. apply (startsWith_prefix s [c] [c]). Qed.

Lemma endsWith_one (s : jsstring) (c : ascii) :
  endsWith s [c; c] = true -> endsWith s [c] = true.
Proof. apply (endsWith_suffix s [c] [c]). Qed.

Lemma geb_weaken (x a b : Z) : b <= a -> (x >=? a) = true -> (x >=? b) = true.
Proof. rewrite !Z.geb_leb, !Z.leb_le. lia. Qed.

(** X4.  [reconcileActiveBoldRevealMarks] only ever derives two shapes, bold
    with two markers on each side or italic with one on each side: the four
    branches for mixed 2/1 shapes are never taken.  The derived markers fit
    in the segment, which starts and ends with them, so the inner region is
    never inverted. *)
Theorem deriveShape_shapes (segment : jsstring) (target : MarkName) (l r : Z) :
  deriveShape segment = Some (target, l, r) ->
  ((target = bold /\ l = 2 /\ r = 2) \/ (target = italic /\ l = 1 /\ r = 1))
  /\ l + r <= len segment
  /\ exists c, (c = "*"%char \/ c = "_"%char)
               /\ startsWith segment (repeat c (Z.to_nat l)) = true
               /\ endsWith segment (repeat c (Z.to_nat r)) = true.
Proof.
  unfold deriveShape.
  change (str "**") with ["*"%char; "*"%char].
  change (str "__") with ["_"%char; "_"%char].
  change (str "*") with ["*"%char]. change (str "_") with ["_"%char].
  destruct (startsWith segment ["*"%char; "*"%char]) eqn:S2;
  destruct (endsWith segment ["*"%char; "*"%char]) eqn:E2;
  destruct (startsWith segment ["_"%char; "_"%char]) eqn:U2;
  destruct (endsWith segment ["_"%char; "_"%char]) eqn:V2;
  try (apply startsWith_one in S2 as S1; rewrite S1);
  try (apply endsWith_one in E2 as E1; rewrite E1);
  try (apply startsWith_one in U2 as U1; rewrite U1);
  try (apply endsWith_one in V2 as V1; rewrite V1);
  destruct (Z.geb_spec (len segment) 4) as [H4|H4];
  destruct (Z.geb_spec (len segment) 3) as [H3|H3]; try lia;
  destruct (Z.geb_spec (len segment) 2) as [H2|H2]; try lia;
  cbn [andb orb];
  repeat match goal with
         | |- context [startsWith segment ?p] => destruct (startsWith segment p) eqn:?
         | |- context [endsWith segment ?p] => destruct (endsWith segment p) eqn:?
         end;
  cbn [andb orb]; intros [= <- <- <-] || (intros; discriminate);
  (split; [tauto | split; [lia|]]);
  first [ exists "*"%char; split; [now left|]; split; assumption
        | exists "_"%char; split; [now right|]; split; assumption ].
Qed.

Lemma italicPattern_some (segment inner : jsstring) :
  italicPattern segment = Some inner ->
  inner <> []
  /\ exists c, (c = "*"%char \/ c = "_"%char) /\ segment = [c] ++ inner ++ [c].
Proof.
  unfold italicPattern, orElse.
  destruct (matchWrapped (str "*") (str "*") segment) as [m|] eqn:E.
  - intros [= <-]. apply matchWrapped_some in E as [Hne ->].
    split; [exact Hne|]. exists "*"%char. split; [now left | reflexivity].
  - intros E'. apply matchWrapped_some in E' as [Hne ->].
    split; [exact Hne|]. exists "_"%char. split; [now right | reflexivity].
Qed.

Lemma boldPattern_some (segment inner : jsstring) :
  boldPattern segment = Some inner ->
  inner <> []
  /\ exists c, (c = "*"%char \/ c = "_"%char)
               /\ segment = [c; c] ++ inner ++ [c; c].
Proof.
  unfold boldPattern, orElse.
  destruct (matchWrapped (str "**") (str "**") segment) as [m|] eqn:E.
  - intros [= <-]. apply matchWrapped_some in E as [Hne ->].
    split; [exact Hne|]. exists "*"%char. split; [now left | reflexivity].
  - intros E'. apply matchWrapped_some in E' as [Hne ->].
    split; [exact Hne|]. exists "_"%char. split; [now right | reflexivity].
Qed.

(** A segment accepted by a bold pattern is accepted by an italic one. *)
Lemma boldPattern_italicPattern (segment inner : jsstring) :
  boldPattern segment = Some inner -> italicPattern segment <> None.
Proof.
  intros H. apply boldPattern_some in H as (Hne & c & Hc & ->).
  unfold italicPattern, orElse.
  assert (Hm : matchWrapped [c] [c] ([c; c] ++ inner ++ [c; c])
               = Some ([c] ++ inner ++ [c])).
  { replace ([c; c] ++ inner ++ [c; c]) with ([c] ++ ([c] ++ inner ++ [c]) ++ [c])
      by (cbn; now rewrite <- !app_assoc).
    apply matchWrapped_wrap. discriminate. }
  destruct Hc as [-> | ->].
  - change (str "*") with ["*"%char]. now rewrite Hm.
  - change (str "_") with ["_"%char].
    destruct (matchWrapped (str "*") (str "*") _); [discriminate|].
    now rewrite Hm.
Qed.

(** What the patterns of [collapseInlineReveal] take out of a segment. *)
Lemma parseSegment_inner (markName : MarkName) (segment inner : jsstring)
  (parsedType : MarkName) :
  parseSegment markName segment = Some (parsedType, inner) ->
  inner <> []
  /\ (exists c, (c = "*"%char \/ c = "_"%char)
                /\ ((parsedType = bold /\ segment = [c; c] ++ inner ++ [c; c])
                    \/ (parsedType = italic /\ segment = [c] ++ inner ++ [c])))
  /\ (markName = italic -> parsedType = italic).
Proof.
  unfold parseSegment. destruct markName.
  - destruct (boldPattern segment) as [m|] eqn:Eb.
    + intros [= <- <-]. apply boldPattern_some in Eb as (Hne & c & Hc & ->).
      split; [exact Hne|]. split; [|discriminate].
      exists c. split; [exact Hc|]. now left.
    + destruct (italicPattern segment) as [m|] eqn:Ei.
      * intros [= <- <-]. apply italicPattern_some in Ei as (Hne & c & Hc & ->).
        split; [exact Hne|]. split; [|discriminate].
        exists c. split; [exact Hc|]. now right.
      * rewrite (mixedPattern_shadowed segment Ei). discriminate.
  - destruct (italicPattern segment) as [m|] eqn:Ei.
    + intros [= <- <-]. apply italicPattern_some in Ei as (Hne & c & Hc & ->).
      split; [exact Hne|]. split; [|reflexivity].
      exists c. split; [exact Hc|]. now right.
    + destruct (boldPattern segment) as [m|] eqn:Eb; [|discriminate].
      now destruct (boldPattern_italicPattern segment m Eb).
Qed.

(** X5.  Whatever [collapseInlineReveal] parses out of a segment is the
    segment without one delimiter at each end, the same at both ends: two
    markers for a bold result, one for an italic result, never a mixed pair;
    the inner text is not empty; and a reveal whose kind is italic is always
    parsed as italic, its bold patterns being shadowed by the italic ones. *)
Theorem parseSegment_delimiters (markName : MarkName) (segment inner : jsstring)
  (parsedType : MarkName) :
  parseSegment markName segment = Some (parsedType, inner) ->
  inner <> []
  /\ (exists c, (c = "*"%char \/ c = "_"%char)
                /\ ((parsedType = bold /\ segment = [c; c] ++ inner ++ [c; c])
                    \/ (parsedType = italic /\ segment = [c] ++ inner ++ [c])))
  /\ (markName = italic -> parsedType = italic).
Proof. exact (parseSegment_inner markName segment inner parsedType). Qed.

End DelimiterProps.

(** ** More on the reveal transitions *)

Module TransitionProps.

Import JSFacts PMFacts CollapseProps DelimiterProps.

Lemma textBetween_text (d : Doc) (a b : Z) :
  textBetween d a b = firstn (off b - off a) (skipn (off a) (text d)).
Proof. unfold textBetween, text. now rewrite skipn_map, firstn_map. Qed.

Lemma MarkName_eqb_refl (k : MarkName) : MarkName_eqb k k = true.
Proof. now destruct k. Qed.

(** A reconciliation that changes marks leaves nothing to reconcile. *)
Lemma reconcile_once (e e' : EditorState) (g g' : Globals) :
  reconcileActiveBoldRevealMarks e g = (true, e', g') ->
  text (doc e') = text (doc e)
  /\ selFrom e' = selFrom e /\ selTo e' = selTo e
  /\ reconcileActiveBoldRevealMarks e' g' = (false, e', g').
Proof.
  unfold reconcileActiveBoldRevealMarks at 1.
  destruct (_activeInlineReveal g) as [rv|] eqn:Hact; [|discriminate].
  destruct (MarkName_eqb (markName rv) bold) eqn:Hk; cbn [negb]; [|discriminate].
  destruct (deriveShape (textBetween (doc e) (start rv) (end_ rv)))
    as [[[target l] r]|] eqn:Hshape; [|discriminate].
  destruct (sameShape rv target l r); [discriminate|].
  destruct (start rv + l >? end_ rv - r); [discriminate|].
  intros [= <- <-].
  assert (Ht : text (if start rv + l <? end_ rv - r
                     then addMark
                            (removeMark (removeMark (doc e) (start rv) (end_ rv) bold)
                               (start rv) (end_ rv) italic)
                            (start rv + l) (end_ rv - r) target
                     else removeMark (removeMark (doc e) (start rv) (end_ rv) bold)
                            (start rv) (end_ rv) italic)
               = text (doc e)).
  { destruct (start rv + l <? end_ rv - r);
      now rewrite ?addMark_text, !removeMark_text. }
  cbn [doc selFrom selTo]. split; [exact Ht|]. split; [reflexivity|].
  split; [reflexivity|].
  unfold reconcileActiveBoldRevealMarks.
  cbn [_activeInlineReveal setSyncing setActive markName start end_ doc].
  rewrite Hk. cbn [negb].
  rewrite textBetween_text, Ht, <- textBetween_text, Hshape.
  unfold sameShape, optMark_eqb, optZ_eqb. cbn [semantic leftLen rightLen].
  now rewrite MarkName_eqb_refl, !Z.eqb_refl.
Qed.

(** X6.  When [reconcileActiveBoldRevealMarks] re-annotates, it touches
    neither the text nor the selection, and it has nothing left to do: a
    second call on the resulting state returns [false] and changes nothing. *)
Theorem reconcile_settles (e e' : EditorState) (g g' : Globals) :
  reconcileActiveBoldRevealMarks e g = (true, e', g') ->
  text (doc e') = text (doc e)
  /\ selFrom e' = selFrom e /\ selTo e' = selTo e
  /\ reconcileActiveBoldRevealMarks e' g' = (false, e', g').
Proof. exact (reconcile_once e e' g g'). Qed.

Lemma textBetween_one (d : Doc) (p : Z) (a : ascii) :
  textBetween d p (p + 1) = [a] ->
  exists pre m post, d = pre ++ [(a, m)] ++ post /\ posAfter pre = p
                    /\ delete d p (p + 1) = pre ++ post.
Proof.
  unfold textBetween. intros H.
  assert (Hp : 1 <= p).
  { destruct (Z.leb_spec 1 p); [assumption|].
    replace (off (p + 1) - off p)%nat with 0%nat in H by (unfold off; lia).
    discriminate. }
  replace (off (p + 1) - off p)%nat with 1%nat in H by (unfold off; lia).
  destruct (skipn (off p) d) as [|[a' m] rest] eqn:Es; [discriminate|].
  cbn in H. injection H as ->.
  assert (Hlen : (off p < length d)%nat).
  { destruct (Nat.lt_ge_cases (off p) (length d)); [assumption|].
    rewrite skipn_all2 in Es by lia. discriminate. }
  assert (Hd : d = firstn (off p) d ++ [(a, m)] ++ rest).
  { rewrite <- (firstn_skipn (off p) d) at 1. now rewrite Es. }
  assert (Hpos : posAfter (firstn (off p) d) = p).
  { unfold posAfter. rewrite length_firstn. unfold off in *. lia. }
  remember (firstn (off p) d) as pre eqn:Epre. clear Epre Es Hlen.
  exists pre, m, rest.
  split; [exact Hd|]. split; [exact Hpos|].
  rewrite Hd, <- Hpos.
  apply (delete_mid pre [(a, m)] rest).
Qed.

Lemma isMarker_char (ch : jsstring) (m : option ascii) :
  isMarker ch m = true -> exists c, m = Some c /\ ch = [c].
Proof.
  unfold isMarker. destruct m as [c|]; [|discriminate].
  intros H. apply eqb_eq in H. now exists c.
Qed.

(** X7.  When [handleInlineRevealKeyDown] takes a key, a reveal is active,
    the selection is empty, and the document loses exactly one character:
    the marker character of the reveal that stood right before the caret
    (Backspace) or right after it (Delete).  The caret ends up where that
    character was, and the transaction maps positions accordingly. *)
Theorem keydown_deletes_one_marker (e e' : EditorState) (g : Globals)
  (k : jsstring) (tr : Transaction) :
  handleInlineRevealKeyDown e g k = Some (e', tr) ->
  exists rv c pre m post,
    _activeInlineReveal g = Some rv
    /\ markerCharOf (syntax rv) = Some c
    /\ selEmpty e = true
    /\ doc e = pre ++ [(c, m)] ++ post
    /\ doc e' = pre ++ post
    /\ selFrom e' = posAfter pre /\ selTo e' = posAfter pre
    /\ tr = mkTr false true [(posAfter pre, 1, 0)]
    /\ ((k = str "Backspace" /\ selFrom e = posAfter pre + 1)
        \/ (k = str "Delete" /\ selFrom e = posAfter pre)).
Proof.
  unfold handleInlineRevealKeyDown.
  destruct (_activeInlineReveal g) as [rv|]; [|discriminate].
  destruct (isSourceMode g); [discriminate|].
  destruct (selEmpty e) eqn:Hsel; cbn [negb]; [|discriminate].
  destruct (negb (eqb k (str "Backspace")) && negb (eqb k (str "Delete")));
    [discriminate|].
  destruct (eqb k (str "Backspace") && (selFrom e >? 1)
            && isMarker (textBetween (doc e) (selFrom e - 1) (selFrom e))
                 (markerCharOf (syntax rv))) eqn:Hb.
  - intros [= <- <-].
    apply andb_true_iff in Hb as [Hb Hm]. apply andb_true_iff in Hb as [Hk Hp].
    apply eqb_eq in Hk. apply isMarker_char in Hm as (c & Hc & Ht).
    replace (selFrom e) with (selFrom e - 1 + 1) in Ht at 2 by lia.
    destruct (textBetween_one _ _ _ Ht) as (pre & m & post & Hd & Hpos & Hdel).
    replace (selFrom e - 1 + 1) with (selFrom e) in Hdel by lia.
    exists rv, c, pre, m, post. cbn [doc selFrom selTo].
    rewrite Hdel, Hpos.
    repeat split; try assumption; try reflexivity.
    left. split; [exact Hk | lia].
  - destruct (eqb k (str "Delete")
              && isMarker (textBetween (doc e) (selFrom e) (selFrom e + 1))
                   (markerCharOf (syntax rv))) eqn:Hd; [|discriminate].
    intros [= <- <-].
    apply andb_true_iff in Hd as [Hk Hm].
    apply eqb_eq in Hk. apply isMarker_char in Hm as (c & Hc & Ht).
    destruct (textBetween_one _ _ _ Ht) as (pre & m & post & Hdoc & Hpos & Hdel).
    exists rv, c, pre, m, post. cbn [doc selFrom selTo].
    rewrite Hdel, Hpos.
    repeat split; try assumption; try reflexivity.
    right. split; [exact Hk | reflexivity].
Qed.

Lemma absorbLeft_spec (fuel : nat) (d : Doc) (m : option ascii) (s : Z) :
  let s' := absorbLeftLoop fuel d m s in
  s' <= s /\ s - s' <= Z.of_nat fuel
  /\ (s' < s -> 1 <= s'
      /\ exists c, m = Some c
                   /\ forall p, s' <= p < s -> textBetween d p (p + 1) = [c]).
Proof.
  revert s. induction fuel as [|fuel IH]; intros s; cbn [absorbLeftLoop].
  - cbv zeta. repeat split; lia.
  - destruct (Z.gtb_spec s 1) as [Hgt|]; [|cbv zeta; repeat split; lia].
    destruct (isMarker (textBetween d (s - 1) s) m) eqn:Hm;
      [|cbv zeta; repeat split; lia].
    specialize (IH (s - 1)). cbv zeta in *.
    destruct IH as (Hle & Hfuel & Hchars).
    split; [lia|]. split; [lia|]. intros _.
    apply isMarker_char in Hm as (c & Hc & Ht).
    destruct (Z.eq_dec (absorbLeftLoop fuel d m (s - 1)) (s - 1)) as [E|Hne].
    + rewrite E. split; [lia|]. exists c. split; [exact Hc|].
      intros p Hp. replace p with (s - 1) by lia.
      now replace (s - 1 + 1) with s by lia.
    + destruct Hchars as (H1 & c' & Hc' & Hall); [lia|].
      split; [exact H1|]. exists c. split; [exact Hc|].
      intros p Hp. destruct (Z.eq_dec p (s - 1)) as [->|].
      * now replace (s - 1 + 1) with s by lia.
      * rewrite Hc in Hc'. injection Hc' as <-. apply Hall. lia.
Qed.

Lemma absorbRight_spec (fuel : nat) (d : Doc) (m : option ascii) (e : Z) :
  let e' := absorbRightLoop fuel d m e in
  e <= e' /\ e' - e <= Z.of_nat fuel
  /\ (e < e' -> e' <= contentSize d
      /\ exists c, m = Some c
                   /\ forall p, e <= p < e' -> textBetween d p (p + 1) = [c]).
Proof.
  revert e. induction fuel as [|fuel IH]; intros e; cbn [absorbRightLoop].
  - cbv zeta. repeat split; lia.
  - destruct (Z.ltb_spec e (contentSize d)) as [Hlt|]; [|cbv zeta; repeat split; lia].
    destruct (isMarker (textBetween d e (e + 1)) m) eqn:Hm;
      [|cbv zeta; repeat split; lia].
    specialize (IH (e + 1)). cbv zeta in *.
    destruct IH as (Hle & Hfuel & Hchars).
    split; [lia|]. split; [lia|]. intros _.
    apply isMarker_char in Hm as (c & Hc & Ht).
    destruct (Z.eq_dec (absorbRightLoop fuel d m (e + 1)) (e + 1)) as [E|Hne].
    + rewrite E. split; [lia|]. exists c. split; [exact Hc|].
      intros p Hp. now replace p with e by lia.
    + destruct Hchars as (H1 & c' & Hc' & Hall); [lia|].
      split; [exact H1|]. exists c. split; [exact Hc|].
      intros p Hp. destruct (Z.eq_dec p e) as [->|]; [exact Ht|].
      rewrite Hc in Hc'. injection Hc' as <-. apply Hall. lia.
Qed.

(** X8.  The span [collapseInlineReveal] works on extends the recorded one
    by at most [syntax.length] characters on each side, never past position
    1 or the end of the content, and every character it absorbs is the
    marker character [syntax[0]]. *)
Theorem absorbed_span_bounds (d : Doc) (rv : RevealState) :
  absorbedStart d rv <= start rv
  /\ start rv - absorbedStart d rv <= len (syntax rv)
  /\ end_ rv <= absorbedEnd d rv
  /\ absorbedEnd d rv - end_ rv <= len (syntax rv)
  /\ (absorbedStart d rv < start rv -> 1 <= absorbedStart d rv)
  /\ (end_ rv < absorbedEnd d rv -> absorbedEnd d rv <= contentSize d)
  /\ (absorbedStart d rv < start rv \/ end_ rv < absorbedEnd d rv ->
      exists c, markerCharOf (syntax rv) = Some c
                /\ forall p, absorbedStart d rv <= p < start rv
                             \/ end_ rv <= p < absorbedEnd d rv ->
                     textBetween d p (p + 1) = [c]).
Proof.
  unfold absorbedStart, absorbedEnd.
  pose proof (absorbLeft_spec (Z.to_nat (len (syntax rv))) d
                (markerCharOf (syntax rv)) (start rv)) as L.
  pose proof (absorbRight_spec (Z.to_nat (len (syntax rv))) d
                (markerCharOf (syntax rv)) (end_ rv)) as R.
  cbv zeta in L, R. destruct L as (L1 & L2 & L3). destruct R as (R1 & R2 & R3).
  pose proof (len_nonneg (syntax rv)).
  split; [lia|]. split; [lia|]. split; [lia|]. split; [lia|].
  split; [intros Hl; now apply L3|]. split; [intros Hr; now apply R3|].
  intros Hany.
  destruct (markerCharOf (syntax rv)) as [c|] eqn:Hc.
  1: {
    exists c. split; [reflexivity|]. intros p [Hp | Hp].
    - destruct L3 as (_ & c' & Hc' & Hall); [lia|].
      injection Hc' as <-. now apply Hall.
    - destruct R3 as (_ & c' & Hc' & Hall); [lia|].
      injection Hc' as <-. now apply Hall. }
  destruct Hany as [Hl | Hr].
  - destruct L3 as (_ & c' & Hc' & _); [exact Hl | discriminate].
  - destruct R3 as (_ & c' & Hc' & _); [exact Hr | discriminate].
Qed.

(** X9.  Collapsing leaves the text outside the absorbed span alone and
    removes from the span nothing but one delimiter at each end: the new
    text of the span is the old one, or the old one without the same run of
    one or two [*] or [_] at both ends.  The reveal is cleared. *)
Theorem collapse_removes_delimiters_only (e : EditorState) (g : Globals)
  (rv : RevealState) (pre x post : Doc) :
  _activeInlineReveal g = Some rv ->
  doc e = pre ++ x ++ post ->
  absorbedStart (doc e) rv = posAfter pre ->
  absorbedEnd (doc e) rv = posAfter (pre ++ x) ->
  exists delim mid,
    text x = delim ++ mid ++ delim
    /\ (delim = [] \/ exists c, (c = "*"%char \/ c = "_"%char)
                               /\ (delim = [c] \/ delim = [c; c]))
    /\ text (doc (fst (collapseInlineReveal e g)))
       = text pre ++ mid ++ text post
    /\ _activeInlineReveal (snd (collapseInlineReveal e g)) = None.
Proof.
  intros Hact Hdoc Hs He.
  assert (Hseg : textBetween (doc e) (absorbedStart (doc e) rv)
                   (absorbedEnd (doc e) rv) = text x).
  { rewrite Hs, He, Hdoc.
    replace (posAfter (pre ++ x)) with (posAfter pre + Z.of_nat (length x))
      by (unfold posAfter; rewrite length_app; lia).
    apply textBetween_mid. }
  assert (Hdel : delete (doc e) (absorbedStart (doc e) rv)
                   (absorbedEnd (doc e) rv) = pre ++ post).
  { rewrite Hs, He, Hdoc.
    replace (posAfter (pre ++ x)) with (posAfter pre + Z.of_nat (length x))
      by (unfold posAfter; rewrite length_app; lia).
    apply delete_mid. }
  unfold collapseInlineReveal. rewrite Hact, Hseg, Hdel, Hs.
  destruct (parseSegment (markName rv) (text x)) as [[ty inner]|] eqn:Hp.
  - destruct (parseSegment_inner _ _ _ _ Hp) as (Hne & (c & Hc & Hform) & _).
    rewrite (len_pos inner Hne). cbn [fst snd doc].
    assert (Ht : text (addMark
                         (removeMark (insertText (pre ++ post) inner (posAfter pre))
                            (posAfter pre) (posAfter pre + len inner) (other ty))
                         (posAfter pre) (posAfter pre + len inner) ty)
                 = text pre ++ inner ++ text post).
    { rewrite addMark_text, removeMark_text, insertText_at.
      now rewrite !text_app, text_styled. }
    destruct Hform as [[-> Hx] | [-> Hx]].
    + exists [c; c], inner. split; [exact Hx|]. split.
      * right. exists c. split; [exact Hc | now right].
      * split; [exact Ht | reflexivity].
    + exists [c], inner. split; [exact Hx|]. split.
      * right. exists c. split; [exact Hc | now left].
      * split; [exact Ht | reflexivity].
  - exists [], (text x). cbn [fst snd doc app]. split; [now rewrite app_nil_r|].
    split; [now left|]. split; [|reflexivity].
    rewrite insertText_at. now rewrite !text_app, text_styled.
Qed.

Lemma Forall2_same {A} (R : A -> A -> Prop) (l : list A) :
  (forall a, R a a) -> Forall2 R l l.
Proof. intros H. induction l; constructor; auto. Qed.

Lemma Forall2_map_r {A} (R : A -> A -> Prop) (f : A -> A) (l : list A) :
  (forall a, R a (f a)) -> Forall2 R l (map f l).
Proof. intros H. induction l; cbn; constructor; auto. Qed.

(** A range update changes a character into its image or leaves it. *)
Lemma mapRange_Forall2 (f : PChar -> PChar) (a b : nat) (d : Doc) :
  Forall2 (fun c c' => c' = c \/ c' = f c) d (mapRange f a b d).
Proof.
  unfold mapRange.
  assert (Hd : d = firstn a d ++ firstn (b - a) (skipn a d)
                   ++ skipn (a + (b - a)) d).
  { rewrite (Nat.add_comm a), <- skipn_skipn. now rewrite !firstn_skipn. }
  rewrite Hd at 1.
  apply Forall2_app; [apply Forall2_same; now left|].
  apply Forall2_app; [apply Forall2_map_r; now right|].
  apply Forall2_same; now left.
Qed.

Lemma Forall2_text (f : PChar -> PChar) (x y : Doc) :
  (forall c, fst (f c) = fst c) ->
  Forall2 (fun c c' => c' = c \/ c' = f c) x y -> text y = text x.
Proof.
  intros Hf H. unfold text. induction H as [|c c' x y Hc _ IH]; [reflexivity|].
  cbn [map]. rewrite IH. destruct Hc as [-> | ->]; [reflexivity | now rewrite Hf].
Qed.

(** X10.  [expandInlineReveal] on a range [pre | inner | post] with a
    non-empty [syntax].  When fewer than [syntax.length - 1] characters
    follow the range, reading the text after it
    ([doc.textBetween(range.to, range.to + syntax.length)]) throws and
    nothing is inserted.  When the read succeeds and the delimiters are
    not there yet, the function returns, and the document becomes the old
    one with [syntax] on each side of the range and nothing else added or
    removed; the two markers do not carry the mark of the candidate; the
    characters of the range keep their text and that mark; and the reveal
    recorded covers the markers and the range. *)
Theorem expand_inserts_markers (e : EditorState) (g : Globals) (c : Candidate)
  (pre inner post : Doc) :
  c_syntax c <> [] ->
  doc e = pre ++ inner ++ post ->
  c_range c = mkRange (posAfter pre) (posAfter (pre ++ inner)) ->
  (Z.of_nat (length post) + 1 < len (c_syntax c) ->
     expandInlineReveal e g c = None)
  /\ (delimitersPresent (doc e) (c_range c) (c_syntax c) = Some false ->
      exists left inner' right e' g',
        expandInlineReveal e g c = Some (e', g')
        /\ len (c_syntax c) <= Z.of_nat (length post) + 1
        /\ doc e' = pre ++ left ++ inner' ++ right ++ post
        /\ text left = c_syntax c /\ text right = c_syntax c
        /\ Forall (fun ch => hasMark (c_markName c) (snd ch) = false)
                  (left ++ right)
        /\ Forall2 (fun a b => fst b = fst a
                               /\ hasMark (c_markName c) (snd b)
                                  = hasMark (c_markName c) (snd a)) inner inner'
        /\ _activeInlineReveal g'
           = Some (mkReveal (c_markName c) (c_syntax c) (posAfter pre)
                     (posAfter (pre ++ left ++ inner' ++ right))
                     (Some (c_markName c)) (Some (len (c_syntax c)))
                     (Some (len (c_syntax c))))
        /\ _inlineRevealJustExpanded g' = true).
Proof.
  intros Hsyn Hdoc Hrange.
  assert (Hl : (len (c_syntax c) =? 0) = false).
  { apply Z.eqb_neq. unfold len. destruct (c_syntax c); [congruence|].
    cbn [length]. lia. }
  assert (Hsize : contentSize (doc e) - r_to (c_range c)
                  = Z.of_nat (length post) + 1).
  { rewrite Hdoc, Hrange. cbn [r_to]. unfold contentSize, posAfter.
    rewrite !length_app. unfold PChar in *. lia. }
  split.
  { intros Hshort. unfold expandInlineReveal. rewrite Hl.
    replace (delimitersPresent (doc e) (c_range c) (c_syntax c)) with (@None bool);
      [reflexivity|].
    symmetry. apply ExpandProps.delimitersPresent_returns. right. lia. }
  intros Habs.
  assert (Hroom : len (c_syntax c) <= Z.of_nat (length post) + 1).
  { destruct (Z_le_gt_dec (len (c_syntax c)) (Z.of_nat (length post) + 1))
      as [Hle|Hgt]; [exact Hle|].
    assert (Hnone : delimitersPresent (doc e) (c_range c) (c_syntax c) = None)
      by (apply ExpandProps.delimitersPresent_returns; right; lia).
    congruence. }
  unfold expandInlineReveal.
  rewrite Hl, Habs, Hrange. cbn [r_from r_to fst snd doc].
  set (sx := c_syntax c). set (k := c_markName c).
  rewrite Hdoc.
  rewrite (app_assoc pre inner post), insertText_at.
  set (m1 := marksAt ((pre ++ inner) ++ post) (posAfter (pre ++ inner))).
  rewrite <- (app_assoc pre inner), insertText_at.
  set (m2 := marksAt _ (posAfter pre)).
  set (fo := fun ch : PChar => (fst ch, setMark (other k) false (snd ch))).
  set (fk := fun ch : PChar => (fst ch, setMark k false (snd ch))).
  set (x0 := styled m2 sx ++ inner ++ styled m1 sx).
  (* the removal of the other mark *)
  assert (E1 : removeMark (pre ++ styled m2 sx ++ inner ++ styled m1 sx ++ post)
                 (posAfter pre) (posAfter (pre ++ inner)) (other k)
               = pre ++ mapRange fo 0 (length inner) x0 ++ post).
  { unfold removeMark. fold fo.
    replace (off (posAfter pre)) with (length pre + 0)%nat
      by (rewrite off_posAfter; lia).
    replace (off (posAfter (pre ++ inner))) with (length pre + length inner)%nat
      by (rewrite off_posAfter, length_app; lia).
    replace (pre ++ styled m2 sx ++ inner ++ styled m1 sx ++ post)
      with (pre ++ x0 ++ post) by (unfold x0; now rewrite <- !app_assoc).
    apply mapRange_inside; unfold x0; rewrite !length_app; lia. }
  rewrite E1.
  pose proof (mapRange_Forall2 fo 0 (length inner) x0) as F.
  unfold x0 in F at 1.
  apply Forall2_app_inv_l in F as (l1 & rest & Fl & Frest & Ex1).
  apply Forall2_app_inv_l in Frest as (i1 & r1 & Fi & Fr & Erest).
  rewrite Ex1, Erest.
  assert (Hfo : forall ch, fst (fo ch) = fst ch) by reflexivity.
  assert (Tl : text l1 = sx).
  { rewrite (Forall2_text fo _ _ Hfo Fl). apply text_styled. }
  assert (Tr : text r1 = sx).
  { rewrite (Forall2_text fo _ _ Hfo Fr). apply text_styled. }
  assert (Ti : text i1 = text inner) by apply (Forall2_text fo _ _ Hfo Fi).
  assert (Ll : length l1 = length sx) by (rewrite <- (length_text l1), Tl; reflexivity).
  assert (Lr : length r1 = length sx) by (rewrite <- (length_text r1), Tr; reflexivity).
  assert (Li : length i1 = length inner)
    by (rewrite <- (length_text i1), Ti; apply length_text).
  (* the removal of the mark from the opening marker *)
  assert (E2 : removeMark (pre ++ (l1 ++ i1 ++ r1) ++ post) (posAfter pre)
                 (posAfter pre + len sx) k
               = pre ++ map fk l1 ++ i1 ++ r1 ++ post).
  { unfold removeMark. fold fk.
    replace (off (posAfter pre + len sx)) with (length pre + length l1)%nat
      by (unfold off, posAfter, len; unfold PChar in *; lia).
    rewrite off_posAfter, <- !app_assoc. apply mapRange_mid. }
  rewrite E2.
  (* the removal of the mark from the closing marker *)
  assert (E3 : removeMark (pre ++ map fk l1 ++ i1 ++ r1 ++ post)
                 (posAfter (pre ++ inner) + len sx)
                 (posAfter (pre ++ inner) + 2 * len sx) k
               = pre ++ map fk l1 ++ i1 ++ map fk r1 ++ post).
  { unfold removeMark. fold fk.
    replace (off (posAfter (pre ++ inner) + len sx))
      with (length (pre ++ map fk l1 ++ i1))
      by (unfold off, posAfter, len; rewrite !length_app, length_map;
          unfold PChar in *; lia).
    replace (off (posAfter (pre ++ inner) + 2 * len sx))
      with (length (pre ++ map fk l1 ++ i1) + length r1)%nat
      by (unfold off, posAfter, len; rewrite !length_app, length_map;
          unfold PChar in *; lia).
    replace (pre ++ map fk l1 ++ i1 ++ r1 ++ post)
      with ((pre ++ map fk l1 ++ i1) ++ r1 ++ post)
      by now rewrite <- !app_assoc.
    rewrite mapRange_mid. now rewrite <- !app_assoc. }
  rewrite E3.
  exists (map fk l1), i1, (map fk r1).
  assert (Hfk : forall ch, hasMark k (snd (fk ch)) = false).
  { intros [a m]. unfold fk. cbn [snd]. now destruct k, m. }
  eexists. eexists.
  split; [reflexivity|].
  split; [exact Hroom|].
  cbn [doc].
  split; [reflexivity|].
  split; [unfold text; rewrite map_map; exact Tl|].
  split; [unfold text; rewrite map_map; exact Tr|].
  split.
  { apply Forall_app. split; apply Forall_map, Forall_forall; intros; apply Hfk. }
  split.
  { clear -Fi. induction Fi as [|a b x y Hab _ IH]; constructor; [|exact IH].
    destruct Hab as [-> | ->]; [now split|]. split; [reflexivity|].
    destruct a as [ch m]. unfold fo. cbn [snd]. now destruct k, m. }
  split; [|reflexivity].
  cbn [_activeInlineReveal setSyncing setJustExpanded setActive].
  do 2 f_equal.
  unfold posAfter, len. rewrite !length_app, !length_map.
  unfold PChar in *. lia.
Qed.


Lemma reconcile_keeps_reveal (e e' : EditorState) (g g' : Globals) (b : bool) :
  reconcileActiveBoldRevealMarks e g = (b, e', g') ->
  _activeInlineReveal g <> None -> _activeInlineReveal g' <> None.
Proof.
  unfold reconcileActiveBoldRevealMarks.
  destruct (_activeInlineReveal g) as [rv|] eqn:Hact; [|congruence].
  destruct (negb (MarkName_eqb (markName rv) bold));
    [intros [= <- <- <-] _; now rewrite Hact|].
  destruct (deriveShape _) as [[[t l] r]|];
    [|intros [= <- <- <-] _; now rewrite Hact].
  destruct (sameShape rv t l r); [intros [= <- <- <-] _; now rewrite Hact|].
  destruct (_ >? _); intros [= <- <- <-] _; [now rewrite Hact | discriminate].
Qed.

Lemma syncSelection_inside getMarkRange now e g tr rv :
  _activeInlineReveal g = Some rv ->
  selEmpty e = true ->
  start rv <= selFrom e <= end_ rv ->
  fst (syncSelection getMarkRange now e g tr) = e
  /\ _activeInlineReveal (snd (syncSelection getMarkRange now e g tr)) = Some rv.
Proof.
  intros Hact Hsel [Hlo Hhi]. unfold syncSelection.
  destruct (isNone tr && _); [now split|].
  rewrite Hact, Hsel.
  assert (H1 : (selFrom e >=? start rv) = true) by (rewrite Z.geb_leb; now apply Z.leb_le).
  assert (H2 : (selFrom e <=? end_ rv) = true) by now apply Z.leb_le.
  assert (H3 : (selFrom e <? start rv) = false) by (apply Z.ltb_ge; lia).
  assert (H4 : (selFrom e >? end_ rv) = false)
    by (rewrite Z.gtb_ltb; apply Z.ltb_ge; lia).
  rewrite H1, H2, H3, H4. cbn [andb orb negb].
  destruct (_inlineRevealJustExpanded g); cbn [andb fst snd]; now split.
Qed.

(** X11.  While a reveal is active and the caret, the selection being
    empty, stays within its span (the span remapped through the edit when
    the notification carries one), [syncInlineReveal] never inserts or
    removes a character, never moves the selection and never drops the
    reveal, whatever the notification is. *)
Theorem sync_stays_revealed_inside
  (getMarkRange : Doc -> Z -> MarkName -> option Range) (now : Z)
  (e : EditorState) (g : Globals) (tr : option Transaction) (rv : RevealState) :
  _activeInlineReveal g = Some rv ->
  selEmpty e = true ->
  match tr with
  | Some t => if t_docChanged t
              then start (remapReveal t rv) <= selFrom e <= end_ (remapReveal t rv)
              else start rv <= selFrom e <= end_ rv
  | None => start rv <= selFrom e <= end_ rv
  end ->
  text (doc (fst (syncInlineReveal getMarkRange now e g tr))) = text (doc e)
  /\ selFrom (fst (syncInlineReveal getMarkRange now e g tr)) = selFrom e
  /\ selTo (fst (syncInlineReveal getMarkRange now e g tr)) = selTo e
  /\ _activeInlineReveal (snd (syncInlineReveal getMarkRange now e g tr)) <> None.
Proof.
  intros Hact Hsel Hin.
  assert (Hg : _activeInlineReveal g <> None) by (rewrite Hact; discriminate).
  unfold syncInlineReveal.
  destruct (_syncingInlineReveal g).
  { cbn [fst snd]. repeat split. now destruct (trMeta tr). }
  destruct (isSourceMode g); [now repeat split|].
  destruct (trMeta tr); [now repeat split|].
  destruct tr as [t|]; cbn [trDocChanged].
  - destruct (t_docChanged t) eqn:Hdc.
    + change (_activeInlineReveal (setSuppress true g)) with (_activeInlineReveal g).
      rewrite Hact.
      set (g1 := setActive (Some (remapReveal t rv)) (setSuppress true g)).
      destruct (reconcileActiveBoldRevealMarks e g1) as [[changed e'] g'] eqn:Hr.
      destruct changed.
      * destruct (reconcile_once _ _ _ _ Hr) as (Ht & Hs1 & Hs2 & _).
        cbn [fst snd]. repeat split; try assumption.
        apply (reconcile_keeps_reveal _ _ _ _ _ Hr). discriminate.
      * destruct (syncSelection_inside getMarkRange now e g1 (Some t)
                    (remapReveal t rv) eq_refl Hsel Hin) as [He Ha].
        rewrite He, Ha. repeat split. discriminate.
    + destruct (syncSelection_inside getMarkRange now e g (Some t) rv Hact Hsel Hin)
        as [He Ha].
      assert (Hm : match _activeInlineReveal g with
                   | Some _ | _ => syncSelection getMarkRange now e g (Some t)
                   end = syncSelection getMarkRange now e g (Some t))
        by now destruct (_activeInlineReveal g).
      rewrite Hm, He, Ha. repeat split. discriminate.
  - destruct (syncSelection_inside getMarkRange now e g None rv Hact Hsel Hin)
      as [He Ha].
    assert (Hm : match _activeInlineReveal g with
                 | Some _ | _ => syncSelection getMarkRange now e g None
                 end = syncSelection getMarkRange now e g None)
      by now destruct (_activeInlineReveal g).
    rewrite Hm, He, Ha. repeat split. discriminate.
Qed.


End TransitionProps.

(** ** Moving between the search results *)

Module SearchNavProps.

Import Search SearchNav.

Lemma wrapIndex_mod (index n : Z) : 0 < n -> wrapIndex index n = index mod n.
Proof.
  intros Hn. unfold wrapIndex.
  assert (Hb : - n < Z.rem index n < n).
  { pose proof (Z.rem_bound_abs index n). lia. }
  assert (Hq : index = Z.rem index n + Z.quot index n * n).
  { pose proof (Z.quot_rem' index n). lia. }
  rewrite Z.rem_mod_nonneg by lia.
  replace (Z.rem index n + n) with (Z.rem index n + 1 * n) by lia.
  rewrite Z.mod_add by lia.
  rewrite Hq at 2. now rewrite Z.mod_add by lia.
Qed.

Lemma marks_count (s : SearchState) :
  searchMarks s <> [] ->
  (length (searchMarks s) =? 0)%nat = false
  /\ 0 < Z.of_nat (length (searchMarks s)).
Proof.
  intros H. destruct (searchMarks s); [congruence|]. cbn [length]. split; [reflexivity | lia].
Qed.

Lemma navigate_index (index : Z) (s : SearchState) :
  searchMarks s <> [] ->
  searchIndex (fst (navigateSearchResult index s))
  = index mod Z.of_nat (length (searchMarks s))
  /\ searchMarks (fst (navigateSearchResult index s)) = searchMarks s.
Proof.
  intros H. destruct (marks_count s H) as [Hz Hn].
  unfold navigateSearchResult. rewrite Hz. cbn [fst searchIndex searchMarks].
  split; [now apply wrapIndex_mod | reflexivity].
Qed.

(** X13.  With at least one match, [navigateSearchResult(index)] sets the
    current index to [index] modulo the number of matches, for negative
    requests too, and selects the match at that index, which exists; the
    matches stay as they are.  Hence the two arrow buttons undo each other,
    the next of the last match is the first and the previous of the first is
    the last. *)
Theorem navigate_wraps (index : Z) (s : SearchState) :
  searchMarks s <> [] ->
  let n := Z.of_nat (length (searchMarks s)) in
  searchIndex (fst (navigateSearchResult index s)) = index mod n
  /\ 0 <= searchIndex (fst (navigateSearchResult index s)) < n
  /\ (exists m, snd (navigateSearchResult index s) = Some m
                /\ nth_error (searchMarks s) (Z.to_nat (index mod n)) = Some m)
  /\ searchMarks (fst (navigateSearchResult index s)) = searchMarks s
  /\ (0 <= searchIndex s < n ->
      searchIndex (fst (searchPrev (fst (searchNext s)))) = searchIndex s
      /\ searchIndex (fst (searchNext (fst (searchPrev s)))) = searchIndex s
      /\ (searchIndex s = n - 1 -> searchIndex (fst (searchNext s)) = 0)
      /\ (searchIndex s = 0 -> searchIndex (fst (searchPrev s)) = n - 1)).
Proof.
  intros H n. destruct (marks_count s H) as [Hz Hn]. fold n in Hn.
  destruct (navigate_index index s H) as [Hi Hm]. fold n in Hi.
  pose proof (Z.mod_pos_bound index n Hn) as Hb.
  split; [exact Hi|]. split; [lia|]. split; [|split; [exact Hm|]].
  - unfold navigateSearchResult. rewrite Hz. cbn [snd].
    fold n. rewrite (wrapIndex_mod index n Hn).
    destruct (nth_error (searchMarks s) (Z.to_nat (index mod n))) as [m|] eqn:E.
    + now exists m.
    + apply nth_error_None in E. lia.
  - intros Hcur. unfold searchNext, searchPrev.
    destruct (navigate_index (searchIndex s + 1) s H) as [Hi1 Hm1].
    destruct (navigate_index (searchIndex s - 1) s H) as [Hi2 Hm2].
    fold n in Hi1, Hi2.
    assert (H1 : searchMarks (fst (navigateSearchResult (searchIndex s + 1) s)) <> [])
      by now rewrite Hm1.
    assert (H2 : searchMarks (fst (navigateSearchResult (searchIndex s - 1) s)) <> [])
      by now rewrite Hm2.
    repeat split.
    + destruct (navigate_index
                  (searchIndex (fst (navigateSearchResult (searchIndex s + 1) s)) - 1)
                  _ H1) as [Hi3 _].
      rewrite Hi3, Hm1, Hi1. fold n.
      rewrite Zminus_mod_idemp_l.
      replace (searchIndex s + 1 - 1) with (searchIndex s) by lia.
      now apply Z.mod_small.
    + destruct (navigate_index
                  (searchIndex (fst (navigateSearchResult (searchIndex s - 1) s)) + 1)
                  _ H2) as [Hi3 _].
      rewrite Hi3, Hm2, Hi2. fold n.
      rewrite Zplus_mod_idemp_l.
      replace (searchIndex s - 1 + 1) with (searchIndex s) by lia.
      now apply Z.mod_small.
    + intros Hlast. rewrite Hi1, Hlast.
      replace (n - 1 + 1) with n by lia. apply Z_mod_same_full.
    + intros Hfirst. rewrite Hi2, Hfirst.
      replace (0 - 1) with (n - 1 + (-1) * n) by lia.
      rewrite Z.mod_add by lia. apply Z.mod_small. lia.
Qed.

End SearchNavProps.

(** ** The ranges found by the editor search *)

Module SearchRangeProps.

Import JSFacts PMFacts ScanProps SearchProps Search Nodes.

Lemma runs_text (d : Doc) : concat (map snd (runs d)) = text d.
Proof.
  induction d as [|c d IH]; [reflexivity|].
  unfold text in *. cbn [runs map]. rewrite <- IH.
  destruct (runs d) as [|[m s] rest]; [reflexivity|].
  destruct (Marks_eqb (snd c) m); reflexivity.
Qed.

Lemma place_In (rs : list (Marks * jsstring)) (p pos : Z) (t : jsstring) :
  In (pos, t) (place p rs) ->
  exists a b, concat (map snd rs) = a ++ t ++ b /\ pos = p + len a.
Proof.
  revert p. induction rs as [|[m s] rs IH]; intros p; cbn [place In]; [tauto|].
  intros [E | Hin].
  - injection E as <- <-. exists [], (concat (map snd rs)).
    split; [reflexivity|]. cbn. lia.
  - destruct (IH _ Hin) as (a & b & E & Hp).
    exists (s ++ a), b. cbn [map snd concat]. rewrite E, <- app_assoc.
    split; [reflexivity|]. rewrite len_app. lia.
Qed.

(** Every text node is a piece of the text, at the position of its first
    character. *)
Lemma textNodes_In (d : Doc) (pos : Z) (t : jsstring) :
  In (pos, t) (textNodes d) ->
  exists a b, text d = a ++ t ++ b /\ pos = 1 + len a.
Proof.
  intros H. apply place_In in H as (a & b & E & Hp).
  rewrite runs_text in E. now exists a, b.
Qed.

(** X14.  With a character-wise case folding, every range the editor search
    returns lies within the text of the paragraph, is as long as the query,
    and covers characters that equal the query once both are folded. *)
Theorem search_marks_cover_query (lower : ascii -> ascii) (d : Doc)
  (query : jsstring) (m : Match) :
  In m (findAllMatches (map lower) d query) ->
  query <> []
  /\ 1 <= m_from m
  /\ m_to m = m_from m + len query
  /\ m_to m <= contentSize d - 1
  /\ map lower (textBetween d (m_from m) (m_to m)) = map lower query.
Proof.
  unfold findAllMatches.
  destruct (Z.eqb_spec (len query) 0) as [|Hlen]; [intros []|].
  assert (Hq : query <> []) by (intros ->; now apply Hlen).
  assert (Hlq : map lower query <> [])
    by (destruct query; [congruence | discriminate]).
  rewrite In_sortMatches, in_flat_map.
  intros ([pos t] & Hn & Hm). unfold nodeMatches in Hm.
  apply in_map_iff in Hm as (idx & <- & Hidx).
  rewrite (allIndexes_occurrences _ _ Hlq) in Hidx.
  apply In_occurrences in Hidx as [Hr Hs].
  rewrite Z.sub_0_r in Hs.
  apply startsWith_split in Hs as [r Hs].
  destruct (textNodes_In d pos t Hn) as (a & b & Ht & Hp).
  cbn [m_from m_to].
  pose proof (len_nonneg a) as Ha.
  assert (Hlt : len (map lower t) = len t) by (unfold len; now rewrite length_map).
  rewrite Hlt in Hr.
  rewrite skipn_map in Hs.
  assert (Hfit : (length query <= length (skipn (Z.to_nat idx) t))%nat).
  { apply (f_equal (@length ascii)) in Hs.
    rewrite length_map, length_app, length_map in Hs. lia. }
  assert (Hfit' : (Z.to_nat idx + length query <= length t)%nat).
  { rewrite length_skipn in Hfit. unfold len in Hr. lia. }
  split; [exact Hq|]. split; [lia|]. split; [reflexivity|]. split.
  - unfold contentSize. rewrite <- (length_text d), Ht, !length_app.
    unfold len in *. lia.
  - rewrite TransitionProps.textBetween_text, Ht.
    replace (off (pos + idx)) with (length a + Z.to_nat idx)%nat
      by (unfold off, len in *; lia).
    replace (off (pos + idx + len query) - (length a + Z.to_nat idx))%nat
      with (length query) by (unfold off, len in *; lia).
    rewrite skipn_pre_plus, skipn_app.
    replace (Z.to_nat idx - length t)%nat with 0%nat by lia.
    cbn [skipn]. rewrite firstn_app.
    replace (length query - length (skipn (Z.to_nat idx) t))%nat with 0%nat by lia.
    cbn [firstn]. rewrite app_nil_r, <- firstn_map, Hs.
    rewrite <- (length_map lower query). apply firstn_pre.
Qed.

End SearchRangeProps.

(** ** The walk from a text offset to a position *)

Module WalkProps.

Import JSFacts PMFacts ScanProps MapperProps Mapper Nodes.

Lemma walk_done (nodes : list (Z * jsstring)) (T tc pm : Z) :
  T <= tc -> walkNodes nodes T tc pm = pm.
Proof.
  intros H. induction nodes as [|[np t] nodes IH]; [reflexivity|].
  cbn [walkNodes]. destruct (Z.geb_spec tc T); [exact IH | lia].
Qed.

Lemma walk_place (rs : list (Marks * jsstring)) (p T pm : Z) :
  p < T <= p + len (concat (map snd rs)) ->
  walkNodes (place p rs) T p pm = T.
Proof.
  revert p pm. induction rs as [|[m s] rs IH]; intros p pm H.
  - cbn in H. lia.
  - cbn [place walkNodes]. cbn [map snd concat] in H. rewrite len_app in H.
    destruct (Z.geb_spec p T) as [|_]; [lia|].
    destruct (Z.geb_spec T p) as [_|]; [|lia].
    destruct (Z.leb_spec T (p + len s)) as [Hin|Hout]; cbn [andb].
    + rewrite walk_done by lia. lia.
    + apply IH. lia.
Qed.

(** The walk returns the text offset itself, while the position that
    follows [T] characters is [T + 1]. *)
Lemma pmPosOf_offset (d : Doc) (T : Z) :
  1 <= T <= Z.of_nat (length d) + 1 -> pmPosOf d T = T.
Proof.
  intros H. unfold pmPosOf.
  destruct (Z.geb_spec 0 T) as [|_]; [lia|].
  destruct (Z.eq_dec T 1) as [->|Hne].
  - now apply walk_done.
  - unfold textNodes. apply walk_place.
    rewrite SearchRangeProps.runs_text, len_text. lia.
Qed.

Lemma textBetween_all (d : Doc) : textBetween d 0 (contentSize d) = text d.
Proof.
  unfold textBetween, contentSize, off. cbn [Z.sub Z.opp Z.add Z.to_nat skipn].
  now rewrite firstn_all2 by lia.
Qed.

(** X15.  When the switch back from the source view finds an anchor that
    ends [T] characters into the text of the editor, the caret is placed at
    position [T]: the text before the caret holds [T - 1] characters, one
    less than the anchor end, because the walk counts the paragraph as one
    character before it reaches the text. *)
Theorem editor_caret_before_anchor_end (before : jsstring) (d : Doc)
  (approx T : Z) :
  anchorEnd before (textBetween d 0 (contentSize d)) approx = Some T ->
  3 <= T <= Z.of_nat (length d)
  /\ pmPosOf d T = T
  /\ editorCaret before d approx = T
  /\ textBetween d 0 (editorCaret before d approx)
     = firstn (Z.to_nat (T - 1)) (text d).
Proof.
  intros Ha.
  assert (Hkeep := Ha).
  rewrite textBetween_all in Ha. unfold anchorEnd in Ha.
  set (top := Z.min 30 (len before)) in *.
  pose proof (len_nonneg before) as Hnn.
  pose proof (keyLoop_spec before (text d) approx (Z.to_nat top) top) as H.
  rewrite Ha in H.
  destruct H as (K & idx & HK & He & Ho & _); [lia | lia |].
  destruct (sliceFrom_last before K) as [Hlen _]; [lia|].
  unfold occursAt in Ho.
  apply andb_true_iff in Ho as [Ho Hs]. apply andb_true_iff in Ho as [H0 H1].
  apply Z.leb_le in H0, H1.
  apply startsWith_split in Hs as [r Hs].
  apply (f_equal (@length ascii)) in Hs.
  rewrite length_skipn, length_app, length_text in Hs.
  rewrite len_text in H1. unfold len in Hlen.
  assert (HT : 3 <= T <= Z.of_nat (length d)) by lia.
  assert (Hp : pmPosOf d T = T) by (apply pmPosOf_offset; lia).
  assert (Hc : editorCaret before d approx = T).
  { unfold editorCaret. rewrite Hkeep, Hp.
    destruct (Z.gtb_spec (len before) 0); [|lia].
    unfold contentSize. lia. }
  split; [exact HT|]. split; [exact Hp|]. split; [exact Hc|].
  rewrite Hc, TransitionProps.textBetween_text. unfold off.
  cbn [Z.sub Z.opp Z.add Z.to_nat skipn]. now rewrite Nat.sub_0_r.
Qed.

End WalkProps.

(** ** The caret mapping of [toggleSourceMode] *)

Module CaretMappingProps.

Import JSFacts PMFacts ScanProps MapperProps WalkProps Mapper.




End CaretMappingProps.

(** ** The input rules *)

Module InputRuleProps.

Import JSFacts PMFacts CollapseProps InputRule.

Lemma insertTextStored_at (pre post : Doc) (m : Marks) (s : jsstring) :
  insertTextStored (pre ++ post) m s (posAfter pre) = pre ++ styled m s ++ post.
Proof.
  unfold insertTextStored. now rewrite off_posAfter, firstn_pre, skipn_pre.
Qed.

Lemma removeMark_mid (pre x post : Doc) (k : MarkName) :
  removeMark (pre ++ x ++ post) (posAfter pre)
    (posAfter pre + Z.of_nat (length x)) k
  = pre ++ map (fun c => (fst c, setMark k false (snd c))) x ++ post.
Proof.
  unfold removeMark. rewrite off_posAfter_plus, off_posAfter.
  apply mapRange_mid.
Qed.

Lemma addMark_mid (pre x post : Doc) (k : MarkName) :
  addMark (pre ++ x ++ post) (posAfter pre)
    (posAfter pre + Z.of_nat (length x)) k
  = pre ++ map (fun c => (fst c, setMark k true (snd c))) x ++ post.
Proof.
  unfold addMark. rewrite off_posAfter_plus, off_posAfter.
  apply mapRange_mid.
Qed.

Lemma unmark_styled (k : MarkName) (m : Marks) (s : jsstring) :
  map (fun c : PChar => (fst c, setMark k false (snd c))) (styled m s)
  = styled (setMark k false m) s.
Proof. unfold styled. rewrite map_map. reflexivity. Qed.

(** The marks taken by text inserted in front of a run marked [k] only
    hold nothing once [k] is removed. *)
Lemma marksAt_before_only (pre rest : Doc) (c : ascii) (k : MarkName) :
  setMark k false (marksAt (pre ++ (c, only k) :: rest) (posAfter pre))
  = noMarks.
Proof.
  unfold marksAt.
  assert (Ha : nodeAfter (pre ++ (c, only k) :: rest) (posAfter pre)
               = Some (c, only k)).
  { unfold nodeAfter, posAfter.
    destruct (Z.ltb_spec (1 + Z.of_nat (length pre)) 1); [lia|].
    replace (Z.to_nat (1 + Z.of_nat (length pre) - 1)) with (length pre) by lia.
    rewrite nth_error_app2, Nat.sub_diag by lia. reflexivity. }
  rewrite Ha.
  destruct (nodeBefore _ _) as [[a ma]|]; [|now destruct k].
  cbn [snd]. now destruct k, ma as [[] []].
Qed.

Lemma insertTextStored_eq (d pre post : Doc) (m : Marks) (s : jsstring) (p : Z) :
  d = pre ++ post -> p = posAfter pre ->
  insertTextStored d m s p = pre ++ styled m s ++ post.
Proof. intros -> ->. apply insertTextStored_at. Qed.

Lemma removeMark_eq (d pre x post : Doc) (a b : Z) (k : MarkName) :
  d = pre ++ x ++ post -> a = posAfter pre ->
  b = posAfter pre + Z.of_nat (length x) ->
  removeMark d a b k
  = pre ++ map (fun c => (fst c, setMark k false (snd c))) x ++ post.
Proof. intros -> -> ->. apply removeMark_mid. Qed.

Lemma addMark_eq (d pre x post : Doc) (a b : Z) (k : MarkName) :
  d = pre ++ x ++ post -> a = posAfter pre ->
  b = posAfter pre + Z.of_nat (length x) ->
  addMark d a b k
  = pre ++ map (fun c => (fst c, setMark k true (snd c))) x ++ post.
Proof. intros -> -> ->. apply addMark_mid. Qed.

(** The marks and the delimiters, once the range holds the inner text
    alone. *)
Lemma reveal_steps (pre inner post : Doc) (k : MarkName) (S : jsstring) :
  inner <> [] ->
  removeMark
    (removeMark
       (insertText
          (insertTextStored
             (addMark
                (removeMark (pre ++ inner ++ post) (posAfter pre)
                   (posAfter pre + Z.of_nat (length inner)) (other k))
                (posAfter pre) (posAfter pre + Z.of_nat (length inner)) k)
             noMarks S (posAfter pre + Z.of_nat (length inner)))
          S (posAfter pre))
       (posAfter pre) (posAfter pre + len S) k)
    (posAfter pre + Z.of_nat (length inner) + len S)
    (posAfter pre + Z.of_nat (length inner) + len S * 2) k
  = pre ++ plain S ++ styled (only k) (text inner) ++ plain S ++ post.
Proof.
  intros Hne.
  set (I := styled (only k) (text inner)).
  assert (HlI : length I = length inner)
    by (unfold I; now rewrite length_styled, length_text).
  assert (Hu : setMark k false noMarks = noMarks) by now destruct k.
  (* the inner text takes the mark [k] alone *)
  assert (E1 : addMark
                 (removeMark (pre ++ inner ++ post) (posAfter pre)
                    (posAfter pre + Z.of_nat (length inner)) (other k))
                 (posAfter pre) (posAfter pre + Z.of_nat (length inner)) k
               = pre ++ I ++ post).
  { rewrite removeMark_mid.
    etransitivity;
      [eapply (addMark_eq _ pre _ post); [reflexivity | reflexivity |];
       now rewrite length_map|].
    apply (f_equal (fun x => pre ++ x ++ post)).
    unfold I, styled, text. rewrite !map_map.
    apply map_ext. intros a. cbn [fst snd]. now rewrite setMark_only. }
  rewrite E1.
  (* the closing delimiter, with the stored marks *)
  assert (E2 : insertTextStored (pre ++ I ++ post) noMarks S
                 (posAfter pre + Z.of_nat (length inner))
               = pre ++ I ++ plain S ++ post).
  { etransitivity;
      [eapply (insertTextStored_eq _ (pre ++ I) post);
       [now rewrite <- app_assoc
       | unfold posAfter; rewrite length_app, HlI; lia]|].
    now rewrite <- app_assoc. }
  rewrite E2.
  (* the opening delimiter, with the marks around it *)
  rewrite insertText_at.
  set (m := marksAt _ (posAfter pre)).
  assert (Hm : setMark k false m = noMarks).
  { unfold m, I. destruct inner as [|[c mc] inner']; [congruence|].
    cbn [text map fst styled]. apply marksAt_before_only. }
  assert (E3 : removeMark (pre ++ styled m S ++ I ++ plain S ++ post)
                 (posAfter pre) (posAfter pre + len S) k
               = pre ++ plain S ++ I ++ plain S ++ post).
  { etransitivity;
      [eapply (removeMark_eq _ pre (styled m S) _);
       [reflexivity | reflexivity | now rewrite length_styled]|].
    now rewrite unmark_styled, Hm. }
  rewrite E3.
  etransitivity;
    [eapply (removeMark_eq _ (pre ++ plain S ++ I) (plain S) post);
     [now rewrite <- !app_assoc
     | unfold posAfter, plain, len; rewrite !length_app, length_map, HlI; lia
     | unfold posAfter, plain, len; rewrite !length_app, !length_map, HlI; lia]|].
  change (plain S) with (styled noMarks S).
  rewrite unmark_styled, Hu. now rewrite <- !app_assoc.
Qed.

(** X16.  When an input rule fires on a range that reads an opening
    delimiter, the inner text and what is already typed of the closing
    delimiter, the inner text first occurring in the match right after the
    opening delimiter, the document gets the [syntax] of the rule without
    any mark on both sides of the inner text, which carries the mark of the
    rule and no other; the caret stands behind the closing delimiter; and
    once the transaction is dispatched the state machine holds the reveal
    over delimiters and text, exactly as after an expansion. *)
Theorem input_rule_reveals
  (getMarkRange : Doc -> Z -> MarkName -> option Range) (now : Z) (r : Rule)
  (e : EditorState) (g : Globals) (pre left inner right post : Doc)
  (fullMatch : jsstring) :
  doc e = pre ++ left ++ inner ++ right ++ post ->
  inner <> [] ->
  indexOf fullMatch (text inner) 0 = Z.of_nat (length left) ->
  let S := ruleSyntax r in
  let k := ruleMark r in
  let caret := posAfter (pre ++ plain S ++ inner ++ plain S) in
  fire getMarkRange now r e g
    (mkRange (posAfter pre) (posAfter (pre ++ left ++ inner ++ right)))
    fullMatch (text inner)
  = Some (mkEditor (pre ++ plain S ++ styled (only k) (text inner)
                    ++ plain S ++ post) caret caret,
          setSyncing false (setJustExpanded true (setActive
            (Some (mkReveal k S (posAfter pre) caret (Some k)
                     (Some (len S)) (Some (len S)))) g))).
Proof.
  intros Hdoc Hne Hidx S k caret.
  assert (Hlen : (len (text inner) =? 0) = false).
  { apply Z.eqb_neq. rewrite len_text. destruct inner; [congruence|].
    cbn [length]. lia. }
  unfold fire, handler. fold S k. rewrite Hlen, Hidx.
  destruct (Z.ltb_spec (Z.of_nat (length left)) 0) as [|_]; [lia|].
  cbn [r_from r_to]. rewrite Hdoc, len_text.
  (* what is typed of the closing delimiter goes *)
  destruct (if posAfter pre + Z.of_nat (length left) + Z.of_nat (length inner)
               <? posAfter (pre ++ left ++ inner ++ right)
            then _ else _) as [d1 m1] eqn:E1.
  assert (Hd1 : d1 = pre ++ left ++ inner ++ post).
  { destruct (Z.ltb_spec
                (posAfter pre + Z.of_nat (length left) + Z.of_nat (length inner))
                (posAfter (pre ++ left ++ inner ++ right))) as [Hlt|Hge];
      injection E1 as <- _.
    - replace (posAfter pre + Z.of_nat (length left) + Z.of_nat (length inner))
        with (posAfter (pre ++ left ++ inner))
        by (unfold posAfter; rewrite !length_app; lia).
      replace (posAfter (pre ++ left ++ inner ++ right))
        with (posAfter (pre ++ left ++ inner) + Z.of_nat (length right))
        by (unfold posAfter; rewrite !length_app; lia).
      replace (pre ++ left ++ inner ++ right ++ post)
        with ((pre ++ left ++ inner) ++ right ++ post)
        by now rewrite <- !app_assoc.
      rewrite delete_mid. now rewrite <- !app_assoc.
    - assert (length right = 0%nat)
        by (unfold posAfter in Hge; rewrite !length_app in Hge; lia).
      destruct right; [reflexivity | discriminate]. }
  subst d1.
  (* the opening delimiter goes *)
  destruct (if posAfter pre + Z.of_nat (length left) >? posAfter pre
            then _ else _) as [d2 m2] eqn:E2.
  assert (Hd2 : d2 = pre ++ inner ++ post).
  { destruct (Z.gtb_spec (posAfter pre + Z.of_nat (length left)) (posAfter pre))
      as [Hgt|Hle]; injection E2 as <- _.
    - replace (pre ++ left ++ inner ++ post) with (pre ++ left ++ (inner ++ post))
        by reflexivity.
      apply delete_mid.
    - assert (length left = 0%nat) by lia.
      destruct left; [reflexivity | discriminate]. }
  subst d2.
  rewrite (reveal_steps pre inner post k S Hne).
  set (I := styled (only k) (text inner)).
  replace (posAfter pre + Z.of_nat (length inner) + len S * 2) with caret
    by (unfold caret, posAfter, plain, len; rewrite !length_app, !length_map; lia).
  (* the two notifications *)
  cbn [selFrom selTo].
  assert (Hsync : forall tr,
            syncInlineReveal getMarkRange now
              (mkEditor (pre ++ plain S ++ I ++ plain S ++ post) caret caret)
              (setSyncing true (setJustExpanded true (setActive
                 (Some (mkReveal k S (posAfter pre) caret (Some k)
                          (Some (len S)) (Some (len S)))) g))) tr
            = (mkEditor (pre ++ plain S ++ I ++ plain S ++ post) caret caret,
               if trMeta tr
               then setSyncing false (setSyncing true (setJustExpanded true
                      (setActive
                         (Some (mkReveal k S (posAfter pre) caret (Some k)
                                  (Some (len S)) (Some (len S)))) g)))
               else setSyncing true (setJustExpanded true (setActive
                      (Some (mkReveal k S (posAfter pre) caret (Some k)
                               (Some (len S)) (Some (len S)))) g)))).
  { intros tr. reflexivity. }
  destruct ((caret =? selFrom e) && (caret =? selTo e)).
  - rewrite Hsync. reflexivity.
  - rewrite Hsync. cbn [trMeta]. rewrite Hsync. reflexivity.
Qed.

End InputRuleProps.

(** ** The paragraph around the caret of the source view *)

Module SourceViewProps.

Import JSFacts SourceView.

Lemma startsWith_newline (t : jsstring) :
  startsWith t newline = match t with c :: _ => Ascii.eqb "010"%char c | [] => false end.
Proof.
  destruct t as [|c t]; [reflexivity|].
  unfold newline. cbn [startsWith]. rewrite startsWith_nil. apply andb_true_r.
Qed.

(** The forward search stops at the first line break. *)
Lemma indexOfAux_newline (t : jsstring) (i : Z) :
  (~ In "010"%char t /\ indexOfAux newline t i = -1)
  \/ (exists pre rest, t = pre ++ "010"%char :: rest /\ ~ In "010"%char pre
                       /\ indexOfAux newline t i = i + len pre).
Proof.
  revert i. induction t as [|c t IH]; intros i.
  - left. split; [intros [] | reflexivity].
  - cbn [indexOfAux]. rewrite startsWith_newline.
    destruct (Ascii.eqb_spec "010"%char c) as [<-|Hc].
    + right. exists [], t. split; [reflexivity|]. split; [intros []|].
      cbn. lia.
    + destruct (IH (i + 1)) as [[Hn E] | (pre & rest & -> & Hn & E)].
      * left. split; [|exact E]. intros [H|H]; [congruence | contradiction].
      * right. exists (c :: pre), rest. split; [reflexivity|]. split.
        -- intros [H|H]; [congruence | contradiction].
        -- rewrite E. unfold len. cbn [length]. lia.
Qed.

(** The backward search keeps the last line break of the window that ends
    at [start]. *)
Lemma lastIndexOfAux_newline (t : jsstring) (i start best : Z) :
  let w := firstn (Z.to_nat (start + 1 - i)) t in
  (~ In "010"%char w /\ lastIndexOfAux newline t i start best = best)
  \/ (exists pre mid, w = pre ++ "010"%char :: mid /\ ~ In "010"%char mid
                      /\ lastIndexOfAux newline t i start best = i + len pre).
Proof.
  revert i best. induction t as [|c t IH]; intros i best w; subst w.
  - left. rewrite firstn_nil. split; [intros []|].
    cbn [lastIndexOfAux]. rewrite startsWith_newline, andb_false_r. reflexivity.
  - cbn [lastIndexOfAux]. rewrite startsWith_newline.
    destruct (Z.leb_spec i start) as [Hle|Hgt]; cbn [andb].
    + replace (Z.to_nat (start + 1 - i)) with (S (Z.to_nat (start + 1 - (i + 1))))
        by lia.
      cbn [firstn].
      destruct (IH (i + 1) (if Ascii.eqb "010"%char c then i else best))
        as [[Hn E] | (pre & mid & Hw & Hn & E)].
      * destruct (Ascii.eqb_spec "010"%char c) as [<-|Hc].
        -- right. exists [], (firstn (Z.to_nat (start + 1 - (i + 1))) t).
           split; [reflexivity|]. split; [exact Hn|]. rewrite E. cbn. lia.
        -- left. split; [|exact E].
           intros [H|H]; [congruence | contradiction].
      * right. exists (c :: pre), mid. rewrite Hw.
        split; [reflexivity|]. split; [exact Hn|].
        rewrite E. unfold len. cbn [length]. lia.
    + replace (Z.to_nat (start + 1 - i)) with 0%nat by lia.
      cbn [firstn]. left. split; [intros []|].
      destruct (IH (i + 1) best) as [[_ E] | (pre & mid & Hw & _)].
      * exact E.
      * replace (Z.to_nat (start + 1 - (i + 1))) with 0%nat in Hw by lia.
        cbn [firstn] in Hw. destruct pre; discriminate.
Qed.

Lemma substring_mid (P X R : jsstring) :
  substring (P ++ X ++ R) (len P) (len P + len X) = X.
Proof.
  unfold substring. rewrite !len_app.
  pose proof (len_nonneg P). pose proof (len_nonneg X). pose proof (len_nonneg R).
  assert (Ha : Z.max 0 (Z.min (len P) (len P + (len X + len R))) = len P) by lia.
  assert (Hb : Z.max 0 (Z.min (len P + len X) (len P + (len X + len R)))
               = len P + len X) by lia.
  rewrite Ha, Hb.
  replace (Z.min (len P) (len P + len X)) with (len P) by lia.
  replace (Z.max (len P) (len P + len X)) with (len P + len X) by lia.
  replace (Z.to_nat (len P + len X - len P)) with (length X) by (unfold len; lia).
  replace (Z.to_nat (len P)) with (length P) by (unfold len; lia).
  now rewrite PMFacts.skipn_pre, PMFacts.firstn_pre.
Qed.

(** X17.  For a caret within the text of the source view, the bounds
    [updateSourceLineHighlight] computes enclose the caret and delimit
    exactly its line: no line break between them, a line break or the start
    of the text right before, a line break or the end of the text right
    after.  The one exception is a caret at offset 0 of a text that starts
    with a line break, where the bounds come out as 1 and 0. *)
Theorem paragraph_bounds (text : jsstring) (caretPos : Z) :
  0 <= caretPos <= len text ->
  if (caretPos =? 0) && startsWith text newline
  then paragraphBounds text caretPos = (1, 0)
  else exists before line after,
         text = before ++ line ++ after
         /\ paragraphBounds text caretPos = (len before, len before + len line)
         /\ len before <= caretPos <= len before + len line
         /\ ~ In "010"%char line
         /\ substring text (len before) (len before + len line) = line
         /\ (before = [] \/ exists b, before = b ++ ["010"%char])
         /\ (after = [] \/ exists a, after = "010"%char :: a).
Proof.
  intros Hc. unfold paragraphBounds, lastIndexOf, indexOf.
  pose proof (len_nonneg text) as Hnn.
  replace (Z.max 0 (Z.min caretPos (len text))) with caretPos by lia.
  change (len newline) with 1.
  destruct (Z.eqb_spec caretPos 0) as [->|Hne]; cbn [andb].
  - (* the caret at the very start *)
    cbn [Z.to_nat skipn].
    replace (Z.max 0 (Z.min (0 - 1) (len text - 1))) with 0 by lia.
    destruct text as [|c t].
    + cbn. exists [], [], []. cbn. repeat split; try lia; try tauto.
    + rewrite startsWith_newline.
      cbn [lastIndexOfAux indexOfAux]. rewrite !startsWith_newline.
      change (0 <=? 0) with true. cbn [andb].
      destruct (lastIndexOfAux_newline t (0 + 1) 0 (if Ascii.eqb "010"%char c then 0 else -1))
        as [[_ E] | (pre & mid & Hw & _)];
        [|cbn in Hw; destruct pre; discriminate].
      rewrite E.
      destruct (Ascii.eqb_spec "010"%char c) as [<-|Hnc]; [reflexivity|].
      destruct (indexOfAux_newline t (0 + 1)) as [[Hn Ei] | (p2 & rest & -> & Hn & Ei)];
        rewrite Ei.
      * exists [], (c :: t), [].
        split; [now rewrite app_nil_r|]. split; [reflexivity|].
        change (len []) with 0.
        split; [lia|]. split.
        { intros [H|H]; [congruence | contradiction]. }
        split; [|split; now left].
        pose proof (substring_mid [] (c :: t) []) as Hs.
        cbn [app] in Hs. rewrite app_nil_r in Hs. exact Hs.
      * pose proof (len_nonneg p2).
        destruct (Z.eqb_spec (0 + 1 + len p2) (-1)); [lia|].
        assert (Hl : len (c :: p2) = 0 + 1 + len p2)
          by (unfold len; cbn [length]; lia).
        exists [], (c :: p2), ("010"%char :: rest).
        split; [reflexivity|]. change (len []) with 0.
        split; [now rewrite Hl|]. split; [lia|]. split.
        { intros [Hx|Hx]; [congruence | contradiction]. }
        split; [|split; [now left | right; now exists rest]].
        apply (substring_mid [] (c :: p2) ("010"%char :: rest)).
  - (* a caret behind at least one character *)
    replace (Z.max 0 (Z.min (caretPos - 1) (len text - 1))) with (caretPos - 1) by lia.
    assert (Hsplit : text = firstn (Z.to_nat caretPos) text
                            ++ skipn (Z.to_nat caretPos) text)
      by now rewrite firstn_skipn.
    assert (Hlw : len (firstn (Z.to_nat caretPos) text) = caretPos).
    { unfold len in *. rewrite length_firstn. lia. }
    pose proof (lastIndexOfAux_newline text 0 (caretPos - 1) (-1)) as Hl.
    cbv zeta in Hl.
    replace (caretPos - 1 + 1 - 0) with caretPos in Hl by lia.
    pose proof (indexOfAux_newline (skipn (Z.to_nat caretPos) text) caretPos) as Hi.
    (* the part of the line before the caret *)
    assert (Hleft : exists before mid,
               firstn (Z.to_nat caretPos) text = before ++ mid
               /\ ~ In "010"%char mid
               /\ lastIndexOfAux newline text 0 (caretPos - 1) (-1) + 1 = len before
               /\ (before = [] \/ exists b, before = b ++ ["010"%char])).
    { destruct Hl as [[Hn E] | (pre & mid & Hw & Hn & E)].
      - exists [], (firstn (Z.to_nat caretPos) text).
        split; [reflexivity|]. split; [exact Hn|]. rewrite E.
        split; [reflexivity | now left].
      - exists (pre ++ ["010"%char]), mid. rewrite Hw, <- app_assoc.
        split; [reflexivity|]. split; [exact Hn|]. rewrite E, len_app.
        split; [reflexivity|]. right. now exists pre. }
    (* the part behind the caret *)
    assert (Hright : exists tail after,
               skipn (Z.to_nat caretPos) text = tail ++ after
               /\ ~ In "010"%char tail
               /\ (if indexOfAux newline (skipn (Z.to_nat caretPos) text) caretPos
                      =? -1
                   then len text
                   else indexOfAux newline (skipn (Z.to_nat caretPos) text) caretPos)
                  = caretPos + len tail
               /\ (after = [] \/ exists a, after = "010"%char :: a)).
    { destruct Hi as [[Hn E] | (p2 & rest & Hs & Hn & E)]; rewrite E.
      - exists (skipn (Z.to_nat caretPos) text), [].
        rewrite app_nil_r. split; [reflexivity|]. split; [exact Hn|].
        change (-1 =? -1) with true. cbv iota. split; [|now left].
        unfold len in *. rewrite length_skipn. lia.
      - exists p2, ("010"%char :: rest). split; [exact Hs|]. split; [exact Hn|].
        pose proof (len_nonneg p2).
        destruct (Z.eqb_spec (caretPos + len p2) (-1)); [lia|].
        split; [reflexivity|]. right. now exists rest. }
    destruct Hleft as (before & mid & Hf & Hnm & Ea & Hb).
    destruct Hright as (tail & after & Hs & Hnt & Eb & Haf).
    rewrite Ea, Eb.
    assert (Hcar : caretPos = len before + len mid)
      by (rewrite <- Hlw, Hf, len_app; reflexivity).
    assert (Htext : text = before ++ (mid ++ tail) ++ after).
    { rewrite Hsplit at 1. rewrite Hf, Hs. now rewrite <- !app_assoc. }
    exists before, (mid ++ tail), after.
    pose proof (len_nonneg mid). pose proof (len_nonneg tail).
    rewrite len_app.
    split; [exact Htext|]. split; [f_equal; lia|]. split; [lia|]. split.
    { intros Hx. apply in_app_or in Hx as [Hx|Hx]; contradiction. }
    split; [|split; assumption].
    rewrite Htext at 1. rewrite <- len_app. apply substring_mid.
Qed.

End SourceViewProps.

(** ** The main process *)

Module MainProcessProps.

Import JSFacts MainProcess.

Lemma endsWith_length (s p : jsstring) :
  endsWith s p = true -> (length p <= length s)%nat.
Proof.
  unfold endsWith. intros H. apply andb_true_iff in H as [H _].
  now apply Nat.leb_le.
Qed.

Lemma replaceSuffix_app (r suffix by_ : jsstring) :
  replaceSuffix (r ++ suffix) suffix by_ = r ++ by_.
Proof.
  unfold replaceSuffix. rewrite endsWith_app, length_app.
  replace (length r + length suffix - length suffix)%nat with (length r) by lia.
  now rewrite PMFacts.firstn_pre.
Qed.

Lemma chatSuffix_kept (s : jsstring) :
  endsWith s chatSuffix = true -> openAIEndpoint s = s.
Proof.
  intros H. unfold openAIEndpoint.
  pose proof (endsWith_length _ _ H) as Hl. change (length chatSuffix) with 17%nat in Hl.
  destruct (Z.eqb_spec (len s) 0) as [E|_]; [unfold len in E; lia|].
  rewrite H. cbn [negb andb]. now rewrite andb_false_r.
Qed.

(** X18.  The endpoint [_callOpenAI] requests always ends with
    [/chat/completions], and normalising is idempotent.  The default is used
    for an absent base URL; a URL that ends with [/completions] gets that end
    replaced; any other URL gets the suffix appended, after one trailing
    slash is dropped. *)
Theorem openAIEndpoint_normalised (baseUrl : jsstring) :
  endsWith (openAIEndpoint baseUrl) chatSuffix = true
  /\ openAIEndpoint (openAIEndpoint baseUrl) = openAIEndpoint baseUrl
  /\ (baseUrl = [] -> openAIEndpoint baseUrl = defaultEndpoint)
  /\ (endsWith baseUrl chatSuffix = true -> openAIEndpoint baseUrl = baseUrl)
  /\ (forall r, baseUrl = r ++ str "/completions" ->
        endsWith baseUrl chatSuffix = false ->
        openAIEndpoint baseUrl = r ++ chatSuffix)
  /\ (forall r, baseUrl = r ++ str "/" ->
        openAIEndpoint baseUrl = r ++ chatSuffix)
  /\ (baseUrl <> [] ->
      endsWith baseUrl (str "/completions") = false ->
      endsWith baseUrl (str "/") = false ->
      openAIEndpoint baseUrl = baseUrl ++ chatSuffix).
Proof.
  assert (Hends : endsWith (openAIEndpoint baseUrl) chatSuffix = true).
  { unfold openAIEndpoint.
    destruct (Z.eqb_spec (len baseUrl) 0) as [_|Hne]; [reflexivity|].
    destruct (Z.eqb_spec (len baseUrl) 0) as [|_]; [contradiction|].
    cbn [negb andb].
    destruct (endsWith baseUrl chatSuffix) eqn:Hc; cbn [negb]; [exact Hc|].
    destruct (endsWith baseUrl (str "/completions")) eqn:Hk.
    - apply endsWith_split in Hk as [r ->].
      rewrite replaceSuffix_app. apply endsWith_app.
    - apply endsWith_app. }
  split; [exact Hends|]. split; [now apply chatSuffix_kept|].
  split; [intros ->; reflexivity|]. split; [apply chatSuffix_kept|].
  assert (Hlen : forall r x, x <> [] -> (len (r ++ x) =? 0) = false).
  { intros r x Hx. apply Z.eqb_neq. rewrite len_app.
    pose proof (len_nonneg r). destruct x; [congruence|].
    unfold len. cbn [length]. lia. }
  split; [|split].
  - intros r -> Hc. unfold openAIEndpoint.
    rewrite Hlen by discriminate. rewrite Hlen by discriminate.
    rewrite Hc, endsWith_app. cbn [negb andb].
    apply replaceSuffix_app.
  - intros r ->. unfold openAIEndpoint.
    rewrite Hlen by discriminate. rewrite Hlen by discriminate.
    cbn [negb andb].
    assert (Hc : endsWith (r ++ str "/") chatSuffix = false).
    { destruct (endsWith (r ++ str "/") chatSuffix) eqn:E; [|reflexivity].
      apply endsWith_split in E as [q E].
      apply (f_equal (@rev ascii)) in E. rewrite !rev_app_distr in E.
      discriminate. }
    assert (Hk : endsWith (r ++ str "/") (str "/completions") = false).
    { destruct (endsWith (r ++ str "/") (str "/completions")) eqn:E; [|reflexivity].
      apply endsWith_split in E as [q E].
      apply (f_equal (@rev ascii)) in E. rewrite !rev_app_distr in E.
      discriminate. }
    rewrite Hc, Hk. cbn [negb]. now rewrite replaceSuffix_app, app_nil_r.
  - intros Hne Hk Hs. unfold openAIEndpoint.
    assert (Hl : (len baseUrl =? 0) = false).
    { apply Z.eqb_neq. destruct baseUrl; [congruence|].
      unfold len. cbn [length]. lia. }
    rewrite Hl. rewrite Hl. cbn [negb andb].
    assert (Hc : endsWith baseUrl chatSuffix = false).
    { destruct (endsWith baseUrl chatSuffix) eqn:E; [|reflexivity].
      apply endsWith_split in E as [q ->].
      change chatSuffix with (str "/chat" ++ str "/completions") in Hk.
      now rewrite app_assoc, endsWith_app in Hk. }
    rewrite Hc, Hk. cbn [negb]. unfold replaceSuffix. now rewrite Hs.
Qed.

Lemma NoDup_firstn {A} (n : nat) (l : list A) : NoDup l -> NoDup (firstn n l).
Proof.
  intros H. rewrite <- (firstn_skipn n l) in H.
  now apply NoDup_app_remove_r in H.
Qed.

Lemma In_firstn {A} (n : nat) (l : list A) (x : A) :
  In x (firstn n l) -> In x l.
Proof.
  intros H. rewrite <- (firstn_skipn n l). apply in_or_app. now left.
Qed.

Lemma pushRecent_spec (n : nat) (p : jsstring) (recent : list jsstring) :
  (0 < n)%nat ->
  hd_error (pushRecent n p recent) = Some p
  /\ (length (pushRecent n p recent) <= n)%nat
  /\ (NoDup recent -> NoDup (pushRecent n p recent))
  /\ ~ In p (tl (pushRecent n p recent))
  /\ (forall f, In f (pushRecent n p recent) -> f = p \/ In f recent)
  /\ ((length recent < n)%nat ->
      forall f, In f recent -> In f (pushRecent n p recent))
  /\ (forall a b before mid after,
        tl (pushRecent n p recent) = before ++ a :: mid ++ b :: after ->
        exists before' mid' after',
          recent = before' ++ a :: mid' ++ b :: after').
Proof.
  intros Hn. unfold pushRecent.
  set (kept := filter (fun f => negb (eqb f p)) recent).
  assert (Hkept : forall f, In f kept <-> In f recent /\ f <> p).
  { intros f. unfold kept. rewrite filter_In. apply and_iff_compat_l.
    rewrite negb_true_iff. split.
    - intros E ->. now rewrite eqb_refl in E.
    - intros Hne. destruct (eqb f p) eqn:E; [|reflexivity].
      apply eqb_eq in E. contradiction. }
  destruct n as [|n]; [lia|]. cbn [firstn hd_error tl].
  split; [reflexivity|]. split.
  { cbn [length]. rewrite length_firstn. lia. }
  split.
  { intros Hnd. constructor.
    - intros H. apply In_firstn, Hkept in H. now destruct H.
    - apply NoDup_firstn. unfold kept. now apply NoDup_filter. }
  split.
  { intros H. apply In_firstn, Hkept in H. now destruct H. }
  split.
  { intros f [<-|H]; [now left|]. right. now apply In_firstn, Hkept in H. }
  split.
  { intros Hlen f Hf. destruct (list_eq_dec ascii_dec f p) as [->|Hne]; [now left|].
    right. rewrite firstn_all2.
    - apply Hkept. now split.
    - pose proof (filter_length_le (fun f => negb (eqb f p)) recent).
      fold kept in H. lia. }
  intros a b before mid after E.
  assert (Hsub : exists rest, kept = before ++ a :: mid ++ b :: (after ++ rest)).
  { exists (skipn n kept). rewrite <- (firstn_skipn n kept) at 1. rewrite E.
    rewrite <- app_assoc. cbn [app]. rewrite <- app_assoc. reflexivity. }
  destruct Hsub as [rest Hsub]. clear E.
  generalize dependent (after ++ rest). intros tail. unfold kept. clear kept Hkept.
  revert before. induction recent as [|x recent IH]; intros before E.
  - destruct before; discriminate.
  - cbn [filter] in E. destruct (negb (eqb x p)).
    + destruct before as [|y before]; cbn [app] in E.
      * injection E as <- E.
        assert (Hb : In b (filter (fun f => negb (eqb f p)) recent))
          by (rewrite E; apply in_or_app; right; now left).
        apply filter_In in Hb as [Hb _].
        apply in_split in Hb as (l1 & l2 & ->).
        exists [], l1, l2. reflexivity.
      * injection E as <- E.
        destruct (IH _ E) as (b' & m' & a' & ->).
        exists (x :: b'), m', a'. reflexivity.
    + destruct (IH _ E) as (b' & m' & a' & ->).
      exists (x :: b'), m', a'. reflexivity.
Qed.

(** X19.  The list of recent files always starts with the file just
    opened, holds it once, has at most ten entries and nothing but that file
    and former entries, in their former order; it has no duplicate if the
    former list had none, and loses a former entry only when the limit is
    reached.  The list of recent folders behaves alike, with a limit of five
    and an absent list taken as empty. *)
Theorem recent_lists (path : jsstring) (recent : list jsstring) :
  (hd_error (addRecentFile path recent) = Some path
   /\ (length (addRecentFile path recent) <= 10)%nat
   /\ (NoDup recent -> NoDup (addRecentFile path recent))
   /\ ~ In path (tl (addRecentFile path recent))
   /\ (forall f, In f (addRecentFile path recent) -> f = path \/ In f recent)
   /\ ((length recent < 10)%nat ->
       forall f, In f recent -> In f (addRecentFile path recent))
   /\ (forall a b before mid after,
         tl (addRecentFile path recent) = before ++ a :: mid ++ b :: after ->
         exists before' mid' after',
           recent = before' ++ a :: mid' ++ b :: after'))
  /\ (hd_error (addRecentFolder path (Some recent)) = Some path
      /\ (length (addRecentFolder path (Some recent)) <= 5)%nat
      /\ (NoDup recent -> NoDup (addRecentFolder path (Some recent)))
      /\ ~ In path (tl (addRecentFolder path (Some recent)))
      /\ (forall f, In f (addRecentFolder path (Some recent)) ->
            f = path \/ In f recent)
      /\ ((length recent < 5)%nat ->
          forall f, In f recent -> In f (addRecentFolder path (Some recent)))
      /\ (forall a b before mid after,
            tl (addRecentFolder path (Some recent))
            = before ++ a :: mid ++ b :: after ->
            exists before' mid' after',
              recent = before' ++ a :: mid' ++ b :: after'))
  /\ addRecentFolder path None = [path].
Proof.
  split; [|split].
  - apply (pushRecent_spec 10 path recent). lia.
  - apply (pushRecent_spec 5 path recent). lia.
  - reflexivity.
Qed.

End MainProcessProps.

(** ** Replacing the current match *)

Module SearchReplaceProps.

Import JSFacts PMFacts ScanProps SearchProps Search SearchNav SearchReplace.




End SearchReplaceProps.

(** ** The search highlight plugin *)

Module SearchHighlightProps.

Import Search SearchHighlight.

Lemma mapPos_insertion (p n x : Z) :
  mapPos [(p, 0, n)] x 1 = if x <? p then x else x + n.
Proof.
  unfold mapPos. cbn [fold_left mapStep].
  destruct (Z.ltb_spec x p); [reflexivity|].
  change (0 =? 0) with true. cbv iota.
  change (1 <? 0) with false. cbv iota.
  destruct (Z.leb_spec x (p + 0)); lia.
Qed.

Lemma mapPos_deletion (p k x : Z) :
  0 < k ->
  mapPos [(p, k, 0)] x 1 = if x <? p then x else if x <=? p + k then p else x - k.
Proof.
  intros Hk. unfold mapPos. cbn [fold_left mapStep].
  destruct (Z.ltb_spec x p); [reflexivity|].
  destruct (Z.leb_spec x (p + k)); [|lia].
  destruct (Z.eqb_spec k 0); [lia|].
  destruct (x =? p); [change (-1 <? 0) with true; cbv iota; lia|].
  destruct (x =? p + k); change (1 <? 0) with false; cbv iota; lia.
Qed.

Lemma filter_all {A} (f : A -> bool) (l : list A) :
  (forall x, In x l -> f x = true) -> filter f l = l.
Proof.
  induction l as [|a l IH]; intros H; [reflexivity|]. cbn [filter].
  rewrite (H a (or_introl eq_refl)). f_equal. apply IH.
  intros x Hx. apply H. now right.
Qed.

(** X21.  With highlights that are not empty, an edit that inserts [n]
    characters at position [p] never drops a highlight: one that ends before
    [p] stays, one that starts at or after [p] moves by [n], and one that
    [p] falls in, its end included, grows by [n].  An edit that deletes the
    [k] characters from [p] on drops exactly the highlights that lay within
    the deleted range; the others keep the part of them that is left.  The
    active index is kept in both cases. *)
Theorem highlight_follows_edit (prev : HighlightState) (p n : Z) :
  0 < n ->
  matches prev <> [] ->
  (forall m, In m (matches prev) -> m_from m < m_to m) ->
  (matches (apply None (mkTr false true [(p, 0, n)]) prev)
   = map (fun m => mkMatch (if m_from m <? p then m_from m else m_from m + n)
                     (if m_to m <? p then m_to m else m_to m + n))
       (matches prev)
   /\ activeIndex (apply None (mkTr false true [(p, 0, n)]) prev)
      = activeIndex prev)
  /\ (forall m, In m (matches (apply None (mkTr false true [(p, n, 0)]) prev))
      <-> exists m0, In m0 (matches prev)
                     /\ ~ (p <= m_from m0 /\ m_to m0 <= p + n)
                     /\ m = mkMatch
                              (if m_from m0 <? p then m_from m0
                               else if m_from m0 <=? p + n then p
                               else m_from m0 - n)
                              (if m_to m0 <? p then m_to m0
                               else if m_to m0 <=? p + n then p
                               else m_to m0 - n))
  /\ activeIndex (apply None (mkTr false true [(p, n, 0)]) prev)
     = activeIndex prev.
Proof.
  intros Hn Hne Hpos.
  assert (Hcount : (0 <? length (matches prev))%nat = true).
  { destruct (matches prev); [congruence | reflexivity]. }
  unfold apply. cbn [t_docChanged t_mapping]. rewrite Hcount. cbn [andb matches activeIndex].
  split; [split; [|reflexivity] | split; [|reflexivity]].
  - rewrite filter_all.
    + apply map_ext. intros m. now rewrite !mapPos_insertion.
    + intros x Hx. apply in_map_iff in Hx as (m & <- & Hm).
      cbn [m_from m_to]. rewrite !mapPos_insertion.
      specialize (Hpos m Hm). apply Z.ltb_lt.
      destruct (Z.ltb_spec (m_from m) p), (Z.ltb_spec (m_to m) p); lia.
  - intros m. rewrite filter_In, in_map_iff. split.
    + intros [(m0 & <- & Hm0) Hlt]. cbn [m_from m_to] in Hlt.
      rewrite !(mapPos_deletion _ _ _ Hn) in Hlt |- *.
      exists m0. split; [exact Hm0|]. split; [|reflexivity].
      apply Z.ltb_lt in Hlt. specialize (Hpos m0 Hm0). intros [H1 H2].
      destruct (Z.ltb_spec (m_from m0) p); [lia|].
      destruct (Z.leb_spec (m_from m0) (p + n)); [|lia].
      destruct (Z.ltb_spec (m_to m0) p); [lia|].
      destruct (Z.leb_spec (m_to m0) (p + n)); lia.
    + intros (m0 & Hm0 & Hout & ->). split.
      * exists m0. split; [|exact Hm0].
        now rewrite !(mapPos_deletion _ _ _ Hn).
      * cbn [m_from m_to]. apply Z.ltb_lt. specialize (Hpos m0 Hm0).
        destruct (Z.ltb_spec (m_from m0) p);
          destruct (Z.ltb_spec (m_to m0) p); try lia;
          destruct (Z.leb_spec (m_to m0) (p + n)); try lia;
          destruct (Z.leb_spec (m_from m0) (p + n)); lia.
Qed.

End SearchHighlightProps.

(** ** Instances *)

Module ExtraChecks.

Import Samples ExtraSamples Search.

Lemma stream_chunking_witness :
  AIService.streamRequest (fun s => s) (fun l => Some l) asciiToString
    (AIService.Response 200 :: map AIService.Data twoChunks ++ [AIService.End])
  = AIService.streamRequest (fun s => s) (fun l => Some l) asciiToString
      [AIService.Response 200; AIService.Data (concat twoChunks); AIService.End].
Proof.
  apply (proj1 (AIServiceProps.stream_chunking (fun s => s) (fun l => Some l)
                  asciiToString 200 twoChunks [AIService.End] eq_refl)).
Defined.

(** The two chunks resolve with the texts of the two lines; an error of the
    request after the first chunk rejects, and so does a timeout before any
    response. *)
Lemma stream_runs :
  AIService.promise
    (AIService.streamRequest (fun s => s) (fun l => Some l) asciiToString
       (AIService.Response 200 :: map AIService.Data twoChunks ++ [AIService.End]))
  = Some (AIService.Resolved (str "abcd"))
  /\ AIService.chunksOut
       (AIService.stream
          (AIService.streamRequest (fun s => s) (fun l => Some l) asciiToString
             (AIService.Response 200 :: map AIService.Data twoChunks
              ++ [AIService.End])))
     = [str "abc"; str "d"]
  /\ AIService.promise
       (AIService.streamRequest (fun s => s) (fun l => Some l) asciiToString
          [AIService.Response 200;
           AIService.Data (map byte_of_ascii ("a"%char :: "010"%char :: str "b"));
           AIService.Error (str "ECONNRESET"); AIService.End])
     = Some (AIService.Rejected (AIService.RequestError (str "ECONNRESET")))
  /\ AIService.promise
       (AIService.streamRequest (fun s => s) (fun l => Some l) asciiToString
          [AIService.Timeout])
     = Some (AIService.Rejected AIService.StreamTimeout)
  /\ AIService.promise
       (AIService.streamRequest (fun s => s) (fun l => Some l) asciiToString
          [AIService.Response 404; AIService.Data (map byte_of_ascii (str "no"));
           AIService.End])
     = Some (AIService.Rejected (AIService.ApiError 404 (str "no"))).
Proof. repeat split; vm_compute; reflexivity. Qed.

(** The caret mapping on [one two three two]: the estimates, the offset in
    the source text for the caret behind the second [two], and the position
    in the editor for the caret at the end of the source text. *)
Lemma caret_mapping_runs :
  Mapper.approxMdPos 18 (contentSize mappedDoc) (len mappedSource) = Some 18
  /\ Mapper.toggleToSource (mkEditor mappedDoc 18 18) mappedSource = 19
  /\ Mapper.toggleToSource (mkEditor mappedDoc 8 8) mappedSource = 9
  /\ Mapper.approxTextPos 19 (len mappedSource) (len (text mappedDoc)) = Some 17
  /\ Mapper.toggleToEditor 19 mappedSource (str "one two three two") mappedDoc
     = 17
  /\ Mapper.toggleToEditor 3 mappedSource (str "o") mappedDoc = 1
  /\ Mapper.approxMdPos 1 6 3 = Some 1
  /\ Mapper.approxMdPos 5 13 15 = Some 6.
Proof. repeat split; vm_compute; reflexivity. Qed.

Lemma deriveShape_shapes_witness :
  ((bold = bold /\ 2 = 2 /\ 2 = 2) \/ (bold = italic /\ 2 = 1 /\ 2 = 1))
  /\ 2 + 2 <= len (str "**ab**")
  /\ exists c, (c = "*"%char \/ c = "_"%char)
               /\ startsWith (str "**ab**") (repeat c (Z.to_nat 2)) = true
               /\ endsWith (str "**ab**") (repeat c (Z.to_nat 2)) = true.
Proof.
  apply (DelimiterProps.deriveShape_shapes (str "**ab**") bold 2 2).
  reflexivity.
Defined.

Lemma parseSegment_delimiters_witness :
  str "ab" <> []
  /\ (exists c, (c = "*"%char \/ c = "_"%char)
                /\ ((bold = bold /\ str "__ab__" = [c; c] ++ str "ab" ++ [c; c])
                    \/ (bold = italic /\ str "__ab__" = [c] ++ str "ab" ++ [c])))
  /\ (bold = italic -> bold = italic).
Proof.
  apply (DelimiterProps.parseSegment_delimiters bold (str "__ab__") (str "ab") bold).
  reflexivity.
Defined.

Lemma reconcile_settles_witness :
  text (doc (snd (fst shrunkReconciled))) = text shrunkDoc
  /\ selFrom (snd (fst shrunkReconciled)) = 6
  /\ selTo (snd (fst shrunkReconciled)) = 6
  /\ reconcileActiveBoldRevealMarks (snd (fst shrunkReconciled))
       (snd shrunkReconciled)
     = (false, snd (fst shrunkReconciled), snd shrunkReconciled).
Proof.
  apply (TransitionProps.reconcile_settles (mkEditor shrunkDoc 6 6)
           (snd (fst shrunkReconciled)) shrunkSpan (snd shrunkReconciled)).
  vm_compute. reflexivity.
Defined.

Lemma keydown_deletes_one_marker_witness :
  exists rv c pre m post,
    _activeInlineReveal (snd miAtEnd) = Some rv
    /\ markerCharOf (syntax rv) = Some c
    /\ selEmpty (fst miAtEnd) = true
    /\ doc (fst miAtEnd) = pre ++ [(c, m)] ++ post
    /\ doc (fst miBackspace) = pre ++ post
    /\ selFrom (fst miBackspace) = posAfter pre
    /\ selTo (fst miBackspace) = posAfter pre
    /\ snd miBackspace = mkTr false true [(posAfter pre, 1, 0)]
    /\ ((str "Backspace" = str "Backspace"
         /\ selFrom (fst miAtEnd) = posAfter pre + 1)
        \/ (str "Backspace" = str "Delete"
            /\ selFrom (fst miAtEnd) = posAfter pre)).
Proof.
  apply (TransitionProps.keydown_deletes_one_marker (fst miAtEnd)
           (fst miBackspace) (snd miAtEnd) (str "Backspace") (snd miBackspace)).
  vm_compute. reflexivity.
Defined.

Lemma collapse_removes_delimiters_only_witness :
  exists delim mid,
    text (firstn 5 mixedDoc) = delim ++ mid ++ delim
    /\ (delim = [] \/ exists c, (c = "*"%char \/ c = "_"%char)
                               /\ (delim = [c] \/ delim = [c; c]))
    /\ text (doc (fst (collapseInlineReveal (mkEditor mixedDoc 6 6)
                         (idle mixedBold))))
       = text [] ++ mid ++ text (skipn 5 mixedDoc)
    /\ _activeInlineReveal (snd (collapseInlineReveal (mkEditor mixedDoc 6 6)
                                   (idle mixedBold))) = None.
Proof.
  apply (TransitionProps.collapse_removes_delimiters_only
           (mkEditor mixedDoc 6 6) (idle mixedBold) mixedBold
           [] (firstn 5 mixedDoc) (skipn 5 mixedDoc)).
  - reflexivity.
  - reflexivity.
  - vm_compute. reflexivity.
  - vm_compute. reflexivity.
Defined.

Lemma expand_inserts_markers_witness :
  expandInlineReveal
    (mkEditor (plain (str "x ") ++ styled (only bold) (str "ab")) 4 4) g0
    (mkCandidate bold (mkRange 3 5) (str "**")) = None
  /\ exists left inner' right e' g',
    expandInlineReveal (mkEditor boldDoc 4 4) g0
      (mkCandidate bold (mkRange 3 5) (str "**")) = Some (e', g')
    /\ len (str "**") <= Z.of_nat (length (plain (str " y"))) + 1
    /\ doc e' = plain (str "x ") ++ left ++ inner' ++ right ++ plain (str " y")
    /\ text left = str "**" /\ text right = str "**"
    /\ Forall (fun ch => hasMark bold (snd ch) = false) (left ++ right)
    /\ Forall2 (fun a b => fst b = fst a
                           /\ hasMark bold (snd b) = hasMark bold (snd a))
         (styled (only bold) (str "ab")) inner'
    /\ _activeInlineReveal g'
       = Some (mkReveal bold (str "**") (posAfter (plain (str "x ")))
                 (posAfter (plain (str "x ") ++ left ++ inner' ++ right))
                 (Some bold) (Some (len (str "**"))) (Some (len (str "**"))))
    /\ _inlineRevealJustExpanded g' = true.
Proof.
  split.
  - apply (proj1 (TransitionProps.expand_inserts_markers
             (mkEditor (plain (str "x ") ++ styled (only bold) (str "ab")) 4 4) g0
             (mkCandidate bold (mkRange 3 5) (str "**"))
             (plain (str "x ")) (styled (only bold) (str "ab")) []
             ltac:(discriminate) eq_refl eq_refl)).
    reflexivity.
  - apply (proj2 (TransitionProps.expand_inserts_markers
             (mkEditor boldDoc 4 4) g0
             (mkCandidate bold (mkRange 3 5) (str "**"))
             (plain (str "x ")) (styled (only bold) (str "ab"))
             (plain (str " y"))
             ltac:(discriminate) eq_refl eq_refl)).
    reflexivity.
Defined.

Lemma sync_stays_revealed_inside_witness :
  text (doc (fst (syncInlineReveal getMarkRangePM 1000
                    (mkEditor (doc (fst miEntered)) 5 5) (snd miEntered) None)))
  = text (doc (fst miEntered))
  /\ selFrom (fst (syncInlineReveal getMarkRangePM 1000
                     (mkEditor (doc (fst miEntered)) 5 5) (snd miEntered) None))
     = 5
  /\ selTo (fst (syncInlineReveal getMarkRangePM 1000
                   (mkEditor (doc (fst miEntered)) 5 5) (snd miEntered) None))
     = 5
  /\ _activeInlineReveal
       (snd (syncInlineReveal getMarkRangePM 1000
               (mkEditor (doc (fst miEntered)) 5 5) (snd miEntered) None))
     <> None.
Proof.
  apply (TransitionProps.sync_stays_revealed_inside getMarkRangePM 1000
           (mkEditor (doc (fst miEntered)) 5 5) (snd miEntered) None miRevealed).
  - reflexivity.
  - reflexivity.
  - vm_compute. split; discriminate.
Defined.


Lemma navigate_wraps_witness :
  searchIndex (fst (SearchNav.navigateSearchResult (-1) catFound))
  = (-1) mod Z.of_nat (length (searchMarks catFound)).
Proof.
  refine (proj1 (SearchNavProps.navigate_wraps (-1) catFound _)).
  vm_compute. discriminate.
Defined.

Lemma search_marks_cover_query_witness :
  str "AT" <> []
  /\ 1 <= 8
  /\ 10 = 8 + len (str "AT")
  /\ 10 <= contentSize (plain catText) - 1
  /\ map lowerChar (textBetween (plain catText) 8 10) = map lowerChar (str "AT").
Proof.
  apply (SearchRangeProps.search_marks_cover_query lowerChar (plain catText)
           (str "AT") (mkMatch 8 10)).
  vm_compute. left. reflexivity.
Defined.

Lemma editor_caret_before_anchor_end_witness :
  3 <= 5 <= Z.of_nat (length helloDoc)
  /\ Mapper.pmPosOf helloDoc 5 = 5
  /\ Mapper.editorCaret (str "hello") helloDoc 5 = 5
  /\ textBetween helloDoc 0 (Mapper.editorCaret (str "hello") helloDoc 5)
     = firstn (Z.to_nat (5 - 1)) (text helloDoc).
Proof.
  apply (WalkProps.editor_caret_before_anchor_end (str "hello") helloDoc 5 5).
  vm_compute. reflexivity.
Defined.

Lemma input_rule_reveals_witness :
  InputRule.fire getMarkRangePM 0 InputRule.boldStar typedBold g0
    (mkRange 3 8) (str "**ab**") (str "ab")
  = Some (mkEditor (plain (str "x **")
                    ++ styled (only bold) (str "ab") ++ plain (str "**")) 9 9,
          setSyncing false (setJustExpanded true (setActive
            (Some (mkReveal bold (str "**") 3 9 (Some bold) (Some 2) (Some 2)))
            g0))).
Proof.
  refine (InputRuleProps.input_rule_reveals getMarkRangePM 0 InputRule.boldStar
            typedBold g0 (plain (str "x ")) (plain (str "**")) (plain (str "ab"))
            (plain (str "*")) [] (str "**ab**") _ _ _).
  - reflexivity.
  - discriminate.
  - reflexivity.
Defined.

Lemma paragraph_bounds_witness :
  exists before line after,
    threeLines = before ++ line ++ after
    /\ SourceView.paragraphBounds threeLines 4
       = (len before, len before + len line)
    /\ len before <= 4 <= len before + len line
    /\ ~ In "010"%char line
    /\ substring threeLines (len before) (len before + len line) = line
    /\ (before = [] \/ exists b, before = b ++ ["010"%char])
    /\ (after = [] \/ exists a, after = "010"%char :: a).
Proof.
  refine (SourceViewProps.paragraph_bounds threeLines 4 _).
  vm_compute. split; discriminate.
Defined.


Lemma highlight_follows_edit_witness :
  SearchHighlight.matches
    (SearchHighlight.apply None (mkTr false true [(10, 0, 1)]) catHighlights)
  = [mkMatch 8 11; mkMatch 15 17].
Proof.
  refine (proj1 (proj1 (SearchHighlightProps.highlight_follows_edit
                          catHighlights 10 1 _ _ _))).
  - lia.
  - discriminate.
  - intros m [<-|[<-|[]]]; cbn; lia.
Defined.

End ExtraChecks.
